(** * zephinax: the profile card renderer, embedded in Rocq

    The program fetches a profile over HTTP and prints it as a framed box.
    This file embeds the text-layout routines of the canonical renderer
    (the version with [CONTENT_MARGIN] and section dividers) and the thin
    error-handling glue around it, and proves properties of them.

    Conventions of the embedding:
    - a JavaScript string is the list of its UTF-16 code units
      ([jsstring := list N]); [.length] is [length];
    - a JavaScript number that the program only uses as an integer is a [Z];
    - [null]/[undefined] is [None];
    - the regular expressions of the source are terms of a small regex
      syntax, run by a backtracking matcher that lists the results in the
      priority order of the ECMAScript matcher;
    - the servers are a function from URLs to replies, and the response
      that reaches the program is computed from it for each of the two
      request paths: [fetch] follows redirects, [https.get] does not. *)

From Stdlib Require Import Strings.String Strings.Ascii Numbers.DecimalString.
From Stdlib Require Import List ZArith NArith Lia Bool Arith.
Import ListNotations.

(* ================================================================== *)
(** ** Strings as lists of code units *)

Abbreviation char := N.
Abbreviation jsstring := (list N).

Definition cu (a : ascii) : char := N_of_ascii a.

(** An ASCII literal as a JavaScript string. *)
Definition js (s : string) : jsstring := map cu (list_ascii_of_string s).

Definition ESC : char := 27%N.            (* \u001b *)
Definition CSI : char := 155%N.           (* \u009b *)
Definition LF : char := 10%N.
Definition CR : char := 13%N.
Definition SP : char := 32%N.
Definition ELLIPSIS : char := 8230%N.     (* U+2026 *)
Definition BOX_V : char := 9474%N.        (* U+2502 *)
Definition BOX_H : char := 9472%N.        (* U+2500 *)
Definition BOX_TL : char := 9581%N.       (* U+256D *)
Definition BOX_TR : char := 9582%N.       (* U+256E *)
Definition BOX_BL : char := 9584%N.       (* U+2570 *)
Definition BOX_BR : char := 9583%N.       (* U+256F *)
Definition BOX_LT : char := 9500%N.       (* U+251C *)
Definition BOX_RT : char := 9508%N.       (* U+2524 *)

Definition inRange (lo hi c : char) : bool := (N.leb lo c && N.leb c hi)%bool.

Definition oneOf (cs : list char) (c : char) : bool := existsb (N.eqb c) cs.

(** [\s] of ECMAScript: WhiteSpace and LineTerminator code points.  The
    same set is what [String.prototype.trim] removes. *)
Definition isSpace (c : char) : bool :=
  (inRange 9%N 13%N c
   || oneOf [32%N; 160%N; 5760%N; 8232%N; 8233%N; 8239%N; 8287%N; 12288%N;
             65279%N] c
   || inRange 8192%N 8202%N c)%bool.

(** LineTerminator: what a multiline [^] looks behind for. *)
Definition isLineTerminator (c : char) : bool :=
  oneOf [10%N; 13%N; 8232%N; 8233%N] c.

Definition truthy (s : jsstring) : bool :=
  match s with [] => false | _ :: _ => true end.

(** [a || b] on values that are a string or absent. *)
Definition truthyOpt (o : option jsstring) : bool :=
  match o with Some s => truthy s | None => false end.

Definition orElse (a b : option jsstring) : option jsstring :=
  if truthyOpt a then a else b.

Fixpoint dropWhile (p : char -> bool) (s : jsstring) : jsstring :=
  match s with
  | [] => []
  | c :: t => if p c then dropWhile p t else s
  end.

Definition trimStart (s : jsstring) : jsstring := dropWhile isSpace s.
Definition trimEnd (s : jsstring) : jsstring := rev (dropWhile isSpace (rev s)).
Definition trim (s : jsstring) : jsstring := trimEnd (trimStart s).

(** [s.repeat(n)] for [n >= 0]. *)
Fixpoint repeatStr (s : jsstring) (n : nat) : jsstring :=
  match n with
  | O => []
  | S k => s ++ repeatStr s k
  end.

(** [arr.join(sep)]. *)
Fixpoint join (sep : jsstring) (l : list jsstring) : jsstring :=
  match l with
  | [] => []
  | [x] => x
  | x :: t => x ++ sep ++ join sep t
  end.

(** [s.slice(start, end)] with the negative-index rule of ECMAScript. *)
Definition sliceIndex (len i : Z) : Z :=
  if (i <? 0)%Z then Z.max (len + i) 0 else Z.min i len.

Definition slice (s : jsstring) (from to : Z) : jsstring :=
  let len := Z.of_nat (length s) in
  let a := sliceIndex len from in
  let b := sliceIndex len to in
  firstn (Z.to_nat (b - a)) (skipn (Z.to_nat a) s).

(** [s.padEnd(n)] with the default filler, a space. *)
Definition padEnd (s : jsstring) (n : nat) : jsstring :=
  s ++ repeatStr [SP] (n - length s).

(** [s.toUpperCase()] for a string of ASCII code units (below 128), where
    it changes the letters a to z and nothing else.  On other code units
    JavaScript may change more, and even the length; those inputs are
    outside this model, and statements about the result of [toUpperCase]
    are made for ASCII input only.  The labels the program passes,
    "details", "contact" and "about", are ASCII. *)
Definition toUpperCase (s : jsstring) : jsstring :=
  map (fun c => if inRange 97%N 122%N c then (c - 32)%N else c) s.

(** Decimal rendering of an integer, as a template literal does it. *)
Definition decimal (z : Z) : jsstring :=
  js (NilZero.string_of_int (Z.to_int z)).

(* ================================================================== *)
(** ** Regular expressions *)

Module Regex.

(** The fragment of the regex syntax the source uses.  [Rep lo hi r] is the
    greedy quantifier [r{lo,hi}]; [hi = None] is unbounded, so
    [r*] is [Rep 0 None r], [r+] is [Rep 1 None r], [r?] is
    [Rep 0 (Some 1) r]. *)
Inductive regex : Type :=
| Eps : regex
| Chr : (char -> bool) -> regex
| Seq : regex -> regex -> regex
| Alt : regex -> regex -> regex
| Rep : nat -> option nat -> regex -> regex
| Bol : regex.                       (* [^] under the [m] flag *)

(** A position in the input: the code unit just before it, if any, and the
    input that remains. *)
Definition state : Type := (option char * jsstring)%type.

Definition rest (st : state) : jsstring := snd st.

Definition atLineStart (st : state) : bool :=
  match fst st with
  | None => true
  | Some c => isLineTerminator c
  end.

(** The greedy quantifier: up to [hi] iterations of [step], at least [lo];
    more iterations are tried before fewer.  As in ECMAScript's
    RepeatMatcher, an iteration past the minimum that consumes nothing is
    rejected. *)
Fixpoint rep (step : state -> list state) (lo hi : nat) (st : state)
  : list state :=
  match hi with
  | O => if Nat.eqb lo 0 then [st] else []
  | S hi' =>
      flat_map
        (fun st' =>
           if (Nat.eqb lo 0 && Nat.eqb (length (rest st')) (length (rest st)))%bool
           then []
           else rep step (Nat.pred lo) hi' st')
        (step st)
      ++ (if Nat.eqb lo 0 then [st] else [])
  end.

(** All the ways [r] matches at [st], as the positions after the match, in
    the order a backtracking matcher tries them: the head is the match that
    JavaScript reports.  An unbounded quantifier needs at most
    [lo + length (rest st)] iterations, since every iteration past the
    minimum consumes input. *)
Fixpoint matches (r : regex) (st : state) : list state :=
  match r with
  | Eps => [st]
  | Chr p =>
      match rest st with
      | c :: t => if p c then [(Some c, t)] else []
      | [] => []
      end
  | Seq a b => flat_map (matches b) (matches a st)
  | Alt a b => matches a st ++ matches b st
  | Rep lo hi a =>
      let bound :=
        match hi with
        | Some n => n
        | None => lo + length (rest st)
        end in
      rep (matches a) lo bound st
  | Bol => if atLineStart st then [st] else []
  end.

(** The length of the match at [st], if there is one. *)
Definition exec (r : regex) (st : state) : option nat :=
  match matches r st with
  | st' :: _ => Some (length (rest st) - length (rest st'))
  | [] => None
  end.

(** [s.replace(/r/g, by)] for a replacement without [$] patterns.
    [skip] counts the code units of the current match still to pass. *)
Fixpoint replaceFrom (r : regex) (by_ : jsstring) (skip : nat)
         (prev : option char) (s : jsstring) : jsstring :=
  match skip with
  | S k =>
      match s with
      | c :: t => replaceFrom r by_ k (Some c) t
      | [] => []
      end
  | O =>
      match exec r (prev, s) with
      | Some (S n) =>
          by_ ++ match s with
                 | c :: t => replaceFrom r by_ n (Some c) t
                 | [] => []
                 end
      | Some O =>
          (* empty match: the search resumes one code unit further *)
          by_ ++ match s with
                 | c :: t => c :: replaceFrom r by_ 0 (Some c) t
                 | [] => []
                 end
      | None =>
          match s with
          | c :: t => c :: replaceFrom r by_ 0 (Some c) t
          | [] => []
          end
      end
  end.

Definition replaceAll (r : regex) (by_ : jsstring) (s : jsstring) : jsstring :=
  replaceFrom r by_ 0 None s.

(** [s.split(/r/)]: [cur] is the piece since the last separator. *)
Fixpoint splitFrom (r : regex) (skip : nat) (prev : option char)
         (cur : jsstring) (s : jsstring) : list jsstring :=
  match skip with
  | S k =>
      match s with
      | c :: t => splitFrom r k (Some c) cur t
      | [] => [cur]
      end
  | O =>
      match s with
      | [] => [cur]
      | c :: t =>
          match exec r (prev, s) with
          | Some (S n) => cur :: splitFrom r n (Some c) [] t
          | Some O =>
              (* an empty match right after the last separator is skipped *)
              match cur with
              | [] => splitFrom r 0 (Some c) [c] t
              | _ :: _ => cur :: splitFrom r 0 (Some c) [c] t
              end
          | None => splitFrom r 0 (Some c) (cur ++ [c]) t
          end
      end
  end.

Definition split (r : regex) (s : jsstring) : list jsstring :=
  match s with
  | [] => match exec r (None, []) with Some _ => [] | None => [[]] end
  | _ :: _ => splitFrom r 0 None [] s
  end.

Definition star (r : regex) : regex := Rep 0 None r.
Definition plus (r : regex) : regex := Rep 1 None r.
Definition opt (r : regex) : regex := Rep 0 (Some 1) r.
Definition lit (c : char) : regex := Chr (N.eqb c).

End Regex.

Import Regex.

(* ================================================================== *)
(** ** The program *)

Definition CONTENT_MARGIN : Z := 1.

Module color.
Definition sgr (code : string) (str : jsstring) : jsstring :=
  [ESC] ++ js "[" ++ js code ++ js "m" ++ str ++ [ESC] ++ js "[0m".
Definition cyan := sgr "36".
Definition magenta := sgr "35".
Definition yellow := sgr "33".
Definition bold := sgr "1".
Definition dim := sgr "2".
End color.

(** [/\*\*/] *)
Definition reBold : regex := Seq (lit (cu "*")) (lit (cu "*")).

(** [/^>\s?/m] *)
Definition reQuote : regex := Seq Bol (Seq (lit (cu ">")) (opt (Chr isSpace))).

(** [/\r?\n\s*/] *)
Definition reBreak : regex :=
  Seq (opt (lit CR)) (Seq (lit LF) (star (Chr isSpace))).

(** [/\r?\n/] *)
Definition reNewline : regex := Seq (opt (lit CR)) (lit LF).

(** [/\s+/] *)
Definition reSpaces : regex := plus (Chr isSpace).

Definition clean (text : option jsstring) : jsstring :=
  match text with
  | None => []
  | Some [] => []
  | Some t =>
      trim (replaceAll reBreak [LF]
              (replaceAll reQuote [] (replaceAll reBold [] t)))
  end.

(** The [forEach] body of [wrapText]: the state is [(lines, current)]. *)
Definition wrapStep (width : Z) (acc : list jsstring * jsstring)
           (word : jsstring) : list jsstring * jsstring :=
  let '(lines, current) := acc in
  let candidate := if truthy current then current ++ [SP] ++ word else word in
  if (Z.of_nat (length candidate) >? width)%Z then
    ((if truthy current then lines ++ [current] else lines), word)
  else (lines, candidate).

(** The [flatMap] callback of [wrapText]. *)
Definition wrapPara (width : Z) (indentStr : jsstring) (para : jsstring)
  : list jsstring :=
  let words := split reSpaces para in
  let '(lines, current) := fold_left (wrapStep width) words ([], []) in
  let lines := if truthy current then lines ++ [current] else lines in
  map (fun l => indentStr ++ l) lines.

Definition paragraphs (text : jsstring) : list jsstring :=
  filter truthy (map trim (split reNewline text)).

Definition wrapText (text : jsstring) (width : Z) (indent : nat)
  : list jsstring :=
  if truthy text then
    let indentStr := repeatStr [SP] indent in
    flat_map (wrapPara width indentStr) (paragraphs text)
  else [].

Definition divider (c : jsstring) (length : Z) : jsstring :=
  repeatStr c (Z.to_nat length).

Definition isDigit (c : char) : bool := inRange 48%N 57%N c.

(** [[\u001b\u009b]] *)
Definition isIntroducer (c : char) : bool := oneOf [ESC; CSI] c.

(** The class of intermediates: the six code units of the literal below. *)
Definition isIntermediate (c : char) : bool :=
  oneOf (js "[()#;?") c.

(** [[0-9A-ORZcf-nqry=><]] *)
Definition isFinal (c : char) : bool :=
  (isDigit c || inRange 65%N 79%N c || oneOf (js "RZc") c
   || inRange 102%N 110%N c || oneOf (js "qry=><") c)%bool.

(** The pattern of [stripAnsi]: an introducer, any number of intermediates,
    optionally one to four digits followed by any number of groups of a
    semicolon and up to four digits, then a final code unit. *)
Definition reAnsi : regex :=
  Seq (Chr isIntroducer)
   (Seq (star (Chr isIntermediate))
    (Seq (opt (Seq (Rep 1 (Some 4) (Chr isDigit))
                   (star (Seq (lit (cu ";")) (Rep 0 (Some 4) (Chr isDigit))))))
         (Chr isFinal))).

Definition stripAnsi (str : jsstring) : jsstring := replaceAll reAnsi [] str.

Definition visibleLength (str : jsstring) : Z :=
  Z.of_nat (length (stripAnsi str)).

Definition boxTop (label : jsstring) (width : Z) : jsstring :=
  let title := if truthy label then [SP] ++ label ++ [SP] else [] in
  let dash := Z.max 0 (width - 2 - Z.of_nat (length title)) in
  [BOX_TL] ++ title ++ divider [BOX_H] dash ++ [BOX_TR].

Definition boxBottom (width : Z) : jsstring :=
  [BOX_BL] ++ divider [BOX_H] (Z.max 0 (width - 2)) ++ [BOX_BR].

(** The [inner] of [boxLine] (and the [contentWidth] of [render]). *)
Definition innerWidth (width : Z) : Z :=
  Z.max 0 (width - 4 - CONTENT_MARGIN * 2).

(** The [raw] of [boxLine]: the text as it is, or cut to fit. *)
Definition boxRaw (text : option jsstring) (width : Z) : jsstring :=
  let inner := innerWidth width in
  let content := match text with Some t => t | None => [] end in
  let visLen := visibleLength content in
  let needsTruncate := (visLen >? inner)%Z in
  if needsTruncate
  then slice (stripAnsi content) 0 (inner - 1) ++ [ELLIPSIS]
  else content.

(** The [padding] of [boxLine]. *)
Definition boxPadding (text : option jsstring) (width : Z) : Z :=
  Z.max 0 (innerWidth width - visibleLength (boxRaw text width)).

Definition boxLine (text : option jsstring) (width : Z) : jsstring :=
  let raw := boxRaw text width in
  let padding := boxPadding text width in
  let margin := repeatStr [SP] (Z.to_nat CONTENT_MARGIN) in
  [BOX_V; SP] ++ margin ++ raw ++ repeatStr [SP] (Z.to_nat padding)
    ++ margin ++ [SP; BOX_V].

Definition boxDivider (label : jsstring) (width : Z) : jsstring :=
  let tag := if truthy label then [SP] ++ toUpperCase label ++ [SP] else [] in
  let lineLen := Z.max 0 (width - 2 - Z.of_nat (length tag)) in
  [BOX_LT] ++ tag ++ divider [BOX_H] lineLen ++ [BOX_RT].

Definition fieldLine (label : jsstring) (value : option jsstring) (width : Z)
  : option jsstring :=
  if truthyOpt value then
    let labelText := padEnd (label ++ js ":") 8 in
    Some (boxLine
            (Some (color.yellow labelText ++ [SP]
                     ++ match value with Some v => v | None => [] end))
            width)
  else None.

(** The profile record: every field is a string or absent. *)
Record profile : Type := {
  displayName : option jsstring;
  username : option jsstring;
  pronouns : option jsstring;
  firstName : option jsstring;
  lastName : option jsstring;
  jobTitle : option jsstring;
  timeZone : option jsstring;
  email : option jsstring;
  website : option jsstring;
  about : option jsstring;
  bio : option jsstring
}.

Definition emptyProfile : profile :=
  {| displayName := None; username := None; pronouns := None;
     firstName := None; lastName := None; jobTitle := None;
     timeZone := None; email := None; website := None;
     about := None; bio := None |}.

Definition orEmpty (o : option jsstring) : jsstring :=
  match orElse o (Some []) with Some s => s | None => [] end.

(** [Math.max(60, Math.min(process.stdout.columns || 80, 100))]; [columns]
    is what the terminal reports, [None] when it reports nothing. *)
Definition boxWidth (columns : option Z) : Z :=
  let reported :=
    match columns with
    | Some c => if (c =? 0)%Z then 80%Z else c
    | None => 80%Z
    end in
  Z.max 60 (Z.min reported 100).

Definition header (p : profile) : jsstring :=
  trim (color.bold
          (orEmpty (orElse (orElse (displayName p) (username p))
                           (Some (js "Zephinax"))))
        ++ [SP]
        ++ (if truthyOpt (pronouns p)
            then js "(" ++ orEmpty (pronouns p) ++ js ")"
            else [])).

Definition fullName (p : profile) : option jsstring :=
  if (truthyOpt (firstName p) || truthyOpt (lastName p))%bool
  then Some (trim (orEmpty (firstName p) ++ [SP] ++ orEmpty (lastName p)))
  else None.

Definition aboutLines (p : profile) (width : Z) : list jsstring :=
  let about := clean (orElse (about p) (bio p)) in
  let contentWidth := innerWidth width in
  if truthy about then wrapText about (contentWidth - 2) 0 else [].

(** The array [lines] of [render], before [filter(Boolean)]. *)
Definition renderRows (p : profile) (width : Z) : list (option jsstring) :=
  let primary := color.cyan (header p) in
  let secondary :=
    if truthyOpt (fullName p)
    then Some (color.dim (orEmpty (fullName p))) else None in
  let aboutLines := aboutLines p width in
  [ Some (boxTop (js "Profile") width);
    Some (boxLine (Some primary) width);
    (if truthyOpt secondary then Some (boxLine secondary width) else None);
    Some (boxDivider (js "details") width);
    fieldLine (js "Role") (jobTitle p) width;
    fieldLine (js "Timezone") (timeZone p) width;
    Some (boxDivider (js "contact") width);
    fieldLine (js "Email") (email p) width;
    fieldLine (js "Web") (website p) width;
    (if (0 <? length aboutLines)%nat
     then Some (boxDivider (js "about") width) else None) ]
  ++ map (fun l => Some (boxLine (Some l) width)) aboutLines
  ++ [ Some (boxBottom width) ].

(** [lines.filter(Boolean)]: the rows that are printed. *)
Definition renderLines (p : profile) (columns : option Z) : list jsstring :=
  flat_map (fun o => match o with
                     | Some s => if truthy s then [s] else []
                     | None => []
                     end)
           (renderRows p (boxWidth columns)).

Definition render (p : profile) (columns : option Z) : jsstring :=
  join [LF] (renderLines p columns).

(* ================================================================== *)
(** ** Fetching and the entry point *)

(** A computation that writes to the two output streams, sets the exit
    code, and either returns or throws an [Error] with a message.  What was
    written before a throw stays written. *)
Record process : Type := {
  stdout : list jsstring;
  stderr : list jsstring;
  exitCode : option Z
}.

Inductive outcome (A : Type) : Type :=
| Return : A -> outcome A
| Throw : jsstring -> outcome A.
Arguments Return {A} _.
Arguments Throw {A} _.

Definition M (A : Type) : Type := process -> outcome A * process.

Definition ret {A : Type} (a : A) : M A := fun w => (Return a, w).
Definition throw {A : Type} (message : jsstring) : M A :=
  fun w => (Throw message, w).
Definition bind {A B : Type} (m : M A) (k : A -> M B) : M B :=
  fun w => match m w with
           | (Return a, w') => k a w'
           | (Throw e, w') => (Throw e, w')
           end.
Definition tryCatch {A : Type} (m : M A) (handler : jsstring -> M A) : M A :=
  fun w => match m w with
           | (Return a, w') => (Return a, w')
           | (Throw e, w') => handler e w'
           end.

Notation "x <- m ;; k" := (bind m (fun x => k))
  (at level 61, m at next level, right associativity).
Notation "m ;;; k" := (bind m (fun _ => k))
  (at level 61, right associativity).

Definition console_log (s : jsstring) : M unit :=
  fun w => (Return tt,
            {| stdout := stdout w ++ [s]; stderr := stderr w;
               exitCode := exitCode w |}).
Definition console_error (s : jsstring) : M unit :=
  fun w => (Return tt,
            {| stdout := stdout w; stderr := stderr w ++ [s];
               exitCode := exitCode w |}).
Definition set_exitCode (c : Z) : M unit :=
  fun w => (Return tt,
            {| stdout := stdout w; stderr := stderr w; exitCode := Some c |}).

(** What the network does with the one GET request. *)
Inductive httpResult : Type :=
| NetworkError (message : jsstring)
| Response (status : Z) (body : jsstring).

(** What parsing a body gives, as far as [main] looks at it: a syntax error,
    or a value [data]; [payload] is [data.data] when both [data] and
    [data.data] are truthy. *)
Inductive parsed : Type :=
| SyntaxError (message : jsstring)
| Value (payload : option profile).

Section Main.

(** [JSON.parse] / [res.json()], the reported terminal width, and whether
    the runtime has a global [fetch]. *)
Variable JSON_parse : jsstring -> parsed.
Variable columns : option Z.
Variable hasFetch : bool.

Definition parseBody (body : jsstring) : M (option profile) :=
  match JSON_parse body with
  | SyntaxError m => throw m
  | Value v => ret v
  end.

(** [res.ok] of the Fetch API. *)
Definition ok (status : Z) : bool := ((200 <=? status) && (status <=? 299))%Z.

Definition statusMessage (status : Z) : jsstring :=
  js "Request failed with status " ++ decimal status.

Definition fetchProfile (net : httpResult) : M (option profile) :=
  if hasFetch then
    match net with
    | NetworkError m => throw m
    | Response status body =>
        if negb (ok status) then throw (statusMessage status)
        else parseBody body
    end
  else
    match net with
    | NetworkError m => throw m
    | Response status body =>
        if ((status <? 200) || (status >=? 300))%Z
        then throw (statusMessage status)
        else parseBody body
    end.

Definition main (net : httpResult) : M unit :=
  tryCatch
    (data <- fetchProfile net ;;
     match data with
     | None => throw (js "No profile data returned.")
     | Some p => console_log (render p columns)
     end)
    (fun message =>
       console_error (color.magenta (js "Error:") ++ [SP] ++ message) ;;;
       set_exitCode 1).

Definition start : process :=
  {| stdout := []; stderr := []; exitCode := None |}.

Definition run (net : httpResult) : process := snd (main net start).

End Main.

(* ================================================================== *)
(** ** The earlier renderer

    [bin/index.js] is the renderer before the content margin and the
    section dividers.  It shares every function with the canonical one
    except [line], [boxLine] and [render], which are embedded here. *)

Module Legacy.

Definition BULLET : char := 8226%N.       (* U+2022 *)

Definition line (label : jsstring) (value : option jsstring)
  : option jsstring :=
  if truthyOpt value
  then Some (color.yellow label ++ [SP]
               ++ match value with Some v => v | None => [] end)
  else None.

(** The [inner] of [boxLine] and of [render]. *)
Definition innerWidth (width : Z) : Z := Z.max 0 (width - 4).

(** The [raw] of [boxLine]. *)
Definition boxRaw (text : option jsstring) (width : Z) : jsstring :=
  let inner := innerWidth width in
  let content := match text with Some t => t | None => [] end in
  let visLen := visibleLength content in
  let needsTruncate := (visLen >? inner)%Z in
  if needsTruncate
  then slice (stripAnsi content) 0 (inner - 1) ++ [ELLIPSIS]
  else content.

(** The [padding] of [boxLine]. *)
Definition boxPadding (text : option jsstring) (width : Z) : Z :=
  Z.max 0 (innerWidth width - visibleLength (boxRaw text width)).

Definition boxLine (text : option jsstring) (width : Z) : jsstring :=
  let raw := boxRaw text width in
  let padding := boxPadding text width in
  [BOX_V; SP] ++ raw ++ repeatStr [SP] (Z.to_nat padding) ++ [SP; BOX_V].

(** [[a, b].filter(Boolean).join("  •  ")] *)
Definition joinPresent (fields : list (option jsstring)) : jsstring :=
  join [SP; SP; BULLET; SP; SP]
       (flat_map (fun o => match o with
                           | Some s => if truthy s then [s] else []
                           | None => []
                           end) fields).

Definition aboutLines (p : profile) (width : Z) : list jsstring :=
  let about := clean (orElse (about p) (bio p)) in
  let inner := innerWidth width in
  if truthy about then wrapText about (inner - 2) 0 else [].

(** The array [lines] of [render], before [filter(Boolean)]. *)
Definition renderRows (p : profile) (width : Z) : list (option jsstring) :=
  let primary := color.cyan (header p) in
  let secondary :=
    if truthyOpt (fullName p)
    then Some (color.dim (orEmpty (fullName p))) else None in
  let roleLocation := joinPresent [jobTitle p; timeZone p] in
  let contact := joinPresent [email p; website p] in
  let aboutLines := aboutLines p width in
  [ Some (boxTop (js "Profile") width);
    Some (boxLine (Some primary) width);
    (if truthyOpt secondary then Some (boxLine secondary width) else None);
    (if truthy roleLocation
     then Some (boxLine (Some roleLocation) width) else None);
    (if truthy contact then Some (boxLine (Some contact) width) else None);
    (if (0 <? length aboutLines)%nat
     then Some (boxDivider (js "about") width) else None) ]
  ++ map (fun l => Some (boxLine (Some l) width)) aboutLines
  ++ [ Some (boxBottom width) ].

Definition renderLines (p : profile) (columns : option Z) : list jsstring :=
  flat_map (fun o => match o with
                     | Some s => if truthy s then [s] else []
                     | None => []
                     end)
           (renderRows p (boxWidth columns)).

Definition render (p : profile) (columns : option Z) : jsstring :=
  join [LF] (renderLines p columns).

End Legacy.

(* ================================================================== *)
(** ** The request and what reaches the program

    [fetchProfile] looks at the response it is handed: the value [fetch]
    resolves with, or the message [https.get] passes to its callback.  What
    a server answers and what is handed over differ when the answer is a
    redirect: [fetch], called as the program calls it, with no option, is in
    redirect mode "follow" and requests the target of up to 20 redirects in
    a row, while [https.get] hands over the redirect answer itself. *)

(** What a server answers to one GET, as its final response (interim 1xx
    responses are not handed to the program): the status, the [Location]
    target if the answer has one (as the absolute URL it resolves to), and
    the body. *)
Record answer : Type := {
  ansStatus : Z;
  ansLocation : option jsstring;
  ansBody : jsstring
}.

Inductive reply : Type :=
| Unreachable (message : jsstring)
| Answer (a : answer).

(** The servers, as seen from the program: a reply for every URL. *)
Definition network : Type := jsstring -> reply.

(** The redirect statuses of the Fetch standard. *)
Definition isRedirectStatus (status : Z) : bool :=
  existsb (Z.eqb status) [301; 302; 303; 307; 308]%Z.

(** [process.env.ZEPHINAX_API_URL || "https://zephinax.com/api/user"] *)
Definition API_URL (env : option jsstring) : jsstring :=
  orEmpty (orElse env (Some (js "https://zephinax.com/api/user"))).

Section Delivery.

(** The message of the error [fetch] rejects with when it gives up on a
    chain of redirects; it depends on the runtime. *)
Variable redirectFailure : jsstring.

(** [fetch(url)]: a redirect answer with a target is followed while
    [budget] lasts; any other answer is the response. *)
Fixpoint fetchFollow (net : network) (budget : nat) (url : jsstring)
  : httpResult :=
  match net url with
  | Unreachable m => NetworkError m
  | Answer a =>
      if isRedirectStatus (ansStatus a) then
        match ansLocation a with
        | None => Response (ansStatus a) (ansBody a)
        | Some target =>
            match budget with
            | O => NetworkError redirectFailure
            | S k => fetchFollow net k target
            end
        end
      else Response (ansStatus a) (ansBody a)
  end.

(** [https.get(url, callback)]: the answer is the response. *)
Definition httpsGet (net : network) (url : jsstring) : httpResult :=
  match net url with
  | Unreachable m => NetworkError m
  | Answer a => Response (ansStatus a) (ansBody a)
  end.

(** [fetch] answers this reply with a second request. *)
Definition followed (r : reply) : bool :=
  match r with
  | Unreachable _ => false
  | Answer a =>
      isRedirectStatus (ansStatus a)
      && match ansLocation a with Some _ => true | None => false end
  end.

(** What is handed to [fetchProfile] on each of its two paths. *)
Definition delivered (hasFetch : bool) (net : network) (url : jsstring)
  : httpResult :=
  if hasFetch then fetchFollow net 20 url else httpsGet net url.

(** The program against a network: [main] requests [API_URL]. *)
Definition runAgainst (JSON_parse : jsstring -> parsed) (columns : option Z)
           (hasFetch : bool) (env : option jsstring) (net : network)
  : process :=
  run JSON_parse columns hasFetch (delivered hasFetch net (API_URL env)).

End Delivery.

(** The body of a response with an empty profile: an object whose [data]
    member is the empty object.  Code unit 34 is the double quote. *)
Definition profileBody : jsstring :=
  js "{" ++ [34%N] ++ js "data" ++ [34%N] ++ js ":{}}".

(** A parser that knows one body: it gives [payload] for [body] and a
    syntax error for every other input. *)
Definition parseOnly (body : jsstring) (payload : option profile)
  : jsstring -> parsed :=
  fun b => if list_eq_dec N.eq_dec b body then Value payload
           else SyntaxError (js "Unexpected token").

(** A server that answers the default URL with a redirect to a second URL,
    and the second URL with [final]. *)
Definition redirectTo (final : answer) : network :=
  fun url =>
    if list_eq_dec N.eq_dec url (js "https://zephinax.com/api/user")
    then Answer {| ansStatus := 302;
                   ansLocation := Some (js "https://zephinax.com/api/v2/user");
                   ansBody := [] |}
    else Answer final.

(** The second URL answers with the empty profile. *)
Definition redirectingServer : network :=
  redirectTo {| ansStatus := 200; ansLocation := None;
                ansBody := profileBody |}.

(* ================================================================== *)
(** ** Vocabulary of the statements and proofs *)

(** A step that never gives back input. *)
Definition shrinking (step : state -> list state) : Prop :=
  forall st st', In st' (step st) -> length (rest st') <= length (rest st).

(** [c] is inert for [r] when no class of [r] accepts it. *)
Fixpoint inert (r : regex) (c : char) : bool :=
  match r with
  | Eps | Bol => true
  | Chr p => negb (p c)
  | Seq a b | Alt a b => inert a c && inert b c
  | Rep _ _ a => inert a c
  end.

(** The position [st] with [suf] appended to the input that remains. *)
Definition extend (suf : jsstring) (st : state) : state :=
  (fst st, rest st ++ suf).

(** [r] has no line-start assertion, so it never looks behind. *)
Fixpoint bolFree (r : regex) : bool :=
  match r with
  | Eps | Chr _ => true
  | Bol => false
  | Seq a b | Alt a b => bolFree a && bolFree b
  | Rep _ _ a => bolFree a
  end.

(** Two positions with the same input ahead. *)
Definition sameRest (a b : state) : Prop := rest a = rest b.

(** [dead r s]: the pattern matches nowhere in [s], whatever precedes it. *)
Definition dead (r : regex) (s : jsstring) : Prop :=
  forall p k, exec r (p, skipn k s) = None.

(** [firstly r st st']: the match of [r] at [st] that the matcher reports
    ends at [st']. *)
Definition firstly (r : regex) (st st' : state) : Prop :=
  exists l, matches r st = st' :: l.

(** A string with no escape introducer in it. *)
Definition plain (s : jsstring) : Prop :=
  Forall (fun c => isIntroducer c = false) s.

(** The whitespace-delimited words of a string, in the words of the spec:
    its maximal runs of code units that are not whitespace, in order.  This
    is not read off the code; [paragraphs_words] below shows that the code's
    pipeline of [split], [trim], [filter] and [split] yields these words.
    [cur] is the run in progress. *)
Fixpoint wordsFrom (cur : jsstring) (s : jsstring) : list jsstring :=
  match s with
  | [] => if truthy cur then [cur] else []
  | c :: t =>
      if isSpace c
      then (if truthy cur then cur :: wordsFrom [] t else wordsFrom [] t)
      else wordsFrom (cur ++ [c]) t
  end.

Definition wordsOf (s : jsstring) : list jsstring := wordsFrom [] s.

(** A word: not empty, and no whitespace in it. *)
Definition isWord (u : jsstring) : Prop :=
  u <> [] /\ Forall (fun c => isSpace c = false) u.

(** The length of the longest prefix of [s] within the class [p]. *)
Fixpoint spanLen (p : char -> bool) (s : jsstring) : nat :=
  match s with
  | [] => 0
  | c :: t => if p c then S (spanLen p t) else 0
  end.

(** The pieces [split] gives on runs of whitespace: [gap] tells that the
    position is inside a separator. *)
Fixpoint pieces (gap : bool) (cur : jsstring) (s : jsstring) : list jsstring :=
  match s with
  | [] => [cur]
  | c :: t =>
      if isSpace c
      then (if gap then pieces true cur t else cur :: pieces true [] t)
      else pieces false (cur ++ [c]) t
  end.

(** The last code unit of [s] exists and is not whitespace. *)
Fixpoint lastNonSpace (s : jsstring) : bool :=
  match s with
  | [] => false
  | [c] => negb (isSpace c)
  | _ :: t => lastNonSpace t
  end.

(** A string of whitespace only. *)
Definition allSpace (s : jsstring) : Prop :=
  Forall (fun c => isSpace c = true) s.

(** A separator pattern: whatever it matches is whitespace, and not empty. *)
Definition separator (r : regex) : Prop :=
  forall p s n, exec r (p, s) = Some n -> 0 < n /\ allSpace (firstn n s).

(** The packing of [wrapText] on lists of words instead of joined strings:
    [groups] are the closed lines, [g] is the line being filled. *)
Definition groupStep (width : Z) (acc : list (list jsstring) * list jsstring)
           (word : jsstring) : list (list jsstring) * list jsstring :=
  let '(groups, g) := acc in
  if (Z.of_nat (length (join [SP] (g ++ [word]))) >? width)%Z
  then ((match g with [] => groups | _ :: _ => groups ++ [g] end), [word])
  else (groups, g ++ [word]).

(** The last [if (current) lines.push(current)], on groups. *)
Definition flushGroups (acc : list (list jsstring) * list jsstring)
  : list (list jsstring) :=
  let '(groups, g) := acc in
  match g with [] => groups | _ :: _ => groups ++ [g] end.

(** The groups of words that make the lines of one paragraph. *)
Definition wrapGroups (width : Z) (words : list jsstring)
  : list (list jsstring) :=
  flushGroups (fold_left (groupStep width) words ([], [])).

(** A line that fits, or that is one word alone. *)
Definition fits (width : Z) (g : list jsstring) : Prop :=
  (Z.of_nat (length (join [SP] g)) <= width)%Z \/ exists w, g = [w].

(** A string that is not empty. *)
Definition nonEmpty (u : jsstring) : Prop := u <> [].

(** The lines of a whole text, as groups of words. *)
Definition textGroups (text : jsstring) (width : Z) : list (list jsstring) :=
  flat_map (fun para => wrapGroups width (split reSpaces para))
           (paragraphs text).

(** Every whitespace code unit of [s] is a space and a word follows it. *)
Fixpoint singleSpaced (s : jsstring) : bool :=
  match s with
  | [] => true
  | c :: t =>
      (if isSpace c
       then N.eqb c SP && match t with d :: _ => negb (isSpace d) | [] => false end
       else true)
      && singleSpaced t
  end.

(** Clamping a value into the interval [[lo, hi]], in the words of the
    spec; [boxWidth] is compared with it. *)
Definition clamp (lo hi x : Z) : Z :=
  if (x <? lo)%Z then lo else if (x >? hi)%Z then hi else x.

(** Lines broken greedily: the first word of every line but the first
    would not have fitted at the end of the line before it. *)
Fixpoint greedyBreaks (width : Z) (groups : list (list jsstring)) : Prop :=
  match groups with
  | [] => True
  | g :: rest =>
      match rest with
      | [] => True
      | [] :: _ => False
      | (w :: _) :: _ =>
          (Z.of_nat (length (join [SP] (g ++ [w]))) > width)%Z
      end
      /\ greedyBreaks width rest
  end.

(** In [s] a non-whitespace code unit follows every line feed. *)
Fixpoint noBlankAfterLF (s : jsstring) : bool :=
  match s with
  | [] => true
  | c :: t =>
      (if N.eqb c LF
       then match t with d :: _ => negb (isSpace d) | [] => false end
       else true)
      && noBlankAfterLF t
  end.

(** A profile with nothing to show below the header: no name parts, no
    detail, no contact and no about text (each absent or empty). *)
Definition headerOnly (p : profile) : Prop :=
  truthyOpt (firstName p) = false /\ truthyOpt (lastName p) = false
  /\ truthyOpt (jobTitle p) = false /\ truthyOpt (timeZone p) = false
  /\ truthyOpt (email p) = false /\ truthyOpt (website p) = false
  /\ truthyOpt (about p) = false /\ truthyOpt (bio p) = false.

(** In [s] a line feed is last or a non-whitespace code unit follows it. *)
Fixpoint lineFeedsTight (s : jsstring) : bool :=
  match s with
  | [] => true
  | c :: t =>
      (if N.eqb c LF
       then match t with d :: _ => negb (isSpace d) | [] => true end
       else true)
      && lineFeedsTight t
  end.

(** In [s] every escape introducer starts an escape sequence: the
    pattern of [stripAnsi] matches at each of them. *)
Fixpoint introducersStart (s : jsstring) : Prop :=
  match s with
  | [] => True
  | c :: t =>
      (isIntroducer c = true -> exec reAnsi (None, s) <> None)
      /\ introducersStart t
  end.

(** Text styled with SGR sequences: code units other than the escape
    introducers, and sequences of ESC, a bracket, one to four digits and the
    letter m. *)
Inductive styledText : jsstring -> Prop :=
| styled_nil : styledText []
| styled_unit c s :
    isIntroducer c = false -> styledText s -> styledText (c :: s)
| styled_sgr ds s :
    ds <> [] -> length ds <= 4 -> Forall (fun x => isDigit x = true) ds ->
    styledText s -> styledText (ESC :: cu "[" :: ds ++ cu "m" :: s).

(** The steps of [clean] as the spec words them, each as a function on the
    code units that does not go through the matcher; [replace_reBold],
    [replace_reQuote] and [replace_reBreak] below compare them with the
    [replace] calls of the code.  Removing the bold markers: every pair of
    asterisks goes, from the left. *)
Fixpoint removeBold (s : jsstring) : jsstring :=
  match s with
  | a :: ((b :: t) as tail) =>
      if (N.eqb (cu "*") a && N.eqb (cu "*") b)%bool
      then removeBold t
      else a :: removeBold tail
  | _ => s
  end.

(** Stripping the block-quote markers at line starts: at the start of the
    text and right after a line terminator, a [>] goes, with the one
    whitespace code unit that follows it if there is one (the space of the
    marker; a line terminator counts as whitespace here, as it does for the
    pattern of the code).  [lineStart] tells that the position is at the
    start of a line. *)
Fixpoint stripQuotes (lineStart : bool) (s : jsstring) : jsstring :=
  match s with
  | [] => []
  | c :: t =>
      if (lineStart && N.eqb (cu ">") c)%bool then
        match t with
        | d :: t' =>
            if isSpace d then stripQuotes (isLineTerminator d) t'
            else stripQuotes false t
        | [] => []
        end
      else c :: stripQuotes (isLineTerminator c) t
  end.

(** Collapsing the line breaks: a line feed, or a carriage return and a
    line feed, with all the whitespace that follows, becomes one line feed.
    [skipping] tells that the position is in the whitespace after a break. *)
Fixpoint collapseBreaks (skipping : bool) (s : jsstring) : jsstring :=
  match s with
  | [] => []
  | c :: t =>
      if (skipping && isSpace c)%bool then collapseBreaks true t
      else if ((N.eqb CR c
                && match t with d :: _ => N.eqb LF d | [] => false end)
               || N.eqb LF c)%bool
      then LF :: collapseBreaks true t
      else c :: collapseBreaks false t
  end.

(** The rows a terminal shows for a printed string: what the line feeds
    separate.  [cur] is the row in progress. *)
Fixpoint rowsFrom (cur : jsstring) (s : jsstring) : list jsstring :=
  match s with
  | [] => [cur]
  | c :: t => if N.eqb c LF then cur :: rowsFrom [] t
              else rowsFrom (cur ++ [c]) t
  end.

Definition printedRows (s : jsstring) : list jsstring := rowsFrom [] s.

(** A string without line feed. *)
Definition noLF (s : jsstring) : Prop := Forall (fun c => c <> LF) s.

(** A field that is absent or has no line feed. *)
Definition fieldNoLF (o : option jsstring) : Prop :=
  match o with Some s => noLF s | None => True end.

(** A profile whose header, name, detail and contact fields have no line
    feed in them. *)
Definition singleLineFields (p : profile) : Prop :=
  Forall fieldNoLF
         [displayName p; username p; pronouns p; firstName p; lastName p;
          jobTitle p; timeZone p; email p; website p].

(** An ASCII string: every code unit is below 128. *)
Definition isAscii (s : jsstring) : Prop := Forall (fun c => (c < 128)%N) s.

(* ================================================================== *)
(** ** Theory of the matcher *)

Module RegexFacts.

Lemma flat_map_after_map (A B C : Type) (h : A -> B) (k : B -> list C)
      (l : list A) :
  flat_map k (map h l) = flat_map (fun a => k (h a)) l.
Proof.
  induction l as [|a l IH]; simpl; [reflexivity|]. now rewrite IH.
Qed.

Lemma map_flat_map (A B C : Type) (f : A -> list B) (g : B -> C) (l : list A) :
  map g (flat_map f l) = flat_map (fun a => map g (f a)) l.
Proof.
  induction l as [|a l IH]; simpl; [reflexivity|].
  now rewrite map_app, IH.
Qed.

Lemma rep_shrinking step lo hi :
  shrinking step -> forall st st',
  In st' (rep step lo hi st) -> length (rest st') <= length (rest st).
Proof.
  intros Hs. revert lo. induction hi as [|hi IH]; intros lo st st'; simpl.
  - destruct (Nat.eqb lo 0); simpl; [intros [<-|[]]; lia | intros []].
  - rewrite in_app_iff, in_flat_map. intros [[x [Hx Hin]]|Hin].
    + destruct (Nat.eqb lo 0 && _)%bool; [destruct Hin|].
      apply IH in Hin. apply Hs in Hx. lia.
    + destruct (Nat.eqb lo 0); simpl in Hin; [destruct Hin as [<-|[]]; lia|destruct Hin].
Qed.

Lemma matches_shrinking r : shrinking (matches r).
Proof.
  induction r as [|p|a IHa b IHb|a IHa b IHb|lo hi a IHa|]; intros st st'; simpl.
  - intros [<-|[]]; lia.
  - destruct st as [q s]; simpl. destruct s as [|c t]; [intros []|].
    destruct (p c); [intros [<-|[]]; simpl; lia|intros []].
  - rewrite in_flat_map. intros [x [Hx Hin]].
    apply IHa in Hx. apply IHb in Hin. lia.
  - rewrite in_app_iff. intros [H|H]; [apply IHa in H|apply IHb in H]; lia.
  - apply rep_shrinking. exact IHa.
  - destruct (atLineStart st); [intros [<-|[]]; lia|intros []].
Qed.

Lemma flat_map_ext_in (A B : Type) (f g : A -> list B) (l : list A) :
  (forall a, In a l -> f a = g a) -> flat_map f l = flat_map g l.
Proof.
  induction l as [|a l IH]; simpl; intros H; [reflexivity|].
  rewrite H by (left; reflexivity). f_equal.
  apply IH. intros b Hb. apply H. right; exact Hb.
Qed.

Lemma flat_map_nil (A B : Type) (l : list A) :
  flat_map (fun _ : A => @nil B) l = [].
Proof. induction l; simpl; auto. Qed.

(** Once the bound of a quantifier covers the minimum and the input, more
    of it changes nothing. *)
Lemma rep_exhausted step hi st :
  shrinking step -> length (rest st) = 0 -> rep step 0 hi st = [st].
Proof.
  intros Hs H0. destruct hi as [|hi]; simpl; [reflexivity|].
  rewrite flat_map_ext_in with (g := fun _ => []), flat_map_nil; [reflexivity|].
  intros st' Hin. apply Hs in Hin.
  replace (length (rest st') =? length (rest st)) with true; [reflexivity|].
  symmetry. apply Nat.eqb_eq. lia.
Qed.

Lemma rep_bound step :
  shrinking step -> forall hi hi' lo st,
  lo + length (rest st) <= hi -> lo + length (rest st) <= hi' ->
  rep step lo hi st = rep step lo hi' st.
Proof.
  intros Hs. induction hi as [|hi IH]; intros hi' lo st H H'.
  - assert (lo = 0) by lia. subst lo.
    rewrite !rep_exhausted by (auto; lia). reflexivity.
  - destruct hi' as [|hi'].
    + assert (lo = 0) by lia. subst lo.
      rewrite !rep_exhausted by (auto; lia). reflexivity.
    + simpl. f_equal. apply flat_map_ext_in. intros st' Hin.
      apply Hs in Hin.
      destruct (Nat.eqb_spec lo 0) as [->|Hlo]; simpl.
      * destruct (Nat.eqb_spec (length (rest st')) (length (rest st)));
          [reflexivity|]. apply IH; simpl; lia.
      * apply IH; lia.
Qed.

(** *** Appending inert input *)

Lemma rep_extend step suf :
  (forall st, step (extend suf st) = map (extend suf) (step st)) ->
  forall hi lo st,
  rep step lo hi (extend suf st) = map (extend suf) (rep step lo hi st).
Proof.
  intros Hstep. induction hi as [|hi IH]; intros lo st; simpl.
  - destruct (Nat.eqb lo 0); reflexivity.
  - rewrite map_app, Hstep, map_flat_map. f_equal.
    + rewrite flat_map_after_map. apply flat_map_ext_in.
      intros st' _. simpl. rewrite !length_app.
      replace (length (rest st') + length suf =? length (rest st) + length suf)
        with (length (rest st') =? length (rest st)).
      * destruct (_ && _)%bool; [reflexivity|]. apply IH.
      * destruct (Nat.eqb_spec (length (rest st')) (length (rest st)));
          symmetry; [apply Nat.eqb_eq|apply Nat.eqb_neq]; lia.
    + destruct (Nat.eqb lo 0); reflexivity.
Qed.

(** Matching sees nothing of a suffix that starts with an inert code
    unit: the results are the same, with the suffix still to come. *)
Lemma matches_extend r c t :
  inert r c = true ->
  forall st, matches r (extend (c :: t) st) = map (extend (c :: t)) (matches r st).
Proof.
  induction r as [|p|a IHa b IHb|a IHa b IHb|lo hi a IHa|]; simpl; intros Hi st.
  - reflexivity.
  - destruct st as [q [|x u]]; simpl.
    + apply negb_true_iff in Hi. now rewrite Hi.
    + destruct (p x); reflexivity.
  - apply andb_true_iff in Hi. destruct Hi as [Ha Hb].
    rewrite IHa, map_flat_map by assumption.
    rewrite flat_map_after_map. apply flat_map_ext_in. intros; now apply IHb.
  - apply andb_true_iff in Hi. destruct Hi as [Ha Hb].
    now rewrite map_app, IHa, IHb.
  - destruct hi as [n|].
    + apply rep_extend. now apply IHa.
    + rewrite rep_extend by (now apply IHa).
      f_equal. apply rep_bound; [apply matches_shrinking| |lia].
      unfold extend, rest; simpl. rewrite length_app. lia.
  - unfold atLineStart; simpl. destruct (fst st) as [q|]; [destruct (isLineTerminator q)|]; reflexivity.
Qed.

(** *** Independence of what precedes the position *)

Lemma Forall2_flat_map (A B : Type) (R : A -> A -> Prop) (Q : B -> B -> Prop)
      (f g : A -> list B) (l1 l2 : list A) :
  Forall2 R l1 l2 ->
  (forall a b, R a b -> Forall2 Q (f a) (g b)) ->
  Forall2 Q (flat_map f l1) (flat_map g l2).
Proof.
  intros H Hfg. induction H; simpl; [constructor|].
  apply Forall2_app; auto.
Qed.

Lemma rep_sameRest step :
  (forall a b, sameRest a b -> Forall2 sameRest (step a) (step b)) ->
  forall hi lo a b, sameRest a b ->
  Forall2 sameRest (rep step lo hi a) (rep step lo hi b).
Proof.
  intros Hstep. induction hi as [|hi IH]; intros lo a b Hab; simpl.
  - destruct (Nat.eqb lo 0); repeat constructor; exact Hab.
  - apply Forall2_app.
    + apply Forall2_flat_map with (R := sameRest); [now apply Hstep|].
      intros a' b' Hab'. red in Hab, Hab'. rewrite Hab, Hab'.
      destruct (_ && _)%bool; [constructor|]. now apply IH.
    + destruct (Nat.eqb lo 0); repeat constructor; exact Hab.
Qed.

Lemma matches_sameRest r :
  bolFree r = true ->
  forall a b, sameRest a b -> Forall2 sameRest (matches r a) (matches r b).
Proof.
  induction r as [|p|x IHx y IHy|x IHx y IHy|lo hi x IHx|]; simpl;
    intros Hb a b Hab.
  - repeat constructor; exact Hab.
  - red in Hab. rewrite Hab. destruct (rest b) as [|c t]; [constructor|].
    destruct (p c); repeat constructor.
  - apply andb_true_iff in Hb. destruct Hb.
    apply Forall2_flat_map with (R := sameRest); auto.
  - apply andb_true_iff in Hb. destruct Hb. apply Forall2_app; auto.
  - replace (length (rest a)) with (length (rest b)) by (now rewrite Hab).
    apply rep_sameRest; auto.
  - discriminate.
Qed.

Lemma exec_prev r p q s :
  bolFree r = true -> exec r (p, s) = exec r (q, s).
Proof.
  intros Hb. unfold exec.
  pose proof (matches_sameRest r Hb (p, s) (q, s) eq_refl) as H.
  inversion H as [|a b la lb Hab Hl]; [reflexivity|].
  red in Hab. simpl in *. now rewrite Hab.
Qed.

Lemma replaceFrom_prev r by_ skip p q s :
  bolFree r = true ->
  replaceFrom r by_ skip p s = replaceFrom r by_ skip q s.
Proof.
  intros Hb. destruct s as [|c t]; destruct skip as [|k]; simpl;
    try reflexivity; now rewrite (exec_prev r p q _ Hb).
Qed.

(** *** Properties of [exec], [replaceAll] and [split] *)

Lemma exec_le r st n : exec r st = Some n -> n <= length (rest st).
Proof.
  unfold exec. destruct (matches r st); [discriminate|].
  intros [= <-]. lia.
Qed.

Lemma exec_extend r c t p s :
  inert r c = true -> exec r (p, s ++ c :: t) = exec r (p, s).
Proof.
  intros Hi. unfold exec.
  change (p, s ++ c :: t) with (extend (c :: t) (p, s)).
  rewrite matches_extend by assumption.
  destruct (matches r (p, s)) as [|st' l] eqn:E; [reflexivity|].
  assert (length (rest st') <= length s) as Hle.
  { apply (matches_shrinking r (p, s)). rewrite E. now left. }
  simpl. rewrite !length_app. f_equal. lia.
Qed.

(** A pattern that starts with a class finds nothing where the class
    does not. *)
Lemma exec_Seq_Chr_None pc r p s :
  match s with c :: _ => pc c = false | [] => True end ->
  exec (Seq (Chr pc) r) (p, s) = None.
Proof.
  unfold exec. cbn [matches rest snd]. destruct s as [|c t]; [reflexivity|].
  intros ->. reflexivity.
Qed.

Lemma dead_tail r c t : dead r (c :: t) -> dead r t.
Proof. intros H p k. exact (H p (S k)). Qed.

Lemma replaceFrom_dead r by_ s :
  dead r s -> forall p, replaceFrom r by_ 0 p s = s.
Proof.
  induction s as [|c t IH]; intros Hd p; cbn [replaceFrom];
    pose proof (Hd p 0) as E; cbn [skipn] in E; rewrite E.
  - reflexivity.
  - f_equal. apply IH. eapply dead_tail; eauto.
Qed.

Lemma replaceFrom_extend r by_ c t :
  inert r c = true -> dead r (c :: t) ->
  forall s skip p, skip <= length s ->
  replaceFrom r by_ skip p (s ++ c :: t)
  = replaceFrom r by_ skip p s ++ c :: t.
Proof.
  intros Hi Hd. induction s as [|x u IH]; intros skip p Hskip.
  - assert (skip = 0) by (simpl in Hskip; lia). subst skip.
    rewrite app_nil_l, replaceFrom_dead by assumption.
    pose proof (exec_extend r c t p [] Hi) as E. rewrite app_nil_l in E.
    pose proof (Hd p 0) as E0. cbn [skipn] in E0. rewrite E0 in E.
    cbn [replaceFrom]. now rewrite <- E.
  - destruct skip as [|k]; cbn [replaceFrom app].
    + pose proof (exec_extend r c t p (x :: u) Hi) as E. cbn [app] in E.
      rewrite E.
      destruct (exec r (p, x :: u)) as [[|n]|] eqn:En.
      * rewrite IH by lia. now rewrite <- app_assoc.
      * apply exec_le in En. simpl in En.
        rewrite IH by lia. now rewrite <- app_assoc.
      * now rewrite IH by lia.
    + apply IH. simpl in Hskip. lia.
Qed.

(** Deleting matches never makes a string longer. *)
Lemma replaceFrom_nil_length r s :
  forall skip p, length (replaceFrom r [] skip p s) <= length s.
Proof.
  induction s as [|c t IH]; intros skip p.
  - destruct skip; cbn [replaceFrom];
      [destruct (exec r (p, [])) as [[|]|]|]; simpl; lia.
  - destruct skip as [|k]; cbn [replaceFrom].
    + destruct (exec r (p, c :: t)) as [[|n]|]; cbn [app length].
      * specialize (IH 0 (Some c)). lia.
      * specialize (IH n (Some c)). lia.
      * specialize (IH 0 (Some c)). lia.
    + specialize (IH k (Some c)). cbn [length]. lia.
Qed.

End RegexFacts.

Import RegexFacts.

(* ================================================================== *)
(** ** Facts about [stripAnsi] *)

Lemma plain_skipn s k : plain s -> plain (skipn k s).
Proof.
  revert s. induction k as [|k IH]; intros s H; [exact H|].
  destruct s as [|c t]; [constructor|]. simpl. apply IH. now inversion H.
Qed.

Lemma dead_reAnsi s : plain s -> dead reAnsi s.
Proof.
  intros H p k. apply exec_Seq_Chr_None.
  apply (plain_skipn s k) in H. destruct (skipn k s); [exact I|].
  now inversion H.
Qed.

Lemma stripAnsi_plain s : plain s -> stripAnsi s = s.
Proof. intros H. apply replaceFrom_dead. now apply dead_reAnsi. Qed.

Lemma stripAnsi_length s : length (stripAnsi s) <= length s.
Proof. apply replaceFrom_nil_length. Qed.

Lemma visibleLength_le s : (visibleLength s <= Z.of_nat (length s))%Z.
Proof. unfold visibleLength. pose proof (stripAnsi_length s). lia. Qed.

Lemma replaceFrom_reAnsi_prefix pre y :
  plain pre -> forall p,
  replaceFrom reAnsi [] 0 p (pre ++ y) = pre ++ replaceFrom reAnsi [] 0 None y.
Proof.
  induction pre as [|c t IH]; intros H p.
  - apply replaceFrom_prev. reflexivity.
  - inversion H as [|? ? Hc Ht]; subst.
    cbn [app replaceFrom].
    replace (exec reAnsi (p, c :: t ++ y)) with (@None nat).
    + f_equal. now apply IH.
    + symmetry. apply exec_Seq_Chr_None. exact Hc.
Qed.

(** Stripping leaves a plain frame around a string alone, and strips the
    string as if the frame were not there. *)
Lemma stripAnsi_frame pre x c t :
  plain pre -> plain (c :: t) -> inert reAnsi c = true ->
  stripAnsi (pre ++ x ++ c :: t) = pre ++ stripAnsi x ++ c :: t.
Proof.
  intros Hpre Hsuf Hc. unfold stripAnsi, replaceAll.
  rewrite replaceFrom_reAnsi_prefix by assumption. f_equal.
  apply replaceFrom_extend; [assumption|now apply dead_reAnsi|lia].
Qed.

Lemma plain_repeat_SP n : plain (repeatStr [SP] n).
Proof. induction n; simpl; constructor; auto. Qed.

Lemma length_repeat_SP n : length (repeatStr [SP] n) = n.
Proof. induction n; simpl; auto. Qed.

Lemma length_slice_le s n :
  (0 <= n)%Z -> (Z.of_nat (length (slice s 0 n)) <= n)%Z.
Proof.
  intros Hn. unfold slice, sliceIndex.
  replace (0 <? 0)%Z with false by reflexivity.
  destruct (Z.ltb_spec n 0); [lia|].
  rewrite length_firstn. lia.
Qed.

Lemma boxRaw_fits text width :
  (7 <= width)%Z ->
  (visibleLength (boxRaw text width) <= innerWidth width)%Z.
Proof.
  intros Hw. unfold boxRaw.
  set (content := match text with Some t => t | None => [] end).
  destruct (Z.gtb_spec (visibleLength content) (innerWidth width)) as [Hgt|Hle];
    [|exact Hle].
  etransitivity; [apply visibleLength_le|].
  rewrite length_app. simpl.
  assert (1 <= innerWidth width)%Z
    by (unfold innerWidth, CONTENT_MARGIN; lia).
  pose proof (length_slice_le (stripAnsi content) (innerWidth width - 1)).
  lia.
Qed.

Lemma visibleLength_boxLine text width :
  visibleLength (boxLine text width)
  = (6 + visibleLength (boxRaw text width) + boxPadding text width)%Z.
Proof.
  unfold boxLine.
  change (repeatStr [SP] (Z.to_nat CONTENT_MARGIN)) with [SP].
  cbn [app].
  set (raw := boxRaw text width).
  set (n := Z.to_nat (boxPadding text width)).
  assert (exists t, repeatStr [SP] n ++ [SP; SP; BOX_V] = SP :: t
                    /\ plain (SP :: t) /\ length t = n + 2) as (t & Et & Pt & Lt).
  { destruct n as [|k].
    - exists [SP; BOX_V]. repeat split. repeat constructor.
    - exists (repeatStr [SP] k ++ [SP; SP; BOX_V]). repeat split.
      + constructor; [reflexivity|]. apply Forall_app. split.
        * apply plain_repeat_SP.
        * repeat constructor.
      + rewrite length_app, length_repeat_SP. simpl. lia. }
  unfold visibleLength.
  change (BOX_V :: SP :: SP :: raw ++ repeatStr [SP] n ++ [SP; SP; BOX_V])
    with ([BOX_V; SP; SP] ++ raw ++ repeatStr [SP] n ++ [SP; SP; BOX_V]).
  rewrite Et, stripAnsi_frame; [|repeat constructor|exact Pt|reflexivity].
  rewrite !length_app. cbn [length]. rewrite Lt.
  assert (0 <= boxPadding text width)%Z by (unfold boxPadding; lia).
  subst n. lia.
Qed.

(* ================================================================== *)
(** ** Whitespace-delimited words *)

Lemma spanLen_le p s : spanLen p s <= length s.
Proof. induction s as [|c t IH]; simpl; [lia|]. destruct (p c); lia. Qed.

Lemma rep_S step lo hi st :
  rep step lo (S hi) st
  = flat_map
      (fun st' =>
         if (Nat.eqb lo 0 && Nat.eqb (length (rest st')) (length (rest st)))%bool
         then []
         else rep step (Nat.pred lo) hi st')
      (step st)
    ++ (if Nat.eqb lo 0 then [st] else []).
Proof. reflexivity. Qed.

Lemma matches_Chr pc q s :
  matches (Chr pc) (q, s)
  = match s with
    | c :: t => if pc c then [(Some c, t)] else []
    | [] => []
    end.
Proof. reflexivity. Qed.

Lemma rep_Chr_head pc hi :
  forall s q, exists q' l,
  rep (matches (Chr pc)) 0 hi (q, s)
  = (q', skipn (Nat.min hi (spanLen pc s)) s) :: l.
Proof.
  induction hi as [|hi IH]; intros s q.
  - exists q, []. reflexivity.
  - rewrite rep_S, matches_Chr. destruct s as [|c t].
    + exists q, []. reflexivity.
    + cbn [spanLen]. destruct (pc c) eqn:E.
      * cbn [flat_map Nat.eqb andb length rest snd].
        replace (length t =? S (length t)) with false
          by (symmetry; apply Nat.eqb_neq; lia).
        change (Nat.pred 0) with 0.
        destruct (IH t (Some c)) as (q' & l & ->).
        exists q', ((l ++ []) ++ [(q, c :: t)]). reflexivity.
      * exists q, []. reflexivity.
Qed.

Lemma exec_reSpaces p s :
  exec reSpaces (p, s)
  = match s with
    | c :: t => if isSpace c then Some (S (spanLen isSpace t)) else None
    | [] => None
    end.
Proof.
  unfold exec, reSpaces, plus.
  change (matches (Rep 1 None (Chr isSpace)) (p, s))
    with (rep (matches (Chr isSpace)) 1 (S (length s)) (p, s)).
  rewrite rep_S, matches_Chr. destruct s as [|c t]; [reflexivity|].
  destruct (isSpace c); [|reflexivity].
  cbn [flat_map Nat.eqb andb]. change (Nat.pred 1) with 0.
  destruct (rep_Chr_head isSpace (length (c :: t)) t (Some c))
    as (q' & l & ->).
  cbn [app rest snd]. f_equal.
  pose proof (spanLen_le isSpace t).
  rewrite Nat.min_r by (cbn [length]; lia).
  rewrite length_skipn. cbn [length]. lia.
Qed.

(** [split] on runs of whitespace gives [pieces]. *)
Lemma splitFrom_reSpaces s :
  forall skip p cur,
  (skip = 0 -> splitFrom reSpaces 0 p cur s = pieces false cur s)
  /\ (skip = spanLen isSpace s ->
      splitFrom reSpaces skip p [] s = pieces true [] s).
Proof.
  induction s as [|c t IH]; intros skip p cur.
  - split; [reflexivity|]. intros ->. reflexivity.
  - split.
    + intros _. cbn [splitFrom pieces]. rewrite exec_reSpaces.
      destruct (isSpace c).
      * f_equal. now apply (IH (spanLen isSpace t) (Some c) []).
      * now apply (IH 0 (Some c) (cur ++ [c])).
    + cbn [spanLen pieces]. destruct (isSpace c) eqn:E; intros ->.
      * cbn [splitFrom]. now apply (IH (spanLen isSpace t) (Some c) []).
      * cbn [splitFrom]. rewrite exec_reSpaces, E.
        now apply (IH 0 (Some c) ([] ++ [c])).
Qed.

Lemma pieces_wordsFrom s :
  forall cur,
  filter truthy (pieces false cur s) = wordsFrom cur s
  /\ filter truthy (pieces true [] s) = wordsFrom [] s.
Proof.
  induction s as [|c t IH]; intros cur.
  - split; cbn [pieces wordsFrom filter]; [destruct (truthy cur)|]; reflexivity.
  - cbn [pieces wordsFrom]. destruct (isSpace c).
    + split.
      * cbn [filter]. rewrite (proj2 (IH [])). reflexivity.
      * apply (IH []).
    + split; apply IH.
Qed.

Lemma pieces_truthy s :
  forall gap cur,
  (gap = false -> cur <> []) -> (s = [] -> gap = false) ->
  (s <> [] -> lastNonSpace s = true) ->
  Forall (fun x => truthy x = true) (pieces gap cur s).
Proof.
  induction s as [|c t IH]; intros gap cur Hcur Hnil Hlast.
  - cbn [pieces]. constructor; [|constructor].
    specialize (Hcur (Hnil eq_refl)). now destruct cur.
  - assert (lastNonSpace (c :: t) = true) as Hl by (apply Hlast; discriminate).
    cbn [pieces]. destruct (isSpace c) eqn:E.
    + assert (t <> []) as Ht.
      { intros ->. cbn in Hl. rewrite E in Hl. discriminate. }
      assert (lastNonSpace t = true) as Hlt by (destruct t; [easy|exact Hl]).
      destruct gap.
      * apply IH; [discriminate|easy|auto].
      * constructor.
        -- specialize (Hcur eq_refl). now destruct cur.
        -- apply IH; [discriminate|easy|auto].
    + apply IH.
      * intros _. now destruct cur.
      * reflexivity.
      * intros Ht. destruct t; [easy|exact Hl].
Qed.

Lemma filter_all (A : Type) (f : A -> bool) (l : list A) :
  Forall (fun x => f x = true) l -> filter f l = l.
Proof.
  induction 1 as [|x l Hx _ IH]; simpl; [reflexivity|].
  now rewrite Hx, IH.
Qed.

(** On a string that starts and ends with a word, [split] on whitespace
    gives exactly the words. *)
Lemma split_reSpaces_words c u :
  isSpace c = false -> lastNonSpace (c :: u) = true ->
  split reSpaces (c :: u) = wordsOf (c :: u).
Proof.
  intros Hc Hl. unfold split, wordsOf.
  rewrite (proj1 (splitFrom_reSpaces (c :: u) 0 None []) eq_refl).
  rewrite <- (proj1 (pieces_wordsFrom (c :: u) [])).
  symmetry. apply filter_all.
  cbn [pieces]. rewrite Hc. apply pieces_truthy.
  - discriminate.
  - reflexivity.
  - intros Hu. destruct u; [easy|exact Hl].
Qed.

(** *** Words and trimming *)

Lemma wordsFrom_allSpace sp :
  allSpace sp -> forall cur,
  wordsFrom cur sp = if truthy cur then [cur] else [].
Proof.
  induction 1 as [|c t Hc _ IH]; intros cur; [reflexivity|].
  cbn [wordsFrom]. rewrite Hc, (IH []). reflexivity.
Qed.

Lemma wordsFrom_app_allSpace a sp :
  allSpace sp -> forall cur, wordsFrom cur (a ++ sp) = wordsFrom cur a.
Proof.
  intros Hsp. induction a as [|c t IH]; intros cur.
  - now apply wordsFrom_allSpace.
  - cbn [app wordsFrom]. now rewrite !IH.
Qed.

Lemma wordsFrom_app_space x c t :
  isSpace c = true -> forall cur,
  wordsFrom cur (x ++ c :: t) = wordsFrom cur x ++ wordsOf t.
Proof.
  intros Hc. induction x as [|d x IH]; intros cur.
  - cbn [app wordsFrom]. rewrite Hc. unfold wordsOf.
    destruct (truthy cur); reflexivity.
  - cbn [app wordsFrom]. rewrite !IH.
    destruct (isSpace d); [destruct (truthy cur)|]; reflexivity.
Qed.

Lemma wordsOf_dropWhile s : wordsOf (dropWhile isSpace s) = wordsOf s.
Proof.
  unfold wordsOf. induction s as [|c t IH]; [reflexivity|].
  cbn [dropWhile]. destruct (isSpace c) eqn:E; [|reflexivity].
  cbn [wordsFrom truthy]. rewrite E. exact IH.
Qed.

Lemma dropWhile_split p s :
  exists sp, s = sp ++ dropWhile p s /\ Forall (fun c => p c = true) sp.
Proof.
  induction s as [|c t (sp & E & H)]; [exists []; split; [reflexivity|constructor]|].
  cbn [dropWhile]. destruct (p c) eqn:Ec.
  - exists (c :: sp). split; [simpl; now f_equal|now constructor].
  - exists []. split; [reflexivity|constructor].
Qed.

Lemma dropWhile_head p s c t : dropWhile p s = c :: t -> p c = false.
Proof.
  induction s as [|d s IH]; [discriminate|]. cbn [dropWhile].
  destruct (p d) eqn:E; [exact IH|]. now intros [= <- _].
Qed.

Lemma trimEnd_split s :
  exists sp, s = trimEnd s ++ sp /\ allSpace sp.
Proof.
  unfold trimEnd. destruct (dropWhile_split isSpace (rev s)) as (sp & E & H).
  exists (rev sp). split.
  - rewrite <- rev_app_distr, <- E. now rewrite rev_involutive.
  - apply Forall_rev. exact H.
Qed.

Lemma lastNonSpace_snoc l d : lastNonSpace (l ++ [d]) = negb (isSpace d).
Proof.
  induction l as [|c l IH]; [reflexivity|].
  cbn [app lastNonSpace]. destruct (l ++ [d]) eqn:E; [now destruct l|exact IH].
Qed.

Lemma trimEnd_last s : trimEnd s <> [] -> lastNonSpace (trimEnd s) = true.
Proof.
  unfold trimEnd. destruct (dropWhile isSpace (rev s)) as [|d z] eqn:E;
    [easy|].
  intros _. cbn [rev]. rewrite lastNonSpace_snoc.
  apply dropWhile_head in E. now rewrite E.
Qed.

Lemma wordsOf_trim s : wordsOf (trim s) = wordsOf s.
Proof.
  unfold trim, trimStart. rewrite <- (wordsOf_dropWhile s).
  destruct (trimEnd_split (dropWhile isSpace s)) as (sp & E & H).
  rewrite E at 2. unfold wordsOf. now rewrite wordsFrom_app_allSpace.
Qed.

(** A trimmed string is empty or starts and ends with a word. *)
Lemma trim_shape s :
  trim s = [] \/
  exists c u, trim s = c :: u /\ isSpace c = false
              /\ lastNonSpace (c :: u) = true.
Proof.
  destruct (trim s) as [|c u] eqn:E; [now left|right].
  exists c, u. split; [reflexivity|]. split.
  - unfold trim, trimStart in E.
    destruct (trimEnd_split (dropWhile isSpace s)) as (sp & E' & _).
    rewrite E in E'. simpl in E'. now apply dropWhile_head in E'.
  - rewrite <- E. apply trimEnd_last. unfold trim in E. now rewrite E.
Qed.

Lemma split_reSpaces_trim s :
  trim s <> [] -> split reSpaces (trim s) = wordsOf s.
Proof.
  intros Hne. destruct (trim_shape s) as [E|(c & u & E & Hc & Hl)]; [easy|].
  rewrite <- wordsOf_trim, E. now apply split_reSpaces_words.
Qed.

(** *** Splitting on whitespace separators keeps the words *)

Lemma words_splitFrom r :
  separator r -> forall s skip p cur,
  (skip = 0 \/ cur = []) -> allSpace (firstn skip s) ->
  flat_map wordsOf (splitFrom r skip p cur s) = wordsOf (cur ++ s).
Proof.
  intros Hsep. induction s as [|c t IH]; intros skip p cur Hmode Hskip.
  - destruct skip; cbn [splitFrom flat_map]; now rewrite !app_nil_r.
  - destruct skip as [|k].
    + cbn [splitFrom]. destruct (exec r (p, c :: t)) as [[|n]|] eqn:E.
      * apply Hsep in E. lia.
      * apply Hsep in E. destruct E as [_ E]. cbn [firstn] in E.
        inversion E as [|? ? Hc Ht]; subst.
        cbn [flat_map]. rewrite IH by auto.
        unfold wordsOf at 3. now rewrite wordsFrom_app_space.
      * rewrite IH by (auto; constructor). now rewrite <- app_assoc.
    + destruct Hmode as [Hm|Hm]; [discriminate|subst cur].
      cbn [firstn] in Hskip. inversion Hskip as [|? ? Hc Ht]; subst.
      cbn [splitFrom]. rewrite IH by auto.
      unfold wordsOf. cbn [app wordsFrom truthy]. now rewrite Hc.
Qed.

Lemma words_split r s :
  separator r -> flat_map wordsOf (split r s) = wordsOf s.
Proof.
  intros Hsep. destruct s as [|c t].
  - unfold split. destruct (exec r (None, [])) eqn:E; [|reflexivity].
    apply Hsep in E. reflexivity.
  - unfold split. rewrite words_splitFrom; auto. constructor.
Qed.

Lemma matches_Seq a b st :
  matches (Seq a b) st = flat_map (matches b) (matches a st).
Proof. reflexivity. Qed.

Lemma matches_opt_Chr (a : char -> bool) p s :
  matches (opt (Chr a)) (p, s)
  = match s with
    | c :: t => if a c then [(Some c, t); (p, s)] else [(p, s)]
    | [] => [(p, s)]
    end.
Proof.
  unfold opt.
  change (matches (Rep 0 (Some 1) (Chr a)) (p, s))
    with (rep (matches (Chr a)) 0 1 (p, s)).
  rewrite rep_S, matches_Chr. destruct s as [|c t]; [reflexivity|].
  destruct (a c); [|reflexivity].
  cbn [flat_map Nat.eqb andb rest snd length].
  replace (length t =? S (length t)) with false
    by (symmetry; apply Nat.eqb_neq; lia).
  reflexivity.
Qed.

Lemma exec_opt_Chr_Chr (a b : char -> bool) p s :
  exec (Seq (opt (Chr a)) (Chr b)) (p, s)
  = match s with
    | c :: t =>
        if (a c && match t with d :: _ => b d | [] => false end)%bool
        then Some 2
        else if b c then Some 1 else None
    | [] => None
    end.
Proof.
  unfold exec. rewrite matches_Seq, matches_opt_Chr.
  destruct s as [|c t]; [reflexivity|].
  destruct (a c); cbn [flat_map andb]; rewrite ?matches_Chr.
  - destruct t as [|d t].
    + cbn [app]. destruct (b c); cbn [app rest snd length]; reflexivity.
    + destruct (b d); cbn [app rest snd length].
      * f_equal. lia.
      * destruct (b c); cbn [app rest snd length]; [f_equal; lia|reflexivity].
  - destruct (b c); cbn [app rest snd length]; [f_equal; lia|reflexivity].
Qed.

Lemma exec_reNewline p s :
  exec reNewline (p, s)
  = match s with
    | c :: t =>
        if (N.eqb CR c && match t with d :: _ => N.eqb LF d | [] => false end)%bool
        then Some 2
        else if N.eqb LF c then Some 1 else None
    | [] => None
    end.
Proof. apply exec_opt_Chr_Chr. Qed.

Lemma separator_reNewline : separator reNewline.
Proof.
  intros p s n. rewrite exec_reNewline. destruct s as [|c t]; [discriminate|].
  destruct (N.eqb_spec CR c) as [<-|]; cbn [andb].
  - destruct t as [|d t]; [cbn; discriminate|].
    destruct (N.eqb_spec LF d) as [<-|].
    + intros [= <-]. split; [lia|]. repeat constructor.
    + cbn. discriminate.
  - destruct (N.eqb_spec LF c) as [<-|]; [|discriminate].
    intros [= <-]. split; [lia|]. repeat constructor.
Qed.

(** The words the wrapper works on, paragraph by paragraph, are the
    whitespace-delimited words of the text. *)
Lemma paragraphs_words text :
  flat_map (split reSpaces) (paragraphs text) = wordsOf text.
Proof.
  unfold paragraphs. rewrite <- (words_split reNewline text separator_reNewline).
  induction (split reNewline text) as [|x l IH]; [reflexivity|].
  cbn [map filter flat_map]. destruct (trim x) as [|c u] eqn:E.
  - cbn [truthy]. rewrite IH, <- (wordsOf_trim x), E. reflexivity.
  - cbn [truthy flat_map]. rewrite IH, <- E. f_equal.
    apply split_reSpaces_trim. now rewrite E.
Qed.

Lemma paragraphs_trimmed text para :
  In para (paragraphs text) -> exists x, para = trim x /\ trim x <> [].
Proof.
  unfold paragraphs. rewrite filter_In, in_map_iff.
  intros [(x & <- & _) Ht]. exists x. split; [reflexivity|].
  now destruct (trim x).
Qed.

Lemma isWord_wordsFrom s :
  forall cur, Forall (fun c => isSpace c = false) cur ->
  Forall isWord (wordsFrom cur s).
Proof.
  induction s as [|c t IH]; intros cur Hcur; cbn [wordsFrom].
  - destruct cur; cbn [truthy]; constructor; [|constructor].
    split; [discriminate|exact Hcur].
  - destruct (isSpace c) eqn:E.
    + destruct cur as [|x cur]; cbn [truthy]; [apply IH; constructor|].
      constructor; [split; [discriminate|exact Hcur]|apply IH; constructor].
    + apply IH. apply Forall_app. split; [exact Hcur|].
      constructor; [exact E|constructor].
Qed.

Lemma isWord_wordsOf s : Forall isWord (wordsOf s).
Proof. apply isWord_wordsFrom. constructor. Qed.

(* ================================================================== *)
(** ** Styled strings *)

(** *** The reported match, step by step *)

Lemma firstly_exec r st st' :
  firstly r st st' ->
  exec r st = Some (length (rest st) - length (rest st')).
Proof. intros [l E]. unfold exec. now rewrite E. Qed.

Lemma firstly_Chr pc q c t :
  pc c = true -> firstly (Chr pc) (q, c :: t) (Some c, t).
Proof. intros H. exists []. cbn. now rewrite H. Qed.

Lemma firstly_Seq a b st st1 st2 :
  firstly a st st1 -> firstly b st1 st2 -> firstly (Seq a b) st st2.
Proof.
  intros [l1 E1] [l2 E2]. unfold firstly. rewrite matches_Seq, E1.
  cbn [flat_map].
  rewrite E2. eexists. reflexivity.
Qed.

Lemma spanLen_rep_Chr pc hi :
  forall lo s q, lo <= Nat.min hi (spanLen pc s) ->
  exists q' l,
    rep (matches (Chr pc)) lo hi (q, s)
    = (q', skipn (Nat.min hi (spanLen pc s)) s) :: l.
Proof.
  induction hi as [|hi IH]; intros lo s q Hlo.
  - assert (lo = 0) by lia. subst lo. exists q, []. reflexivity.
  - rewrite rep_S, matches_Chr. destruct s as [|c t].
    + assert (lo = 0) by (cbn in Hlo; lia). subst lo.
      exists q, []. reflexivity.
    + cbn [spanLen] in *. destruct (pc c) eqn:E.
      * cbn [flat_map rest snd length].
        replace (length t =? S (length t)) with false
          by (symmetry; apply Nat.eqb_neq; lia).
        rewrite andb_false_r.
        destruct (IH (Nat.pred lo) t (Some c)) as (q' & l & ->); [lia|].
        eexists q', _. reflexivity.
      * assert (lo = 0) by lia. subst lo. exists q, []. reflexivity.
Qed.

Lemma firstly_Rep_Chr pc lo hi q s :
  lo <= spanLen pc s -> lo <= hi ->
  exists q',
    firstly (Rep lo (Some hi) (Chr pc)) (q, s)
            (q', skipn (Nat.min hi (spanLen pc s)) s).
Proof.
  intros H1 H2.
  destruct (spanLen_rep_Chr pc hi lo s q) as (q' & l & E); [lia|].
  exists q', l. exact E.
Qed.

Lemma firstly_star_Chr pc q s :
  exists q', firstly (star (Chr pc)) (q, s) (q', skipn (spanLen pc s) s).
Proof.
  pose proof (spanLen_le pc s) as Hle.
  destruct (spanLen_rep_Chr pc (0 + length s) 0 s q) as (q' & l & E); [lia|].
  rewrite Nat.min_r in E by lia. exists q', l. exact E.
Qed.

Lemma firstly_opt r st st' :
  firstly r st st' -> length (rest st') < length (rest st) ->
  firstly (opt r) st st'.
Proof.
  intros [l E] Hlt. unfold firstly, opt.
  change (matches (Rep 0 (Some 1) r) st) with (rep (matches r) 0 1 st).
  rewrite rep_S, E. cbn [flat_map].
  replace (length (rest st') =? length (rest st)) with false
    by (symmetry; apply Nat.eqb_neq; lia).
  rewrite andb_false_r. cbn [rep Nat.eqb Nat.pred app].
  eexists. reflexivity.
Qed.

Lemma firstly_star_stop r st : matches r st = [] -> firstly (star r) st st.
Proof.
  intros E. unfold firstly, star.
  change (matches (Rep 0 None r) st)
    with (rep (matches r) 0 (0 + length (rest st)) st).
  destruct (0 + length (rest st)) as [|n]; [exists []; reflexivity|].
  rewrite rep_S, E. exists []. reflexivity.
Qed.

Lemma spanLen_app_stop pc u c t :
  Forall (fun x => pc x = true) u -> pc c = false ->
  spanLen pc (u ++ c :: t) = length u.
Proof.
  induction 1 as [|x u Hx _ IH]; intros Hc; cbn [app spanLen length].
  - now rewrite Hc.
  - rewrite Hx. f_equal. now apply IH.
Qed.

(** An SGR sequence: the introducer, a bracket, one to four digits and the
    letter m.  The pattern of [stripAnsi] matches exactly the sequence,
    whatever follows. *)
Lemma exec_reAnsi_sgr p ds t :
  ds <> [] -> length ds <= 4 -> Forall (fun x => isDigit x = true) ds ->
  exec reAnsi (p, ESC :: cu "[" :: ds ++ cu "m" :: t) = Some (3 + length ds).
Proof.
  intros Hne Hlen Hds.
  destruct ds as [|d ds']; [easy|]. set (ds := d :: ds') in *.
  assert (isDigit d = true) as Hd by now inversion Hds.
  assert (isIntermediate d = false) as Hdi.
  { unfold isDigit, inRange in Hd. apply andb_true_iff in Hd.
    destruct Hd as [H1 H2]. apply N.leb_le in H1, H2.
    unfold isIntermediate, oneOf. cbn [js list_ascii_of_string map existsb].
    repeat match goal with
           | |- (_ || _)%bool = false => apply orb_false_iff; split
           end; try reflexivity;
      apply N.eqb_neq; unfold cu; cbn; lia. }
  destruct (firstly_star_Chr isIntermediate (Some ESC)
              (cu "[" :: ds ++ cu "m" :: t)) as (q1 & F1).
  replace (spanLen isIntermediate (cu "[" :: ds ++ cu "m" :: t)) with 1 in F1
    by (subst ds; cbn [spanLen app]; now rewrite Hdi).
  cbn [skipn] in F1.
  destruct (firstly_Rep_Chr isDigit 1 4 q1 (ds ++ cu "m" :: t)) as (q2 & F2);
    [subst ds; cbn [spanLen app]; rewrite Hd; lia|lia|].
  rewrite (spanLen_app_stop isDigit ds (cu "m") t Hds eq_refl) in F2.
  rewrite Nat.min_r in F2 by lia.
  rewrite skipn_app, skipn_all, Nat.sub_diag in F2. cbn [app skipn] in F2.
  assert (firstly
            (opt (Seq (Rep 1 (Some 4) (Chr isDigit))
                      (star (Seq (lit (cu ";")) (Rep 0 (Some 4) (Chr isDigit))))))
            (q1, ds ++ cu "m" :: t) (q2, cu "m" :: t)) as F3.
  { apply firstly_opt.
    - eapply firstly_Seq; [exact F2|]. apply firstly_star_stop. reflexivity.
    - cbn [rest snd]. rewrite length_app. subst ds. cbn [length]. lia. }
  assert (firstly reAnsi (p, ESC :: cu "[" :: ds ++ cu "m" :: t)
                  (Some (cu "m"), t)) as F.
  { unfold reAnsi. eapply firstly_Seq; [now apply firstly_Chr|].
    eapply firstly_Seq; [exact F1|].
    eapply firstly_Seq; [exact F3|]. now apply firstly_Chr. }
  rewrite (firstly_exec _ _ _ F). cbn [rest snd length].
  rewrite length_app. cbn [length]. f_equal. lia.
Qed.

Lemma replaceFrom_skip r by_ u :
  bolFree r = true -> forall t p,
  replaceFrom r by_ (length u) p (u ++ t) = replaceFrom r by_ 0 None t.
Proof.
  intros Hb. induction u as [|c u IH]; intros t p.
  - now apply replaceFrom_prev.
  - cbn [length app replaceFrom]. apply IH.
Qed.

(** Stripping removes an SGR sequence in front of a string and strips
    what follows. *)
Lemma stripAnsi_sgr_prefix ds t :
  ds <> [] -> length ds <= 4 -> Forall (fun x => isDigit x = true) ds ->
  stripAnsi (ESC :: cu "[" :: ds ++ cu "m" :: t) = stripAnsi t.
Proof.
  intros Hne Hlen Hds. unfold stripAnsi, replaceAll.
  cbn [replaceFrom]. rewrite exec_reAnsi_sgr by assumption.
  cbn [Nat.add app].
  replace (ds ++ cu "m" :: t) with ((ds ++ [cu "m"]) ++ t)
    by (now rewrite <- app_assoc).
  replace (S (length ds)) with (length (ds ++ [cu "m"]))
    by (rewrite length_app; cbn [length]; lia).
  now apply replaceFrom_skip.
Qed.

Lemma stripAnsi_plain_prefix pre t :
  plain pre -> stripAnsi (pre ++ t) = pre ++ stripAnsi t.
Proof. intros H. now apply replaceFrom_reAnsi_prefix. Qed.

(** The styling helpers of the program around a plain string: stripping
    gives the string back. *)
Lemma stripAnsi_sgr code str :
  In code ["36"; "35"; "33"; "1"; "2"]%string -> plain str ->
  stripAnsi (color.sgr code str) = str.
Proof.
  intros Hcode Hplain. unfold color.sgr.
  assert (js code <> [] /\ length (js code) <= 4
          /\ Forall (fun x => isDigit x = true) (js code)) as (H1 & H2 & H3).
  { cbn [In] in Hcode.
    repeat (destruct Hcode as [<-|Hcode];
            [split; [discriminate|split; [cbn; lia|repeat constructor]]|]).
    destruct Hcode. }
  change ([ESC] ++ js "[" ++ js code ++ js "m" ++ str ++ [ESC] ++ js "[0m")
    with (ESC :: cu "[" :: js code ++ cu "m" :: str ++ [ESC] ++ js "[0m").
  rewrite stripAnsi_sgr_prefix by assumption.
  rewrite stripAnsi_plain_prefix by assumption.
  change (stripAnsi ([ESC] ++ js "[0m")) with (@nil N).
  apply app_nil_r.
Qed.

(** So a plain string styled by the program has the visible length of the
    string, and stripping it twice is stripping it once. *)
Lemma visibleLength_sgr code str :
  In code ["36"; "35"; "33"; "1"; "2"]%string -> plain str ->
  visibleLength (color.sgr code str) = Z.of_nat (length str)
  /\ stripAnsi (stripAnsi (color.sgr code str)) = stripAnsi (color.sgr code str).
Proof.
  intros Hcode Hplain. unfold visibleLength.
  rewrite (stripAnsi_sgr code str Hcode Hplain).
  split; [reflexivity|]. now apply stripAnsi_plain.
Qed.

(* ================================================================== *)
(** ** The greedy packing of words into lines *)

Lemma join_cons sep x l :
  l <> [] -> join sep (x :: l) = x ++ sep ++ join sep l.
Proof. destruct l; [easy|reflexivity]. Qed.

Lemma join_snoc sep g w :
  g <> [] -> join sep (g ++ [w]) = join sep g ++ sep ++ w.
Proof.
  induction g as [|x g IH]; [easy|]. intros _.
  destruct g as [|y g]; [reflexivity|].
  change ((x :: y :: g) ++ [w]) with (x :: ((y :: g) ++ [w])).
  rewrite join_cons by (simpl; discriminate).
  rewrite IH by discriminate.
  rewrite (join_cons sep x (y :: g)) by discriminate.
  now rewrite <- !app_assoc.
Qed.

Lemma truthy_join g :
  Forall nonEmpty g ->
  truthy (join [SP] g) = match g with [] => false | _ :: _ => true end.
Proof.
  destruct g as [|x g]; [reflexivity|]. intros H.
  inversion H as [|? ? Hx _]; subst.
  destruct x as [|c x]; [exfalso; apply Hx; reflexivity|]. now destruct g.
Qed.

Lemma wrapStep_groupStep width groups g word :
  Forall nonEmpty g ->
  wrapStep width (map (join [SP]) groups, join [SP] g) word
  = (map (join [SP]) (fst (groupStep width (groups, g) word)),
     join [SP] (snd (groupStep width (groups, g) word))).
Proof.
  intros Hg. unfold wrapStep, groupStep. rewrite truthy_join by assumption.
  destruct g as [|x g].
  - cbn [app join]. destruct (_ >? _)%Z; reflexivity.
  - rewrite join_snoc by discriminate.
    destruct (_ >? _)%Z; cbn [fst snd]; [|now rewrite join_snoc by discriminate].
    now rewrite map_app.
Qed.

Lemma groupStep_nonEmpty width groups g word :
  Forall nonEmpty g -> nonEmpty word ->
  Forall nonEmpty (snd (groupStep width (groups, g) word)).
Proof.
  intros Hg Hw. unfold groupStep. destruct (_ >? _)%Z; cbn [snd].
  - now constructor.
  - apply Forall_app. split; [assumption|now constructor].
Qed.

Lemma fold_wrapStep width words :
  Forall nonEmpty words -> forall groups g, Forall nonEmpty g ->
  fold_left (wrapStep width) words (map (join [SP]) groups, join [SP] g)
  = (map (join [SP]) (fst (fold_left (groupStep width) words (groups, g))),
     join [SP] (snd (fold_left (groupStep width) words (groups, g)))).
Proof.
  induction 1 as [|w ws Hw _ IH]; intros groups g Hg; [reflexivity|].
  cbn [fold_left]. rewrite wrapStep_groupStep by assumption.
  pose proof (groupStep_nonEmpty width groups g w Hg Hw) as Hg'.
  destruct (groupStep width (groups, g) w) as [groups' g'].
  now apply IH.
Qed.

(** [wrapPara] is the packing of the words, each line joined by one space
    and indented. *)
Lemma wrapPara_groups width indentStr para :
  Forall nonEmpty (split reSpaces para) ->
  wrapPara width indentStr para
  = map (fun g => indentStr ++ join [SP] g)
        (wrapGroups width (split reSpaces para)).
Proof.
  intros Hw. unfold wrapPara, wrapGroups.
  change (@nil jsstring, @nil char)
    with (map (join [SP]) [], join [SP] []).
  rewrite fold_wrapStep by (auto; constructor).
  pose proof (fold_left (groupStep width) (split reSpaces para) ([], []))
    as acc.
  assert (Forall nonEmpty
            (snd (fold_left (groupStep width) (split reSpaces para) ([], []))))
    as Hg.
  { clear -Hw. generalize (@nil (list jsstring)).
    assert (Forall nonEmpty (@nil jsstring)) as H0 by constructor.
    revert H0. generalize (@nil jsstring).
    induction Hw as [|w ws Hw' _ IH]; intros g Hg groups; [exact Hg|].
    cbn [fold_left].
    pose proof (groupStep_nonEmpty width groups g w Hg Hw') as Hg'.
    destruct (groupStep width (groups, g) w) as [groups' g'].
    now apply IH. }
  destruct (fold_left (groupStep width) (split reSpaces para) ([], []))
    as [groups g].
  cbn [fst snd] in *. rewrite truthy_join by assumption.
  unfold flushGroups. destruct g as [|x g].
  - now rewrite map_map.
  - rewrite !map_app, map_map. reflexivity.
Qed.

Lemma concat_flushGroups groups g :
  concat (flushGroups (groups, g)) = concat groups ++ g.
Proof.
  unfold flushGroups. destruct g as [|x g]; [now rewrite app_nil_r|].
  rewrite concat_app. cbn [concat]. now rewrite app_nil_r.
Qed.

(** Packing keeps the words and their order. *)
Lemma concat_fold_groups width ws :
  forall groups g,
  concat (flushGroups (fold_left (groupStep width) ws (groups, g)))
  = concat groups ++ g ++ ws.
Proof.
  induction ws as [|w ws IH]; intros groups g.
  - cbn [fold_left]. rewrite concat_flushGroups. now rewrite app_nil_r.
  - cbn [fold_left]. unfold groupStep at 2. destruct (_ >? _)%Z.
    + rewrite IH. pose proof (concat_flushGroups groups g) as E.
      unfold flushGroups in E. rewrite E. now rewrite <- !app_assoc.
    + rewrite IH. now rewrite <- !app_assoc.
Qed.

Lemma fits_fold_groups width ws :
  forall groups g,
  Forall (fits width) groups -> g = [] \/ fits width g ->
  Forall (fits width) (flushGroups (fold_left (groupStep width) ws (groups, g))).
Proof.
  induction ws as [|w ws IH]; intros groups g Hgs Hg.
  - cbn [fold_left flushGroups]. destruct g as [|x g]; [exact Hgs|].
    apply Forall_app. split; [exact Hgs|]. constructor; [|constructor].
    destruct Hg as [Hg|Hg]; [discriminate|exact Hg].
  - cbn [fold_left]. unfold groupStep at 2.
    destruct (Z.gtb_spec (Z.of_nat (length (join [SP] (g ++ [w])))) width).
    + apply IH.
      * destruct g as [|x g]; [exact Hgs|].
        apply Forall_app. split; [exact Hgs|]. constructor; [|constructor].
        destruct Hg as [Hg|Hg]; [discriminate|exact Hg].
      * right. right. now exists w.
    + apply IH; [exact Hgs|]. right. now left.
Qed.

Lemma nonnil_fold_groups width ws :
  forall groups g,
  Forall (fun x => x <> []) groups ->
  Forall (fun x => x <> [])
         (flushGroups (fold_left (groupStep width) ws (groups, g))).
Proof.
  induction ws as [|w ws IH]; intros groups g Hgs.
  - cbn [fold_left flushGroups]. destruct g as [|x g]; [exact Hgs|].
    apply Forall_app. split; [exact Hgs|]. now repeat constructor.
  - cbn [fold_left]. unfold groupStep at 2. destruct (_ >? _)%Z.
    + apply IH. destruct g as [|x g]; [exact Hgs|].
      apply Forall_app. split; [exact Hgs|]. now repeat constructor.
    + now apply IH.
Qed.

Lemma paragraph_words_nonEmpty text para :
  In para (paragraphs text) -> Forall nonEmpty (split reSpaces para).
Proof.
  intros Hin. apply paragraphs_trimmed in Hin. destruct Hin as (x & -> & Hx).
  rewrite split_reSpaces_trim by assumption.
  eapply Forall_impl; [|apply isWord_wordsOf]. now intros u [Hu _].
Qed.

Lemma paragraphs_nil : paragraphs [] = [].
Proof. reflexivity. Qed.

(** [wrapText] packs the words of each paragraph, joins each group with
    one space and puts the indent in front. *)
Lemma wrapText_groups text width indent :
  wrapText text width indent
  = map (fun g => repeatStr [SP] indent ++ join [SP] g)
        (textGroups text width).
Proof.
  unfold wrapText, textGroups. destruct text as [|c t]; [reflexivity|].
  cbn [truthy]. rewrite map_flat_map. apply flat_map_ext_in.
  intros para Hin. apply wrapPara_groups.
  eapply paragraph_words_nonEmpty; eauto.
Qed.

Lemma concat_flat_map (A B : Type) (f : A -> list (list B)) (l : list A) :
  concat (flat_map f l) = flat_map (fun a => concat (f a)) l.
Proof.
  induction l as [|a l IH]; [reflexivity|].
  cbn [flat_map]. now rewrite concat_app, IH.
Qed.

Lemma concat_wrapGroups width ws : concat (wrapGroups width ws) = ws.
Proof. unfold wrapGroups. now rewrite concat_fold_groups. Qed.

Lemma concat_textGroups text width :
  concat (textGroups text width) = wordsOf text.
Proof.
  unfold textGroups. rewrite concat_flat_map, <- paragraphs_words.
  apply flat_map_ext_in. intros para _. apply concat_wrapGroups.
Qed.

Lemma fits_textGroups text width : Forall (fits width) (textGroups text width).
Proof.
  unfold textGroups. apply Forall_flat_map, Forall_forall. intros para _.
  apply fits_fold_groups; [constructor|now left].
Qed.

Lemma nonnil_textGroups text width :
  Forall (fun g => g <> []) (textGroups text width).
Proof.
  unfold textGroups. apply Forall_flat_map, Forall_forall. intros para _.
  apply nonnil_fold_groups. constructor.
Qed.

Lemma words_textGroups text width :
  Forall (Forall isWord) (textGroups text width).
Proof.
  pose proof (isWord_wordsOf text) as H.
  rewrite <- (concat_textGroups text width) in H.
  induction (textGroups text width) as [|g l IH]; [constructor|].
  cbn [concat] in H. apply Forall_app in H. destruct H. constructor; auto.
Qed.

Lemma length_join_In sep g w :
  In w g -> length w <= length (join sep g).
Proof.
  induction g as [|x g IH]; [easy|]. intros [->|Hin].
  - destruct g; [cbn; lia|]. rewrite join_cons by discriminate.
    rewrite length_app. lia.
  - destruct g as [|y g]; [easy|]. rewrite join_cons by discriminate.
    rewrite !length_app. specialize (IH Hin). lia.
Qed.

(* ================================================================== *)
(** ** Short paragraphs *)

Lemma splitFrom_dead r s :
  dead r s -> forall p cur, splitFrom r 0 p cur s = [cur ++ s].
Proof.
  induction s as [|c t IH]; intros Hd p cur; cbn [splitFrom].
  - now rewrite app_nil_r.
  - pose proof (Hd p 0) as E. cbn [skipn] in E. rewrite E.
    rewrite IH by (eapply dead_tail; eauto). now rewrite <- app_assoc.
Qed.

Lemma dead_reNewline s : ~ In LF s -> dead reNewline s.
Proof.
  intros Hno p k. rewrite exec_reNewline.
  assert (~ In LF (skipn k s)) as H.
  { intros Hin. apply Hno. revert Hin. clear. revert s.
    induction k as [|k IH]; intros s; [easy|].
    destruct s as [|c t]; [easy|]. cbn [skipn]. intros H. right. now apply IH. }
  destruct (skipn k s) as [|c t]; [reflexivity|].
  destruct (N.eqb_spec LF c) as [<-|_]; [elim H; now left|].
  destruct t as [|d t]; [now rewrite andb_false_r|].
  destruct (N.eqb_spec LF d) as [<-|_]; [elim H; right; now left|].
  now rewrite andb_false_r.
Qed.

Lemma paragraphs_single text :
  ~ In LF text -> trim text <> [] -> paragraphs text = [trim text].
Proof.
  intros Hno Hne. unfold paragraphs, split.
  destruct text as [|c t]; [exfalso; apply Hne; reflexivity|].
  rewrite splitFrom_dead by (now apply dead_reNewline).
  cbn [app map filter]. now destruct (trim (c :: t)).
Qed.

Lemma length_join_app_le sep a b :
  length (join sep a) <= length (join sep (a ++ b)).
Proof.
  induction a as [|x a IH]; [cbn; lia|].
  destruct a as [|y a].
  - cbn [app]. destruct b as [|z b]; [lia|].
    rewrite (join_cons sep x (z :: b)) by discriminate.
    cbn [join]. rewrite length_app. lia.
  - change ((x :: y :: a) ++ b) with (x :: ((y :: a) ++ b)).
    rewrite (join_cons sep x (y :: a)) by discriminate.
    rewrite (join_cons sep x ((y :: a) ++ b)) by (simpl; discriminate).
    rewrite !length_app. lia.
Qed.

(** Words that fit on one line together stay on one line. *)
Lemma fold_groups_short width ws :
  forall g,
  (Z.of_nat (length (join [SP] (g ++ ws))) <= width)%Z ->
  fold_left (groupStep width) ws ([], g) = ([], g ++ ws).
Proof.
  induction ws as [|w ws IH]; intros g Hlen; [now rewrite app_nil_r|].
  cbn [fold_left]. unfold groupStep at 2.
  replace (g ++ w :: ws) with ((g ++ [w]) ++ ws) in * by now rewrite <- app_assoc.
  pose proof (length_join_app_le [SP] (g ++ [w]) ws).
  destruct (Z.gtb_spec (Z.of_nat (length (join [SP] (g ++ [w])))) width);
    [lia|].
  now apply IH.
Qed.

Lemma wrapGroups_short width ws :
  ws <> [] -> (Z.of_nat (length (join [SP] ws)) <= width)%Z ->
  wrapGroups width ws = [ws].
Proof.
  intros Hne Hlen. unfold wrapGroups.
  rewrite fold_groups_short by exact Hlen.
  cbn [app flushGroups]. now destruct ws.
Qed.

(** Joining the words of a string with single spaces gives nothing
    longer than the string. *)
Lemma length_join_wordsFrom s :
  forall cur,
  length (join [SP] (wordsFrom cur s)) <= length cur + length s.
Proof.
  induction s as [|c t IH]; intros cur; cbn [wordsFrom].
  - destruct cur; cbn; lia.
  - destruct (isSpace c).
    + specialize (IH []). destruct cur as [|x cur]; cbn [truthy length] in *;
        [lia|].
      destruct (wordsFrom [] t) as [|y l] eqn:E; [cbn; lia|].
      rewrite join_cons by discriminate. rewrite !length_app.
      cbn [length]. lia.
    + specialize (IH (cur ++ [c])). rewrite length_app in IH.
      cbn [length] in *. lia.
Qed.

Lemma join_wordsFrom_singleSpaced s :
  forall cur,
  singleSpaced s = true ->
  (cur = [] -> match s with c :: _ => isSpace c = false | [] => True end) ->
  join [SP] (wordsFrom cur s) = cur ++ s.
Proof.
  induction s as [|c t IH]; intros cur Hss Hhead.
  - cbn [wordsFrom]. rewrite app_nil_r. now destruct cur.
  - cbn [singleSpaced] in Hss. apply andb_true_iff in Hss.
    destruct Hss as [Hc Ht]. cbn [wordsFrom].
    destruct (isSpace c) eqn:E.
    + destruct cur as [|x cur]; [specialize (Hhead eq_refl); congruence|].
      cbn [truthy]. apply andb_true_iff in Hc. destruct Hc as [Hsp Hd].
      apply N.eqb_eq in Hsp. subst c.
      destruct t as [|d t']; [discriminate|].
      apply negb_true_iff in Hd.
      specialize (IH [] Ht (fun _ => Hd)). cbn [app] in IH.
      rewrite join_cons by (intros E0; rewrite E0 in IH; discriminate).
      now rewrite IH.
    + rewrite IH; [now rewrite <- app_assoc|exact Ht|].
      intros E0. now destruct cur.
Qed.

Lemma wordsFrom_nonnil s : forall cur, cur <> [] -> wordsFrom cur s <> [].
Proof.
  induction s as [|c t IH]; intros cur Hcur; cbn [wordsFrom].
  - destruct cur; [easy|discriminate].
  - destruct (isSpace c).
    + destruct cur; [easy|discriminate].
    + apply IH. now destruct cur.
Qed.

Lemma singleSpaced_word_app x r :
  Forall (fun c => isSpace c = false) x ->
  match r with c :: _ => isSpace c = true | [] => True end ->
  singleSpaced (x ++ r) = singleSpaced r.
Proof.
  induction 1 as [|c x Hc _ IH]; intros Hr; [reflexivity|].
  cbn [app singleSpaced]. rewrite Hc. now apply IH.
Qed.

Lemma lastNonSpace_app l r :
  r <> [] -> lastNonSpace (l ++ r) = lastNonSpace r.
Proof.
  intros Hr. induction l as [|a l IH]; [reflexivity|].
  cbn [app lastNonSpace]. destruct (l ++ r) eqn:E; [|exact IH].
  apply app_eq_nil in E. now destruct E.
Qed.

(** Words joined by single spaces: no other whitespace, no two whitespace
    code units in a row, none at either end. *)
Lemma join_words_shape g :
  g <> [] -> Forall isWord g ->
  singleSpaced (join [SP] g) = true
  /\ lastNonSpace (join [SP] g) = true
  /\ exists c u, join [SP] g = c :: u /\ isSpace c = false.
Proof.
  induction g as [|x g IH]; [easy|]. intros _ H.
  inversion H as [|? ? [Hne Hx] Hg]; subst.
  destruct x as [|c x]; [easy|].
  assert (isSpace c = false) as Hc by now inversion Hx.
  destruct g as [|y g].
  - cbn [join]. repeat split.
    + rewrite <- (app_nil_r (c :: x)). now rewrite singleSpaced_word_app.
    + clear -Hx. revert c Hx. induction x as [|d x IHx]; intros c Hx.
      * cbn. inversion Hx; subst. now rewrite H1.
      * cbn [lastNonSpace]. apply IHx. now inversion Hx.
    + now exists c, x.
  - destruct (IH ltac:(discriminate) Hg) as (Hss & Hl & d & u & E & Hd).
    rewrite join_cons by discriminate. rewrite E in *. repeat split.
    + rewrite singleSpaced_word_app by (auto; reflexivity).
      cbn [app singleSpaced] in *. change (isSpace SP) with true.
      rewrite N.eqb_refl, Hd. rewrite Hd in Hss. exact Hss.
    + rewrite app_assoc, lastNonSpace_app by discriminate. exact Hl.
    + now exists c, (x ++ [SP] ++ d :: u).
Qed.

Lemma wordsFrom_word_app x r :
  Forall (fun c => isSpace c = false) x ->
  forall cur, wordsFrom cur (x ++ r) = wordsFrom (cur ++ x) r.
Proof.
  induction 1 as [|c x Hc _ IH]; intros cur; [now rewrite app_nil_r|].
  cbn [app wordsFrom]. rewrite Hc, IH. now rewrite <- app_assoc.
Qed.

(** Joining words by single spaces and taking the words again gives the
    words back. *)
Lemma wordsOf_join ws : Forall isWord ws -> wordsOf (join [SP] ws) = ws.
Proof.
  induction 1 as [|x l [Hne Hx] Hl IH]; [reflexivity|].
  assert (truthy x = true) as Ht by (destruct x; [easy|reflexivity]).
  unfold wordsOf in *. destruct l as [|y l].
  - cbn [join]. pose proof (wordsFrom_word_app x [] Hx []) as E.
    rewrite app_nil_r in E. rewrite E. cbn [app wordsFrom]. now rewrite Ht.
  - rewrite join_cons by discriminate.
    rewrite wordsFrom_word_app by assumption.
    cbn [app wordsFrom]. change (isSpace SP) with true. cbv iota.
    rewrite Ht. f_equal. exact IH.
Qed.

(* ================================================================== *)
(** ** The code on small inputs *)

Example wrapText_greedy :
  wrapText (js "the quick  brown fox") 9 0
  = [js "the quick"; js "brown fox"].
Proof. vm_compute. reflexivity. Qed.

Example wrapText_paragraphs_and_indent :
  wrapText (js "  aa  bb cc dddddddd e" ++ [CR; LF; LF] ++ js " x y ") 5 1
  = [js " aa bb"; js " cc"; js " dddddddd"; js " e"; js " x y"].
Proof. vm_compute. reflexivity. Qed.

Example split_spaces_untrimmed :
  split reSpaces (js " a  b ") = [[]; js "a"; js "b"; []].
Proof. vm_compute. reflexivity. Qed.

Example stripAnsi_styled :
  stripAnsi (color.cyan (color.bold (js "Zephinax"))) = js "Zephinax".
Proof. vm_compute. reflexivity. Qed.

Example boxLine_truncates :
  boxLine (Some (js "hello world")) 12
  = [BOX_V; SP; SP] ++ js "hello" ++ [ELLIPSIS] ++ [SP; SP; BOX_V].
Proof. vm_compute. reflexivity. Qed.

Example boxLine_absent_text :
  boxLine None 10 = [BOX_V; SP; SP] ++ js "    " ++ [SP; SP; BOX_V].
Proof. vm_compute. reflexivity. Qed.

Example wordsOf_example :
  wordsOf (js "  two   words" ++ [9%N; LF] ++ js "more ")
  = [js "two"; js "words"; js "more"].
Proof. vm_compute. reflexivity. Qed.

Example clean_absent : clean None = [] /\ clean (Some []) = [].
Proof. split; reflexivity. Qed.

Example decimal_status : decimal 503 = js "503".
Proof. vm_compute. reflexivity. Qed.

(** The dividers of the details and contact sections are rows of every
    rendering, whatever the profile holds. *)
Lemma render_dividers_unconditional (p : profile) (columns : option Z) :
  In (boxDivider (js "details") (boxWidth columns)) (renderLines p columns)
  /\ In (boxDivider (js "contact") (boxWidth columns)) (renderLines p columns).
Proof.
  unfold renderLines. split; apply in_flat_map.
  - exists (Some (boxDivider (js "details") (boxWidth columns))). split.
    + unfold renderRows. cbn [app]. do 3 right. left. reflexivity.
    + left. reflexivity.
  - exists (Some (boxDivider (js "contact") (boxWidth columns))). split.
    + unfold renderRows. cbn [app]. do 6 right. left. reflexivity.
    + left. reflexivity.
Qed.

(** The divider of the about section is a row only when there is an about
    text to show. *)
Lemma render_about_divider_guarded (p : profile) (columns : option Z) :
  aboutLines p (boxWidth columns) = [] ->
  ~ In (boxDivider (js "about") (boxWidth columns)) (renderLines p columns).
Proof.
  intros E. unfold renderLines. rewrite in_flat_map.
  intros (o & Hin & Ho). unfold renderRows in Hin. rewrite E in Hin.
  cbn [app map length Nat.ltb Nat.leb] in Hin.
  assert (forall w, boxDivider (js "about") w <> boxTop (js "Profile") w) as N1
    by (intros w; discriminate).
  assert (forall w t, boxDivider (js "about") w <> boxLine t w) as N2
    by (intros w t; discriminate).
  assert (forall w, boxDivider (js "about") w <> boxBottom w) as N3
    by (intros w; discriminate).
  assert (forall w, boxDivider (js "about") w <> boxDivider (js "details") w)
    as N4 by (intros w; discriminate).
  assert (forall w, boxDivider (js "about") w <> boxDivider (js "contact") w)
    as N5 by (intros w; discriminate).
  assert (forall l v w, fieldLine l v w = None
                        \/ exists t, fieldLine l v w = Some (boxLine t w))
    as Hf.
  { intros l v w. unfold fieldLine. destruct (truthyOpt v); eauto. }
  assert (forall x : jsstring, In (boxDivider (js "about") (boxWidth columns))
                      (if truthy x then [x] else []) ->
                    x = boxDivider (js "about") (boxWidth columns)) as Hx.
  { intros x. destruct (truthy x); [intros [<-|[]]; reflexivity|intros []]. }
  repeat (destruct Hin as [<-|Hin]);
    try (apply Hx in Ho; symmetry in Ho; revert Ho;
         first [apply N1|apply N2|apply N3|apply N4|apply N5]);
    try (destruct (truthyOpt _) in Ho;
         [apply Hx in Ho; symmetry in Ho; revert Ho; apply N2|exact Ho]);
    try (match type of Ho with context [fieldLine ?l ?v ?w] =>
           destruct (Hf l v w) as [E0|[t E0]]; rewrite E0 in Ho;
           [exact Ho|apply Hx in Ho; symmetry in Ho; revert Ho; apply N2]
         end);
    try exact Ho; try exact Hin.
Qed.

(** The bound of C3 on visible lengths needs only the visible lengths of
    the words. *)
Lemma wrapText_lines_fit_visible (text : jsstring) (w : Z) :
  Forall (fun word => (visibleLength word <= w)%Z) (wordsOf text) ->
  Forall (fun line => (visibleLength line <= w)%Z) (wrapText text w 0).
Proof.
  intros Hwords. rewrite wrapText_groups. cbn [repeatStr app].
  rewrite Forall_map.
  pose proof (fits_textGroups text w) as Hfit.
  rewrite <- (concat_textGroups text w) in Hwords.
  induction (textGroups text w) as [|g l IH]; [constructor|].
  cbn [concat] in Hwords. apply Forall_app in Hwords.
  destruct Hwords as [Hg Hl]. inversion Hfit as [|? ? Hgf Hlf]; subst.
  constructor; [|now apply IH].
  destruct Hgf as [Hle|[x ->]].
  - pose proof (visibleLength_le (join [SP] g)). lia.
  - cbn [join]. now inversion Hg.
Qed.

(* ================================================================== *)
(** ** The claims *)

(** C1, as stated, fails: in a box of width 6 nothing fits between the
    frame and the margins, and the row for the text "ab" is 8 columns wide. *)
Lemma boxLine_width_counterexample :
  visibleLength (boxLine (Some (js "ab")) 6) <> 6%Z.
Proof. vm_compute. discriminate. Qed.

(** C1 (amended): for every text, absent or not, and every width of at
    least 7, the row [boxLine] returns has visible length exactly [width],
    truncated or not; the text placed in the row has visible length at most
    [width - 4 - 2*margin], and with its padding exactly that. *)
Theorem boxLine_visible_width (text : option jsstring) (width : Z) :
  (7 <= width)%Z ->
  visibleLength (boxLine text width) = width
  /\ (visibleLength (boxRaw text width) <= width - 4 - 2 * CONTENT_MARGIN)%Z
  /\ (visibleLength (boxRaw text width) + boxPadding text width
      = width - 4 - 2 * CONTENT_MARGIN)%Z.
Proof.
  intros Hw. pose proof (boxRaw_fits text width Hw) as Hfit.
  assert (innerWidth width = width - 6)%Z as Ei
    by (unfold innerWidth, CONTENT_MARGIN; lia).
  rewrite visibleLength_boxLine. unfold boxPadding.
  rewrite Ei in *. change CONTENT_MARGIN with 1%Z. repeat split; lia.
Qed.

Lemma boxLine_visible_width_witness :
  (7 <= 12)%Z
  /\ visibleLength (boxLine (Some (color.cyan (js "hello world"))) 12) = 12%Z.
Proof.
  split; [lia|].
  apply (boxLine_visible_width (Some (color.cyan (js "hello world"))) 12). lia.
Defined.

(** C2: the code does not omit the dividers of empty sections.  Rendering
    the empty profile on a terminal that reports no width gives five rows:
    the top border, the header with the fallback name, the DETAILS divider,
    the CONTACT divider and the bottom border. *)
Theorem render_empty_profile_rows :
  renderLines emptyProfile None
  = [ boxTop (js "Profile") 80;
      boxLine (Some (color.cyan (color.bold (js "Zephinax")))) 80;
      boxDivider (js "details") 80;
      boxDivider (js "contact") 80;
      boxBottom 80 ].
Proof. vm_compute. reflexivity. Qed.

(** C3: when the width is positive and no whitespace-delimited word of the
    text is longer than the width, every line of [wrapText text w 0] has
    visible length at most [w] (and length at most [w]). *)
Theorem wrapText_lines_fit (text : jsstring) (w : Z) :
  (0 < w)%Z ->
  Forall (fun word => (Z.of_nat (length word) <= w)%Z) (wordsOf text) ->
  Forall (fun line => (visibleLength line <= w)%Z
                      /\ (Z.of_nat (length line) <= w)%Z)
         (wrapText text w 0).
Proof.
  intros _ Hwords. rewrite wrapText_groups. cbn [repeatStr app].
  rewrite Forall_map.
  pose proof (fits_textGroups text w) as Hfit.
  rewrite <- (concat_textGroups text w) in Hwords.
  induction (textGroups text w) as [|g l IH]; [constructor|].
  cbn [concat] in Hwords. apply Forall_app in Hwords.
  destruct Hwords as [Hg Hl]. inversion Hfit as [|? ? Hgf Hlf]; subst.
  constructor; [|now apply IH].
  assert (Z.of_nat (length (join [SP] g)) <= w)%Z as Hlen.
  { destruct Hgf as [Hle|[x ->]]; [exact Hle|].
    cbn [join]. now inversion Hg. }
  split; [|exact Hlen].
  pose proof (visibleLength_le (join [SP] g)). lia.
Qed.

Lemma wrapText_lines_fit_witness :
  Forall (fun line => (visibleLength line <= 5)%Z
                      /\ (Z.of_nat (length line) <= 5)%Z)
         (wrapText (js "aa bb  cc dddd") 5 0).
Proof.
  apply (wrapText_lines_fit (js "aa bb  cc dddd") 5); [lia|].
  vm_compute. repeat constructor; discriminate.
Defined.

(** C4, as stated, fails: the paragraph "a  b" is shorter than the width
    10, and its one line is "a b", not the paragraph itself. *)
Lemma wrapText_short_counterexample :
  wrapText (js "a  b") 10 0 <> [trim (js "a  b")].
Proof. vm_compute. discriminate. Qed.

(** C4 (amended): for every text without a line feed that is not empty
    after trimming and whose trimmed length is less than the width,
    [wrapText text width 0] is exactly one line: the words of the text
    joined by single spaces.  That line is the trimmed text itself when
    every whitespace code unit of the trimmed text is a single space
    between two words. *)
Theorem wrapText_short_paragraph (text : jsstring) (width : Z) :
  ~ In LF text ->
  trim text <> [] ->
  (Z.of_nat (length (trim text)) < width)%Z ->
  wrapText text width 0 = [join [SP] (wordsOf text)]
  /\ (singleSpaced (trim text) = true -> wrapText text width 0 = [trim text]).
Proof.
  intros Hline Hne Hlen.
  assert (wrapText text width 0 = [join [SP] (wordsOf text)]) as E.
  { rewrite wrapText_groups. unfold textGroups.
    rewrite paragraphs_single by assumption.
    cbn [flat_map repeatStr]. rewrite app_nil_r.
    rewrite split_reSpaces_trim by assumption.
    rewrite wrapGroups_short; [reflexivity| |].
    - destruct (trim_shape text) as [E|(c & u & E & Hc & _)]; [easy|].
      rewrite <- wordsOf_trim, E. unfold wordsOf. cbn [wordsFrom].
      rewrite Hc. now apply wordsFrom_nonnil.
    - rewrite <- wordsOf_trim.
      pose proof (length_join_wordsFrom (trim text) []) as Hj.
      unfold wordsOf. cbn [length] in Hj. lia. }
  split; [exact E|]. intros Hss. rewrite E. f_equal.
  rewrite <- wordsOf_trim.
  apply (join_wordsFrom_singleSpaced (trim text) [] Hss).
  intros _. destruct (trim_shape text) as [E0|(c & u & E0 & Hc & _)];
    rewrite E0; [exact I|exact Hc].
Qed.

Lemma wrapText_short_paragraph_witness :
  wrapText (js "  hello brave world ") 20 0
  = [join [SP] (wordsOf (js "  hello brave world "))]
  /\ (singleSpaced (trim (js "  hello brave world ")) = true ->
      wrapText (js "  hello brave world ") 20 0
      = [trim (js "  hello brave world ")]).
Proof.
  apply (wrapText_short_paragraph (js "  hello brave world ") 20).
  - vm_compute. intros H. repeat (destruct H as [H|H]; [discriminate|]).
    exact H.
  - vm_compute. discriminate.
  - vm_compute. reflexivity.
Defined.

(** C5: a whitespace-delimited word of the text that is longer than the
    width is never broken: the output lines are the words of the text, in
    order, grouped and joined, and every group that holds the long word
    holds nothing else, so the word is a line of its own. *)
Theorem wrapText_long_word_alone
        (text : jsstring) (width : Z) (indent : nat) (word : jsstring) :
  In word (wordsOf text) ->
  (Z.of_nat (length word) > width)%Z ->
  In (repeatStr [SP] indent ++ word) (wrapText text width indent)
  /\ exists groups,
       wrapText text width indent
       = map (fun g => repeatStr [SP] indent ++ join [SP] g) groups
       /\ concat groups = wordsOf text
       /\ forall g, In g groups -> In word g -> g = [word].
Proof.
  intros Hin Hlong.
  assert (forall g, In g (textGroups text width) -> In word g -> g = [word])
    as Halone.
  { intros g Hg Hwg.
    pose proof (fits_textGroups text width) as Hfit.
    rewrite Forall_forall in Hfit. destruct (Hfit g Hg) as [Hle|[x ->]].
    - pose proof (length_join_In [SP] g word Hwg). lia.
    - destruct Hwg as [->|[]]. reflexivity. }
  split.
  - rewrite <- (concat_textGroups text width) in Hin.
    apply in_concat in Hin. destruct Hin as (g & Hg & Hwg).
    rewrite wrapText_groups. apply in_map_iff. exists g. split; [|exact Hg].
    now rewrite (Halone g Hg Hwg).
  - exists (textGroups text width). split; [apply wrapText_groups|].
    split; [apply concat_textGroups|exact Halone].
Qed.

Lemma wrapText_long_word_alone_witness :
  In (repeatStr [SP] 2 ++ js "bbbbbbbb") (wrapText (js "a bbbbbbbb c") 3 2).
Proof.
  apply (wrapText_long_word_alone (js "a bbbbbbbb c") 3 2 (js "bbbbbbbb")).
  - vm_compute. right. left. reflexivity.
  - vm_compute. reflexivity.
Defined.

(** C6, as stated, fails: stripping once can leave an escape sequence
    behind.  From ESC ESC "[0mA" the sequence ESC "[0m" is removed, and what
    is left, ESC "A", is itself a sequence. *)
Lemma stripAnsi_twice_counterexample :
  visibleLength (stripAnsi ([ESC; ESC] ++ js "[0mA"))
  <> visibleLength ([ESC; ESC] ++ js "[0mA").
Proof. vm_compute. discriminate. Qed.

(** C8, as stated, fails: a reported column count of 0 is taken as no
    count, so the width is 80, while 0 clamped into [60, 100] is 60. *)
Lemma boxWidth_zero_counterexample :
  boxWidth (Some 0%Z) <> clamp 60 100 0.
Proof. vm_compute. discriminate. Qed.

(** C8 (amended): for every reported column count other than 0 the box
    width is the count clamped into [60, 100]; when no count is reported,
    or the count is 0, the width is 80. *)
Theorem boxWidth_clamp (c : Z) :
  c <> 0%Z ->
  boxWidth (Some c) = clamp 60 100 c
  /\ boxWidth None = 80%Z
  /\ boxWidth (Some 0%Z) = 80%Z.
Proof.
  intros Hc. repeat split. unfold boxWidth, clamp.
  destruct (Z.eqb_spec c 0); [contradiction|].
  destruct (Z.ltb_spec c 60); [lia|].
  destruct (Z.gtb_spec c 100); lia.
Qed.

Lemma boxWidth_clamp_witness :
  boxWidth (Some 132%Z) = clamp 60 100 132.
Proof. apply (boxWidth_clamp 132). discriminate. Defined.

(** What [main] does with a response whose status is not 2xx, and the two
    shapes a run can have. *)
Lemma run_http_error
        (JSON_parse : jsstring -> parsed) (columns : option Z)
        (hasFetch : bool) (status : Z) (body : jsstring) :
  (status < 200 \/ 300 <= status)%Z ->
  fst (fetchProfile JSON_parse hasFetch (Response status body) start)
  = Throw (js "Request failed with status " ++ decimal status)
  /\ run JSON_parse columns hasFetch (Response status body)
     = {| stdout := [];
          stderr := [color.magenta (js "Error:") ++ [SP]
                       ++ js "Request failed with status " ++ decimal status];
          exitCode := Some 1%Z |}
  /\ forall net,
       (exists p,
           run JSON_parse columns hasFetch net
           = {| stdout := [render p columns]; stderr := [];
                exitCode := None |})
       \/ (exists message,
              run JSON_parse columns hasFetch net
              = {| stdout := [];
                   stderr := [color.magenta (js "Error:") ++ [SP] ++ message];
                   exitCode := Some 1%Z |}).
Proof.
  intros Hs.
  assert (fst (fetchProfile JSON_parse hasFetch (Response status body) start)
          = Throw (statusMessage status)
          /\ snd (fetchProfile JSON_parse hasFetch (Response status body) start)
             = start) as [E1 E2].
  { unfold fetchProfile, ok. destruct hasFetch.
    - destruct (Z.leb_spec 200 status), (Z.leb_spec status 299);
        cbn [andb negb]; try (split; reflexivity); lia.
    - destruct (Z.ltb_spec status 200), (Z.geb_spec status 300);
        cbn [orb]; try (split; reflexivity); lia. }
  split; [exact E1|]. split.
  - unfold run, main, tryCatch, bind.
    destruct (fetchProfile JSON_parse hasFetch (Response status body) start)
      as [o w]. cbn [fst snd] in E1, E2. subst o w. reflexivity.
  - intros net. unfold run, main, tryCatch, bind.
    assert (forall b, exists r,
              parseBody JSON_parse b start = (r, start)) as Hparse.
    { intros b. unfold parseBody. destruct (JSON_parse b); eexists; reflexivity. }
    assert (exists r, fetchProfile JSON_parse hasFetch net start = (r, start))
      as [r Er].
    { unfold fetchProfile.
      destruct hasFetch, net as [m|st b];
        try (eexists; reflexivity);
        match goal with |- context [if ?c then _ else _] => destruct c end;
        try (eexists; reflexivity); apply Hparse. }
    rewrite Er. destruct r as [[p|]|m].
    + left. exists p. reflexivity.
    + right. eexists. reflexivity.
    + right. eexists. reflexivity.
Qed.

(** C10: whatever whitespace separates the words of a paragraph, the
    output lines are groups of the words of the text, in order, each group
    joined by exactly one space after the indent; so after the indent a line
    has no whitespace other than single spaces between two words. *)
Theorem wrapText_normalizes_whitespace
        (text : jsstring) (width : Z) (indent : nat) :
  (exists groups,
      wrapText text width indent
      = map (fun g => repeatStr [SP] indent ++ join [SP] g) groups
      /\ concat groups = wordsOf text
      /\ Forall (fun g => g <> [] /\ Forall isWord g) groups)
  /\ Forall (fun line =>
               exists c u,
                 line = repeatStr [SP] indent ++ c :: u
                 /\ isSpace c = false
                 /\ singleSpaced (c :: u) = true
                 /\ lastNonSpace (c :: u) = true)
            (wrapText text width indent).
Proof.
  pose proof (nonnil_textGroups text width) as Hne.
  pose proof (words_textGroups text width) as Hw.
  split.
  - exists (textGroups text width). split; [apply wrapText_groups|].
    split; [apply concat_textGroups|].
    rewrite Forall_forall in *. intros g Hg. split; auto.
  - rewrite wrapText_groups, Forall_map.
    rewrite Forall_forall in *. intros g Hg.
    destruct (join_words_shape g (Hne g Hg) (Hw g Hg))
      as (Hss & Hl & c & u & E & Hc).
    exists c, u. rewrite E in *. auto.
Qed.

(* ================================================================== *)
(** ** Further properties: borders and rows *)

Lemma length_repeatStr1 c n : length (repeatStr [c] n) = n.
Proof. induction n; simpl; auto. Qed.

Lemma plain_repeatStr1 c n :
  isIntroducer c = false -> plain (repeatStr [c] n).
Proof. intros H. induction n; simpl; constructor; auto. Qed.

Lemma plain_app a b : plain a -> plain b -> plain (a ++ b).
Proof. intros Ha Hb. apply Forall_app. now split. Qed.

(** On ASCII input, the domain of the model of [toUpperCase]. *)
Lemma length_toUpperCase s :
  isAscii s -> length (toUpperCase s) = length s.
Proof. intros _. apply length_map. Qed.

Lemma plain_toUpperCase s : isAscii s -> plain s -> plain (toUpperCase s).
Proof.
  intros _. induction 1 as [|c s Hc _ IH]; [constructor|].
  cbn [toUpperCase map]. constructor; [|exact IH].
  unfold inRange. destruct (N.leb_spec 97 c); cbn [andb]; [|exact Hc].
  destruct (N.leb_spec c 122); [|exact Hc].
  unfold isIntroducer, oneOf, ESC, CSI. cbn [existsb].
  repeat (apply orb_false_iff; split); try reflexivity; apply N.eqb_neq; lia.
Qed.

(** A label-and-rule border between two corner glyphs. *)
Lemma visibleLength_border l r title n :
  isIntroducer l = false -> isIntroducer r = false -> plain title ->
  visibleLength ([l] ++ title ++ repeatStr [BOX_H] n ++ [r])
  = Z.of_nat (length title + n + 2).
Proof.
  intros Hl Hr Ht. unfold visibleLength. rewrite stripAnsi_plain.
  - rewrite !length_app, length_repeatStr1. cbn [length]. lia.
  - repeat apply plain_app; try (repeat constructor; assumption);
      try assumption. now apply plain_repeatStr1.
Qed.

Lemma boxTop_width_helper label width :
  plain label ->
  visibleLength (boxTop label width)
  = Z.max width (if truthy label then Z.of_nat (length label) + 4 else 2).
Proof.
  intros Hp. unfold boxTop, divider.
  destruct label as [|c label]; cbn [truthy].
  - rewrite (visibleLength_border BOX_TL BOX_TR [] _ eq_refl eq_refl);
      [|constructor]. cbn [length]. lia.
  - rewrite (visibleLength_border BOX_TL BOX_TR _ _ eq_refl eq_refl).
    + rewrite !length_app. cbn [length]. lia.
    + repeat apply plain_app; try assumption; repeat constructor.
Qed.

Lemma boxBottom_width_helper width :
  visibleLength (boxBottom width) = Z.max width 2.
Proof.
  unfold boxBottom, divider.
  change ([BOX_BL] ++ repeatStr [BOX_H] (Z.to_nat (Z.max 0 (width - 2)))
            ++ [BOX_BR])
    with ([BOX_BL] ++ [] ++ repeatStr [BOX_H] (Z.to_nat (Z.max 0 (width - 2)))
            ++ [BOX_BR]).
  rewrite (visibleLength_border BOX_BL BOX_BR [] _ eq_refl eq_refl);
    [|constructor]. cbn [length]. lia.
Qed.

Lemma boxDivider_width_helper label width :
  isAscii label -> plain label ->
  visibleLength (boxDivider label width)
  = Z.max width (if truthy label then Z.of_nat (length label) + 4 else 2)
  /\ exists rule,
       boxDivider label width
       = [BOX_LT]
           ++ (if truthy label then [SP] ++ toUpperCase label ++ [SP] else [])
           ++ rule ++ [BOX_RT]
       /\ Forall (fun c => c = BOX_H) rule.
Proof.
  intros Ha Hp. split.
  - unfold boxDivider, divider. destruct label as [|c label]; cbn [truthy].
    + rewrite (visibleLength_border BOX_LT BOX_RT [] _ eq_refl eq_refl);
        [|constructor]. cbn [length]. lia.
    + rewrite (visibleLength_border BOX_LT BOX_RT _ _ eq_refl eq_refl).
      * rewrite !length_app, length_toUpperCase by assumption.
        cbn [length]. lia.
      * apply plain_app; [repeat constructor|].
        apply plain_app; [now apply plain_toUpperCase|repeat constructor].
  - unfold boxDivider, divider. eexists. split; [reflexivity|].
    generalize (Z.to_nat
      (Z.max 0
         (width - 2
          - Z.of_nat
              (length
                 (if truthy label then [SP] ++ toUpperCase label ++ [SP]
                  else []))))).
    intros n. induction n; simpl; constructor; auto.
Qed.

(** X1: the top border around a label without escape codes is [width]
    columns wide whenever the label and its two spaces fit between the
    corners; a longer label makes the border as wide as the label needs. *)
Theorem boxTop_width (label : jsstring) (width : Z) :
  plain label ->
  visibleLength (boxTop label width)
  = Z.max width (if truthy label then Z.of_nat (length label) + 4 else 2).
Proof. apply boxTop_width_helper. Qed.

Lemma boxTop_width_witness :
  visibleLength (boxTop (js "Profile") 60)
  = Z.max 60 (if truthy (js "Profile")
              then Z.of_nat (length (js "Profile")) + 4 else 2).
Proof. apply (boxTop_width (js "Profile") 60). repeat constructor. Defined.

(** X2: the bottom border is [width] columns wide, and two columns wide,
    the corners alone, when [width] is less than 2. *)
Theorem boxBottom_width (width : Z) :
  visibleLength (boxBottom width) = Z.max width 2.
Proof. apply boxBottom_width_helper. Qed.

Lemma toUpperCase_ascii label :
  Forall2 (fun c u => u = if ((97 <=? c) && (c <=? 122))%N
                          then (c - 32)%N else c)
          label (toUpperCase label).
Proof. induction label as [|c t IH]; constructor; [reflexivity|exact IH]. Qed.

(** X3: for an ASCII label without escape introducer, a section divider is
    the left tee, a space, the label with its letters a to z replaced by A
    to Z (every other code unit as it is), a space, a rule of horizontal
    bars and the right tee; for an empty label it is the tees around the
    rule.  The row is [width] columns wide whenever the tag fits between
    the tees; a longer label makes the row as wide as the tag needs. *)
Theorem boxDivider_width (label : jsstring) (width : Z) :
  isAscii label -> plain label ->
  visibleLength (boxDivider label width)
  = Z.max width (if truthy label then Z.of_nat (length label) + 4 else 2)
  /\ exists upper rule,
       boxDivider label width
       = [BOX_LT]
           ++ (if truthy label then [SP] ++ upper ++ [SP] else [])
           ++ rule ++ [BOX_RT]
       /\ Forall2 (fun c u => u = if ((97 <=? c) && (c <=? 122))%N
                               then (c - 32)%N else c)
                  label upper
       /\ Forall (fun c => c = BOX_H) rule.
Proof.
  intros Ha Hp. destruct (boxDivider_width_helper label width Ha Hp)
    as (E & rule & Er & Hr).
  split; [exact E|]. exists (toUpperCase label), rule.
  split; [exact Er|]. split; [apply toUpperCase_ascii|exact Hr].
Qed.

Lemma boxDivider_width_witness :
  isAscii (js "details") /\ plain (js "details")
  /\ visibleLength (boxDivider (js "details") 60) = 60%Z.
Proof.
  assert (isAscii (js "details")) as Ha by (unfold isAscii; repeat constructor).
  assert (plain (js "details")) as Hp by repeat constructor.
  split; [exact Ha|]. split; [exact Hp|].
  apply (boxDivider_width (js "details") 60 Ha Hp).
Defined.

(** The DETAILS divider of a box of width 60, code unit by code unit. *)
Example boxDivider_details :
  boxDivider (js "details") 60
  = BOX_LT :: js " DETAILS " ++ repeatStr [BOX_H] 49 ++ [BOX_RT].
Proof. vm_compute. reflexivity. Qed.

Lemma boxLine_row_width text width :
  (7 <= width)%Z -> visibleLength (boxLine text width) = width.
Proof.
  intros Hw. pose proof (boxRaw_fits text width Hw) as Hfit.
  assert (innerWidth width = width - 6)%Z as Ei
    by (unfold innerWidth, CONTENT_MARGIN; lia).
  rewrite visibleLength_boxLine. unfold boxPadding. lia.
Qed.

Lemma boxWidth_range columns : (60 <= boxWidth columns <= 100)%Z.
Proof.
  unfold boxWidth. destruct columns as [c|]; [destruct (c =? 0)%Z|]; lia.
Qed.

Lemma Forall_present (P : jsstring -> Prop) (rows : list (option jsstring)) :
  Forall (fun o => match o with Some x => P x | None => True end) rows ->
  Forall P (flat_map (fun o => match o with
                               | Some s => if truthy s then [s] else []
                               | None => []
                               end) rows).
Proof.
  induction 1 as [|o rows Ho _ IH]; [constructor|].
  cbn [flat_map]. apply Forall_app. split; [|exact IH].
  destruct o as [x|]; [|constructor].
  destruct (truthy x); [|constructor]. now repeat constructor.
Qed.

Lemma fieldLine_cases label value width :
  fieldLine label value width = None
  \/ exists t, fieldLine label value width = Some (boxLine t width).
Proof. unfold fieldLine. destruct (truthyOpt value); eauto. Qed.

Lemma truthy_boxTop label width : truthy (boxTop label width) = true.
Proof. reflexivity. Qed.

Lemma truthy_boxLine text width : truthy (boxLine text width) = true.
Proof. reflexivity. Qed.

Lemma truthy_boxBottom width : truthy (boxBottom width) = true.
Proof. reflexivity. Qed.

Lemma truthy_boxDivider label width : truthy (boxDivider label width) = true.
Proof. reflexivity. Qed.

Lemma visibleLength_section_divider l w :
  In l [js "details"; js "contact"; js "about"] -> (60 <= w)%Z ->
  visibleLength (boxDivider l w) = w.
Proof.
  intros Hl Hw.
  assert (isAscii l /\ plain l /\ truthy l = true /\ (length l <= 7)%nat)
    as (Ha & Hp & Ht & Hlen).
  { cbn [In] in Hl.
    repeat (destruct Hl as [<-|Hl];
            [split; [unfold isAscii; repeat constructor|
                     split; [repeat constructor|
                             split; [reflexivity|cbn; lia]]]|]).
    destruct Hl. }
  destruct (boxDivider_width_helper l w Ha Hp) as [E _].
  rewrite E, Ht. lia.
Qed.

(** The array that [render] joins: its width, its elements' widths and its
    first, second and last element. *)
Lemma renderLines_shape (p : profile) (columns : option Z) :
  (60 <= boxWidth columns <= 100)%Z
  /\ Forall (fun row => visibleLength row = boxWidth columns)
            (renderLines p columns)
  /\ exists middle,
       renderLines p columns
       = boxTop (js "Profile") (boxWidth columns)
           :: boxLine (Some (color.cyan (header p))) (boxWidth columns)
           :: middle ++ [boxBottom (boxWidth columns)].
Proof.
  pose proof (boxWidth_range columns) as Hw.
  unfold renderLines. generalize dependent (boxWidth columns). intros w Hw.
  assert (forall t, visibleLength (boxLine t w) = w) as Hline
    by (intros t; apply boxLine_row_width; lia).
  assert (forall l, In l [js "details"; js "contact"; js "about"] ->
                    visibleLength (boxDivider l w) = w) as Hdiv
    by (intros l Hl; apply visibleLength_section_divider; [exact Hl|lia]).
  split; [exact Hw|]. split.
  - apply Forall_present. unfold renderRows.
    apply Forall_app. split; [|apply Forall_app; split].
    + constructor.
      { rewrite boxTop_width_helper by (repeat constructor).
        change (truthy (js "Profile")) with true.
        change (Z.of_nat (length (js "Profile"))) with 7%Z.
        cbv iota. lia. }
      constructor; [apply Hline|].
      constructor; [destruct (truthyOpt _); [apply Hline|exact I]|].
      constructor; [apply Hdiv; left; reflexivity|].
      constructor.
      { destruct (fieldLine_cases (js "Role") (jobTitle p) w) as [E|[t E]];
          rewrite E; [exact I|apply Hline]. }
      constructor.
      { destruct (fieldLine_cases (js "Timezone") (timeZone p) w)
          as [E|[t E]]; rewrite E; [exact I|apply Hline]. }
      constructor; [apply Hdiv; right; left; reflexivity|].
      constructor.
      { destruct (fieldLine_cases (js "Email") (email p) w) as [E|[t E]];
          rewrite E; [exact I|apply Hline]. }
      constructor.
      { destruct (fieldLine_cases (js "Web") (website p) w) as [E|[t E]];
          rewrite E; [exact I|apply Hline]. }
      constructor; [|constructor].
      destruct (0 <? _)%nat; [apply Hdiv; right; right; left; reflexivity|].
      exact I.
    + apply Forall_map, Forall_forall. intros l _. apply Hline.
    + constructor; [|constructor]. rewrite boxBottom_width_helper. lia.
  - unfold renderRows.
    match goal with
    | |- context [?a :: ?b :: ?c :: ?d :: ?e :: ?f :: ?g :: ?h :: ?i :: [?j]] =>
        change (a :: b :: c :: d :: e :: f :: g :: h :: i :: [j])
          with ([a; b] ++ [c; d; e; f; g; h; i; j])
    end.
    rewrite <- app_assoc, !flat_map_app.
    cbn [flat_map app]. rewrite truthy_boxTop, truthy_boxLine, truthy_boxBottom.
    cbn [app]. eexists. rewrite app_nil_r, app_assoc. reflexivity.
Qed.

(** X5: the divider of the about section is a row of the box exactly when
    there is at least one wrapped about line; it is then followed by one
    row per about line and the bottom border. *)
Theorem render_about_section (p : profile) (columns : option Z) :
  (In (boxDivider (js "about") (boxWidth columns)) (renderLines p columns)
   <-> aboutLines p (boxWidth columns) <> [])
  /\ (aboutLines p (boxWidth columns) <> [] ->
      exists before,
        renderLines p columns
        = before
            ++ boxDivider (js "about") (boxWidth columns)
            :: map (fun l => boxLine (Some l) (boxWidth columns))
                   (aboutLines p (boxWidth columns))
            ++ [boxBottom (boxWidth columns)]).
Proof.
  assert (aboutLines p (boxWidth columns) <> [] ->
      exists before,
        renderLines p columns
        = before
            ++ boxDivider (js "about") (boxWidth columns)
            :: map (fun l => boxLine (Some l) (boxWidth columns))
                   (aboutLines p (boxWidth columns))
            ++ [boxBottom (boxWidth columns)]) as Hshape.
  { intros Hne. unfold renderLines, renderRows.
    generalize dependent (boxWidth columns). intros w Hne.
    destruct (aboutLines p w) as [|l ls] eqn:E; [easy|].
    change (0 <? length (l :: ls))%nat with true. cbv iota.
    match goal with
    | |- context [?a :: ?b :: ?c :: ?d :: ?e :: ?f :: ?g :: ?h :: ?i :: [?j]] =>
        change (a :: b :: c :: d :: e :: f :: g :: h :: i :: [j])
          with ([a; b; c; d; e; f; g; h; i] ++ [j])
    end.
    rewrite <- app_assoc, !flat_map_app.
    eexists. f_equal. cbn [flat_map app].
    rewrite truthy_boxDivider, truthy_boxBottom. cbn [app].
    f_equal. f_equal.
    replace (flat_map _ (map (fun l0 => Some (boxLine (Some l0) w)) (l :: ls)))
      with (map (fun l0 => boxLine (Some l0) w) (l :: ls)); [reflexivity|].
    generalize (l :: ls). intros x. induction x as [|y x IH]; [reflexivity|].
    cbn [map flat_map]. rewrite truthy_boxLine. cbn [app]. now f_equal. }
  split; [|exact Hshape]. split.
  - intros Hin Hnil. revert Hin. now apply render_about_divider_guarded.
  - intros Hne. destruct (Hshape Hne) as [before ->].
    apply in_or_app. right. now left.
Qed.

Lemma render_about_section_witness :
  exists before,
    renderLines
      {| displayName := None; username := None; pronouns := None;
         firstName := None; lastName := None; jobTitle := None;
         timeZone := None; email := None; website := None;
         about := Some (js "hello world"); bio := None |} None
    = before
        ++ boxDivider (js "about") (boxWidth None)
        :: map (fun l => boxLine (Some l) (boxWidth None))
               (aboutLines
                  {| displayName := None; username := None; pronouns := None;
                     firstName := None; lastName := None; jobTitle := None;
                     timeZone := None; email := None; website := None;
                     about := Some (js "hello world"); bio := None |}
                  (boxWidth None))
        ++ [boxBottom (boxWidth None)].
Proof.
  apply (render_about_section
           {| displayName := None; username := None; pronouns := None;
              firstName := None; lastName := None; jobTitle := None;
              timeZone := None; email := None; website := None;
              about := Some (js "hello world"); bio := None |} None).
  vm_compute. discriminate.
Defined.

(* ================================================================== *)
(** ** Further properties: styled text in a row *)

Lemma stripAnsi_sgr_app code str t :
  In code ["36"; "35"; "33"; "1"; "2"]%string -> plain str ->
  stripAnsi (color.sgr code str ++ t) = str ++ stripAnsi t.
Proof.
  intros Hcode Hplain. unfold color.sgr.
  assert (js code <> [] /\ length (js code) <= 4
          /\ Forall (fun x => isDigit x = true) (js code)) as (H1 & H2 & H3).
  { cbn [In] in Hcode.
    repeat (destruct Hcode as [<-|Hcode];
            [split; [discriminate|split; [cbn; lia|repeat constructor]]|]).
    destruct Hcode. }
  replace (([ESC] ++ js "[" ++ js code ++ js "m" ++ str ++ [ESC] ++ js "[0m")
             ++ t)
    with (ESC :: cu "[" :: js code ++ cu "m"
              :: str ++ (ESC :: cu "[" :: js "0" ++ cu "m" :: t)).
  - rewrite stripAnsi_sgr_prefix by assumption.
    rewrite stripAnsi_plain_prefix by assumption. f_equal.
    apply stripAnsi_sgr_prefix; [discriminate|cbn; lia|repeat constructor].
  - change ([ESC] ++ js "[" ++ js code ++ js "m" ++ str ++ [ESC] ++ js "[0m")
      with (ESC :: cu "[" :: js code
                ++ cu "m" :: str ++ [ESC; cu "["; cu "0"; cu "m"]).
    cbn [app js list_ascii_of_string map]. f_equal. f_equal.
    rewrite <- app_assoc. cbn [app]. f_equal. f_equal.
    rewrite <- app_assoc. reflexivity.
Qed.

(** X6: styling does not count.  A string without escape codes styled by
    one of the program's color helpers, followed by anything, strips to the
    string followed by what the rest strips to; its visible length is the
    length of the string plus the visible length of the rest. *)
Theorem styled_text_invisible (code : string) (str t : jsstring) :
  In code ["36"; "35"; "33"; "1"; "2"]%string ->
  plain str ->
  stripAnsi (color.sgr code str ++ t) = str ++ stripAnsi t
  /\ visibleLength (color.sgr code str ++ t)
     = (Z.of_nat (length str) + visibleLength t)%Z.
Proof.
  intros Hcode Hplain.
  pose proof (stripAnsi_sgr_app code str t Hcode Hplain) as E.
  split; [exact E|]. unfold visibleLength. rewrite E, length_app. lia.
Qed.

Lemma styled_text_invisible_witness :
  stripAnsi (color.yellow (js "Role:   ") ++ js " dev")
  = js "Role:   " ++ stripAnsi (js " dev").
Proof.
  apply (styled_text_invisible "33" (js "Role:   ") (js " dev")).
  - cbn. auto.
  - repeat constructor.
Defined.

(** X7: [stripAnsi] never makes a string longer, and leaves a string
    without an escape introducer (U+001B, U+009B) exactly as it is, also
    in front of text that has escape codes. *)
Theorem stripAnsi_conservative (s t : jsstring) :
  plain s ->
  stripAnsi s = s
  /\ stripAnsi (s ++ t) = s ++ stripAnsi t
  /\ (visibleLength t <= Z.of_nat (length t))%Z.
Proof.
  intros Hs. split; [now apply stripAnsi_plain|].
  split; [now apply stripAnsi_plain_prefix|apply visibleLength_le].
Qed.

Lemma stripAnsi_conservative_witness :
  stripAnsi (js "plain text") = js "plain text".
Proof.
  apply (stripAnsi_conservative (js "plain text") []). repeat constructor.
Defined.

Lemma stripAnsi_boxLine text width :
  stripAnsi (boxLine text width)
  = [BOX_V; SP; SP] ++ stripAnsi (boxRaw text width)
      ++ repeatStr [SP] (Z.to_nat (boxPadding text width))
      ++ [SP; SP; BOX_V].
Proof.
  unfold boxLine.
  change (repeatStr [SP] (Z.to_nat CONTENT_MARGIN)) with [SP].
  cbn [app].
  set (raw := boxRaw text width).
  set (n := Z.to_nat (boxPadding text width)).
  assert (exists t, repeatStr [SP] n ++ [SP; SP; BOX_V] = SP :: t
                    /\ plain (SP :: t)) as (t & Et & Pt).
  { destruct n as [|k].
    - exists [SP; BOX_V]. split; [reflexivity|repeat constructor].
    - exists (repeatStr [SP] k ++ [SP; SP; BOX_V]). split; [reflexivity|].
      constructor; [reflexivity|]. apply plain_app.
      + apply plain_repeat_SP.
      + repeat constructor. }
  change (BOX_V :: SP :: SP :: raw ++ repeatStr [SP] n ++ [SP; SP; BOX_V])
    with ([BOX_V; SP; SP] ++ raw ++ repeatStr [SP] n ++ [SP; SP; BOX_V]).
  rewrite Et, stripAnsi_frame; [|repeat constructor|exact Pt|reflexivity].
  reflexivity.
Qed.

Lemma plain_padEnd s n : plain s -> plain (padEnd s n).
Proof. intros H. apply plain_app; [exact H|apply plain_repeat_SP]. Qed.

(** X8: a field row.  An absent or empty value gives no row.  A value
    without escape codes that fits gives a row whose visible text is the
    label with its colon, padded with spaces to 8 columns, one space, the
    value, and spaces up to the right margin; so the values of labels of up
    to 7 code units start in the same column. *)
Theorem fieldLine_row (label value : jsstring) (width : Z) :
  plain label -> plain value -> value <> [] ->
  (Z.of_nat (length (padEnd (label ++ js ":") 8) + 1 + length value)
   <= width - 6)%Z ->
  fieldLine label None width = None
  /\ fieldLine label (Some []) width = None
  /\ (length label <= 7 -> length (padEnd (label ++ js ":") 8) = 8)
  /\ exists row,
       fieldLine label (Some value) width = Some row
       /\ stripAnsi row
          = [BOX_V; SP; SP] ++ padEnd (label ++ js ":") 8 ++ [SP] ++ value
              ++ repeatStr [SP]
                   (Z.to_nat (width - 6)
                    - (length (padEnd (label ++ js ":") 8) + 1 + length value))
              ++ [SP; SP; BOX_V].
Proof.
  intros Hl Hv Hne Hfit.
  split; [reflexivity|]. split; [reflexivity|]. split.
  { intros Hlen. unfold padEnd. rewrite !length_app, length_repeat_SP.
    cbn [length js list_ascii_of_string map]. lia. }
  set (lt := padEnd (label ++ js ":") 8) in *.
  assert (plain lt) as Hlt
    by (apply plain_padEnd, plain_app; [exact Hl|repeat constructor]).
  set (content := color.yellow lt ++ [SP] ++ value).
  assert (stripAnsi content = lt ++ [SP] ++ value) as Es.
  { unfold content, color.yellow.
    rewrite stripAnsi_sgr_app by (cbn; auto).
    f_equal. apply stripAnsi_plain. constructor; [reflexivity|exact Hv]. }
  assert (innerWidth width = width - 6)%Z as Ei
    by (unfold innerWidth, CONTENT_MARGIN; lia).
  assert (visibleLength content
          = Z.of_nat (length lt + 1 + length value)) as Ev.
  { unfold visibleLength. rewrite Es, !length_app. cbn [length]. lia. }
  assert (boxRaw (Some content) width = content) as Er.
  { unfold boxRaw. rewrite Ev, Ei.
    destruct (Z.gtb_spec (Z.of_nat (length lt + 1 + length value))
                         (width - 6)); [lia|reflexivity]. }
  exists (boxLine (Some content) width). split.
  - unfold fieldLine. destruct value as [|c v]; [easy|]. reflexivity.
  - rewrite stripAnsi_boxLine. unfold boxPadding. rewrite Er, Es, Ev, Ei.
    rewrite <- !app_assoc. cbn [app].
    replace (Z.to_nat
               (Z.max 0
                  (width - 6
                   - Z.of_nat (length lt + 1 + length value))))
      with (Z.to_nat (width - 6) - (length lt + 1 + length value))
      by lia.
    reflexivity.
Qed.

Lemma fieldLine_row_witness :
  exists row,
    fieldLine (js "Role") (Some (js "Engineer")) 60 = Some row
    /\ stripAnsi row
       = [BOX_V; SP; SP] ++ padEnd (js "Role" ++ js ":") 8 ++ [SP]
           ++ js "Engineer"
           ++ repeatStr [SP]
                (Z.to_nat (60 - 6)
                 - (length (padEnd (js "Role" ++ js ":") 8) + 1
                    + length (js "Engineer")))
           ++ [SP; SP; BOX_V].
Proof.
  apply (fieldLine_row (js "Role") (js "Engineer") 60).
  - repeat constructor.
  - repeat constructor.
  - discriminate.
  - vm_compute. discriminate.
Defined.

Lemma trimEnd_snoc_space s c :
  isSpace c = true -> trimEnd (s ++ [c]) = trimEnd s.
Proof.
  intros H. unfold trimEnd. rewrite rev_app_distr. cbn [rev app dropWhile].
  now rewrite H.
Qed.

Lemma trimEnd_snoc_word s c :
  isSpace c = false -> trimEnd (s ++ [c]) = s ++ [c].
Proof.
  intros H. unfold trimEnd. rewrite rev_app_distr. cbn [rev app dropWhile].
  rewrite H. cbn [rev]. now rewrite rev_involutive.
Qed.

Lemma trim_keeps c u d :
  isSpace c = false -> isSpace d = false ->
  trim (c :: u ++ [d]) = c :: u ++ [d].
Proof.
  intros Hc Hd. unfold trim, trimStart. cbn [dropWhile]. rewrite Hc.
  change (c :: u ++ [d]) with ((c :: u) ++ [d]).
  now apply trimEnd_snoc_word.
Qed.

Lemma trim_drops_final_space c u d e :
  isSpace c = false -> isSpace d = false -> isSpace e = true ->
  trim (c :: u ++ [d] ++ [e]) = c :: u ++ [d].
Proof.
  intros Hc Hd He. unfold trim, trimStart. cbn [dropWhile]. rewrite Hc.
  change (c :: u ++ [d] ++ [e]) with ((c :: u) ++ [d] ++ [e]).
  rewrite app_assoc, trimEnd_snoc_space by exact He.
  now apply trimEnd_snoc_word.
Qed.

Lemma bold_ends name :
  color.bold name
  = ESC :: (js "[1m" ++ name ++ [ESC] ++ js "[0") ++ [cu "m"].
Proof.
  unfold color.bold, color.sgr. cbn [app js list_ascii_of_string map].
  do 4 f_equal. rewrite <- app_assoc. reflexivity.
Qed.

(** X9: the header is the bold name, the display name if there is one,
    else the user name, else the product name Zephinax, followed by the
    pronouns in parentheses after one space when there are pronouns, and by
    nothing, not even the space, when there are none. *)
Theorem header_shape (p : profile) :
  header p
  = color.bold
      (orEmpty (orElse (orElse (displayName p) (username p))
                       (Some (js "Zephinax"))))
    ++ (if truthyOpt (pronouns p)
        then js " (" ++ orEmpty (pronouns p) ++ js ")"
        else [])
  /\ orEmpty (orElse (orElse (displayName p) (username p))
                     (Some (js "Zephinax"))) <> [].
Proof.
  split.
  - unfold header.
    set (name := orEmpty (orElse (orElse (displayName p) (username p))
                                 (Some (js "Zephinax")))).
    rewrite bold_ends. set (B := js "[1m" ++ name ++ [ESC] ++ js "[0").
    destruct (truthyOpt (pronouns p)).
    + replace ((ESC :: B ++ [cu "m"]) ++ [SP]
                 ++ js "(" ++ orEmpty (pronouns p) ++ js ")")
        with (ESC :: (B ++ [cu "m"] ++ [SP] ++ js "("
                        ++ orEmpty (pronouns p)) ++ [cu ")"]).
      * rewrite trim_keeps by reflexivity.
        cbn [app]. rewrite <- !app_assoc. reflexivity.
      * cbn [app]. rewrite <- !app_assoc. reflexivity.
    + rewrite !app_nil_r.
      change ((ESC :: B ++ [cu "m"]) ++ [SP])
        with (ESC :: (B ++ [cu "m"]) ++ [SP]).
      rewrite <- app_assoc.
      now rewrite trim_drops_final_space by reflexivity.
  - unfold orEmpty, orElse, truthyOpt.
    destruct (displayName p) as [[|c d]|]; cbn [truthy];
      try discriminate;
      destruct (username p) as [[|c' u]|]; cbn [truthy]; discriminate.
Qed.

Lemma plain_firstn n s : plain s -> plain (firstn n s).
Proof.
  intros H. rewrite <- (firstn_skipn n s) in H.
  apply Forall_app in H. now destruct H.
Qed.

(** X10: truncation.  When the visible length of the text exceeds the
    room of the row, the row holds the first [width - 7] code units of the
    stripped text and one ellipsis, with no padding: the styling of the text
    is gone and the row is full. *)
Theorem boxLine_truncated (content : jsstring) (width : Z) :
  (7 <= width)%Z ->
  (visibleLength content > width - 6)%Z ->
  plain (stripAnsi content) ->
  boxLine (Some content) width
  = [BOX_V; SP; SP]
      ++ firstn (Z.to_nat (width - 7)) (stripAnsi content)
      ++ [ELLIPSIS] ++ [SP; SP; BOX_V].
Proof.
  intros Hw Hlong Hplain.
  assert (innerWidth width = width - 6)%Z as Ei
    by (unfold innerWidth, CONTENT_MARGIN; lia).
  assert (boxRaw (Some content) width
          = firstn (Z.to_nat (width - 7)) (stripAnsi content) ++ [ELLIPSIS])
    as Er.
  { unfold boxRaw. rewrite Ei.
    destruct (Z.gtb_spec (visibleLength content) (width - 6)); [|lia].
    f_equal. unfold slice, sliceIndex, visibleLength in *.
    change (0 <? 0)%Z with false. cbv iota.
    destruct (Z.ltb_spec (width - 6 - 1) 0); [lia|].
    rewrite (Z.min_l 0) by lia. rewrite (Z.min_l (width - 6 - 1)) by lia.
    cbn [Z.to_nat skipn]. f_equal. lia. }
  assert (visibleLength (boxRaw (Some content) width) = width - 6)%Z as Ev.
  { rewrite Er. unfold visibleLength in *. rewrite stripAnsi_plain.
    - rewrite length_app, length_firstn. cbn [length]. lia.
    - apply plain_app; [now apply plain_firstn|repeat constructor]. }
  unfold boxLine, boxPadding. rewrite Ev, Ei, Er.
  replace (Z.to_nat (Z.max 0 (width - 6 - (width - 6)))) with 0 by lia.
  change (repeatStr [SP] (Z.to_nat CONTENT_MARGIN)) with [SP].
  cbn [repeatStr app]. rewrite <- !app_assoc. reflexivity.
Qed.

Lemma boxLine_truncated_witness :
  boxLine (Some (color.cyan (js "hello world"))) 12
  = [BOX_V; SP; SP]
      ++ firstn (Z.to_nat (12 - 7)) (stripAnsi (color.cyan (js "hello world")))
      ++ [ELLIPSIS] ++ [SP; SP; BOX_V].
Proof.
  apply (boxLine_truncated (color.cyan (js "hello world")) 12).
  - lia.
  - vm_compute. reflexivity.
  - vm_compute. repeat constructor.
Defined.

(* ================================================================== *)
(** ** Further properties: wrapping *)

(** X11: [wrapText] gives no line exactly when the text has no word:
    empty text and text of whitespace only wrap to nothing, any other text
    to at least one line. *)
Theorem wrapText_empty_iff (text : jsstring) (width : Z) (indent : nat) :
  wrapText text width indent = [] <-> wordsOf text = [].
Proof.
  rewrite wrapText_groups, <- (concat_textGroups text width).
  pose proof (nonnil_textGroups text width) as Hne.
  destruct (textGroups text width) as [|g l]; [easy|].
  split; [discriminate|]. cbn [concat]. intros E.
  apply app_eq_nil in E. destruct E as [-> _].
  inversion Hne as [|? ? Hg _]; subst. now elim Hg.
Qed.

Lemma splitFrom_prev r skip p q cur s :
  bolFree r = true ->
  splitFrom r skip p cur s = splitFrom r skip q cur s.
Proof.
  intros Hb. destruct s as [|c t]; destruct skip as [|k]; cbn [splitFrom];
    try reflexivity; now rewrite (exec_prev r p q _ Hb).
Qed.

Lemma splitFrom_reNewline_LF p cur t :
  splitFrom reNewline 0 p cur (LF :: t)
  = cur :: splitFrom reNewline 0 None [] t.
Proof.
  cbn [splitFrom]. rewrite exec_reNewline.
  change (N.eqb CR LF) with false. change (N.eqb LF LF) with true.
  cbn [andb]. f_equal. now apply splitFrom_prev.
Qed.

Lemma splitFrom_reNewline_CRLF p cur t :
  splitFrom reNewline 0 p cur (CR :: LF :: t)
  = cur :: splitFrom reNewline 0 None [] t.
Proof.
  cbn [splitFrom]. rewrite exec_reNewline.
  change (N.eqb CR CR) with true. change (N.eqb LF LF) with true.
  cbn [andb]. f_equal. now apply splitFrom_prev.
Qed.

Lemma splitFrom_reNewline_other p cur c t :
  c <> LF ->
  (c = CR -> match t with d :: _ => d <> LF | [] => True end) ->
  splitFrom reNewline 0 p cur (c :: t)
  = splitFrom reNewline 0 None (cur ++ [c]) t.
Proof.
  intros Hc Ht. cbn [splitFrom]. rewrite exec_reNewline.
  replace (N.eqb LF c) with false
    by (symmetry; apply N.eqb_neq; congruence).
  replace (N.eqb CR c && match t with d :: _ => N.eqb LF d | [] => false end)%bool
    with false.
  - now apply splitFrom_prev.
  - symmetry. destruct (N.eqb_spec CR c) as [E|]; [|reflexivity].
    cbn [andb]. specialize (Ht (eq_sym E)). destruct t as [|d t]; [reflexivity|].
    apply N.eqb_neq. congruence.
Qed.

Lemma dropWhile_snoc p s c :
  dropWhile p (s ++ [c])
  = match dropWhile p s with
    | [] => dropWhile p [c]
    | x :: u => (x :: u) ++ [c]
    end.
Proof.
  induction s as [|d s IH]; [reflexivity|].
  cbn [app dropWhile]. destruct (p d); [exact IH|reflexivity].
Qed.

Lemma trim_snoc_space s c : isSpace c = true -> trim (s ++ [c]) = trim s.
Proof.
  intros H. unfold trim, trimStart. rewrite dropWhile_snoc.
  destruct (dropWhile isSpace s) as [|x u].
  - cbn [dropWhile]. now rewrite H.
  - now apply trimEnd_snoc_space.
Qed.

Lemma split_reNewline_all s :
  split reNewline s = splitFrom reNewline 0 None [] s.
Proof. destruct s; reflexivity. Qed.

(** Splitting at line breaks, then trimming: a line feed between two texts
    separates the pieces of the one from the pieces of the other. *)
Lemma trimmed_pieces_LF b n :
  forall a cur, length a <= n ->
  map trim (splitFrom reNewline 0 None cur (a ++ LF :: b))
  = map trim (splitFrom reNewline 0 None cur a)
      ++ map trim (splitFrom reNewline 0 None [] b).
Proof.
  induction n as [|n IH]; intros a cur Hlen.
  - destruct a; [|cbn in Hlen; lia].
    cbn [app]. now rewrite splitFrom_reNewline_LF.
  - destruct a as [|c a]; [cbn [app]; now rewrite splitFrom_reNewline_LF|].
    cbn [length] in Hlen.
    destruct (N.eq_dec c LF) as [->|Hc].
    { cbn [app]. rewrite !splitFrom_reNewline_LF. cbn [map app]. f_equal.
      apply IH. lia. }
    destruct (N.eq_dec c CR) as [->|Hr].
    + destruct a as [|d a].
      * cbn [app]. rewrite splitFrom_reNewline_CRLF.
        rewrite splitFrom_reNewline_other by (auto; discriminate).
        cbn [splitFrom map app]. f_equal.
        symmetry. now apply trim_snoc_space.
      * destruct (N.eq_dec d LF) as [->|Hd].
        -- cbn [app]. rewrite !splitFrom_reNewline_CRLF. cbn [map app].
           f_equal. apply IH. cbn [length] in Hlen. lia.
        -- cbn [app].
           rewrite !(splitFrom_reNewline_other _ _ CR) by (auto; discriminate).
           apply (IH (d :: a)). lia.
    + cbn [app]. rewrite !(splitFrom_reNewline_other _ _ c) by easy.
      apply IH. lia.
Qed.

Lemma paragraphs_LF a b :
  paragraphs (a ++ LF :: b) = paragraphs a ++ paragraphs b.
Proof.
  unfold paragraphs. rewrite !split_reNewline_all.
  rewrite (trimmed_pieces_LF b (length a) a [] (le_n _)).
  apply filter_app.
Qed.

Lemma wrapText_paragraphs text width indent :
  wrapText text width indent
  = flat_map (wrapPara width (repeatStr [SP] indent)) (paragraphs text).
Proof. destruct text; reflexivity. Qed.

(** X12: a line feed is a hard break: wrapping two texts joined by a line
    feed gives the lines of the first followed by the lines of the second;
    no line holds words of both. *)
Theorem wrapText_line_feed (a b : jsstring) (width : Z) (indent : nat) :
  wrapText (a ++ LF :: b) width indent
  = wrapText a width indent ++ wrapText b width indent.
Proof.
  rewrite !wrapText_paragraphs, paragraphs_LF. apply flat_map_app.
Qed.

Lemma greedyBreaks_snoc width l g w :
  greedyBreaks width (l ++ [g]) ->
  (Z.of_nat (length (join [SP] (g ++ [w]))) > width)%Z ->
  greedyBreaks width (l ++ [g; [w]]).
Proof.
  intros H Hover. induction l as [|x l IH].
  - cbn. auto.
  - cbn [app greedyBreaks] in *. destruct H as [Hx Hl]. split; [|now apply IH].
    destruct l; exact Hx.
Qed.

Lemma greedyBreaks_extend_last width l g x :
  greedyBreaks width (l ++ [g]) -> g <> [] ->
  greedyBreaks width (l ++ [g ++ x]).
Proof.
  intros H Hg. induction l as [|y l IH].
  - cbn. auto.
  - cbn [app greedyBreaks] in *. destruct H as [Hy Hl]. split; [|now apply IH].
    destruct l as [|z l]; [|exact Hy].
    cbn [app] in *. destruct g as [|w g]; [easy|exact Hy].
Qed.

Lemma greedyBreaks_fold width ws :
  forall gs cur,
  greedyBreaks width (flushGroups (gs, cur)) -> (cur = [] -> gs = []) ->
  greedyBreaks width (flushGroups (fold_left (groupStep width) ws (gs, cur))).
Proof.
  induction ws as [|w ws IH]; intros gs cur Hg Hnil; [exact Hg|].
  cbn [fold_left]. unfold groupStep at 2.
  destruct (Z.gtb_spec (Z.of_nat (length (join [SP] (cur ++ [w])))) width)
    as [Hover|Hfit].
  - apply IH; [|discriminate].
    destruct cur as [|c cur].
    + rewrite (Hnil eq_refl). cbn. auto.
    + cbn [flushGroups] in *. rewrite <- app_assoc.
      apply greedyBreaks_snoc; [exact Hg|lia].
  - apply IH.
    + destruct cur as [|c cur].
      * rewrite (Hnil eq_refl). cbn. auto.
      * cbn [flushGroups] in Hg.
        apply (greedyBreaks_extend_last width gs (c :: cur) [w]) in Hg;
          [|discriminate].
        exact Hg.
    + intros E. now destruct cur.
Qed.

Lemma greedyBreaks_wrapGroups width ws : greedyBreaks width (wrapGroups width ws).
Proof.
  unfold wrapGroups. apply greedyBreaks_fold; [exact I|reflexivity].
Qed.

(** X13: the packing is greedy.  The lines of a text without line feed
    are its words, in order, in groups joined by one space, and the first
    word of every line after the first would have overflowed the width at
    the end of the line before it. *)
Theorem wrapText_greedy_breaks (text : jsstring) (width : Z) (indent : nat) :
  ~ In LF text ->
  exists groups,
    wrapText text width indent
    = map (fun g => repeatStr [SP] indent ++ join [SP] g) groups
    /\ concat groups = wordsOf text
    /\ greedyBreaks width groups.
Proof.
  intros Hline. exists (textGroups text width).
  split; [apply wrapText_groups|]. split; [apply concat_textGroups|].
  unfold textGroups. destruct (trim text) as [|c u] eqn:E.
  - replace (paragraphs text) with (@nil (list N)); [exact I|].
    unfold paragraphs. destruct text as [|x t]; [reflexivity|].
    unfold split. rewrite splitFrom_dead by (now apply dead_reNewline).
    cbn [app map filter]. now rewrite E.
  - rewrite paragraphs_single by (auto; rewrite E; discriminate).
    cbn [flat_map]. rewrite app_nil_r. apply greedyBreaks_wrapGroups.
Qed.

Lemma wrapText_greedy_breaks_witness :
  exists groups,
    wrapText (js "the quick  brown fox") 9 0
    = map (fun g => repeatStr [SP] 0 ++ join [SP] g) groups
    /\ concat groups = wordsOf (js "the quick  brown fox")
    /\ greedyBreaks 9 groups.
Proof.
  apply (wrapText_greedy_breaks (js "the quick  brown fox") 9 0).
  vm_compute. intros H. repeat (destruct H as [H|H]; [discriminate|]).
  exact H.
Defined.

(* ================================================================== *)
(** ** Further properties: the entry point *)





(* ================================================================== *)
(** ** Further properties: sections of the box, and the earlier renderer *)

Lemma clean_falsy a b :
  truthyOpt a = false -> truthyOpt b = false -> clean (orElse a b) = [].
Proof.
  intros Ha Hb. unfold orElse. rewrite Ha.
  destruct b as [[|c s]|]; [reflexivity|discriminate|reflexivity].
Qed.

Lemma fieldLine_falsy label value width :
  truthyOpt value = false -> fieldLine label value width = None.
Proof. intros H. unfold fieldLine. now rewrite H. Qed.

(** The array that [render] joins, for a profile with nothing below the
    header. *)
Lemma renderLines_header_only (p : profile) (columns : option Z) :
  headerOnly p ->
  renderLines p columns
  = [ boxTop (js "Profile") (boxWidth columns);
      boxLine (Some (color.cyan (header p))) (boxWidth columns);
      boxDivider (js "details") (boxWidth columns);
      boxDivider (js "contact") (boxWidth columns);
      boxBottom (boxWidth columns) ].
Proof.
  intros (H1 & H2 & H3 & H4 & H5 & H6 & H7 & H8).
  unfold renderLines, renderRows, aboutLines, fullName.
  rewrite H1, H2, (clean_falsy _ _ H7 H8).
  rewrite !fieldLine_falsy by assumption.
  cbn [orb truthyOpt truthy length Nat.ltb Nat.leb map app flat_map].
  rewrite truthy_boxTop, truthy_boxLine, !truthy_boxDivider, truthy_boxBottom.
  reflexivity.
Qed.

Lemma legacy_boxRaw_fits text width :
  (5 <= width)%Z ->
  (visibleLength (Legacy.boxRaw text width) <= Legacy.innerWidth width)%Z.
Proof.
  intros Hw. unfold Legacy.boxRaw.
  set (content := match text with Some t => t | None => [] end).
  destruct (Z.gtb_spec (visibleLength content) (Legacy.innerWidth width))
    as [Hgt|Hle]; [|exact Hle].
  etransitivity; [apply visibleLength_le|].
  rewrite length_app. cbn [length].
  assert (1 <= Legacy.innerWidth width)%Z by (unfold Legacy.innerWidth; lia).
  pose proof (length_slice_le (stripAnsi content) (Legacy.innerWidth width - 1)).
  lia.
Qed.

Lemma legacy_stripAnsi_boxLine text width :
  stripAnsi (Legacy.boxLine text width)
  = [BOX_V; SP] ++ stripAnsi (Legacy.boxRaw text width)
      ++ repeatStr [SP] (Z.to_nat (Legacy.boxPadding text width))
      ++ [SP; BOX_V].
Proof.
  unfold Legacy.boxLine.
  set (raw := Legacy.boxRaw text width).
  set (n := Z.to_nat (Legacy.boxPadding text width)).
  assert (exists t, repeatStr [SP] n ++ [SP; BOX_V] = SP :: t
                    /\ plain (SP :: t)) as (t & Et & Pt).
  { destruct n as [|k].
    - exists [BOX_V]. split; [reflexivity|repeat constructor].
    - exists (repeatStr [SP] k ++ [SP; BOX_V]). split; [reflexivity|].
      constructor; [reflexivity|]. apply plain_app.
      + apply plain_repeat_SP.
      + repeat constructor. }
  rewrite Et, stripAnsi_frame; [|repeat constructor|exact Pt|reflexivity].
  reflexivity.
Qed.

Lemma legacy_boxLine_row_width text width :
  (5 <= width)%Z -> visibleLength (Legacy.boxLine text width) = width.
Proof.
  intros Hw. pose proof (legacy_boxRaw_fits text width Hw) as Hfit.
  unfold visibleLength in *. rewrite legacy_stripAnsi_boxLine.
  rewrite !length_app, length_repeat_SP. cbn [length].
  unfold Legacy.boxPadding, visibleLength, Legacy.innerWidth in *. lia.
Qed.

(** X18: in the earlier renderer a content row has one space inside each
    border and no margin: for every text and every width of at least 5 its
    visible length is exactly [width]. *)
Theorem legacy_boxLine_visible_width (text : option jsstring) (width : Z) :
  (5 <= width)%Z ->
  visibleLength (Legacy.boxLine text width) = width
  /\ (visibleLength (Legacy.boxRaw text width) <= width - 4)%Z.
Proof.
  intros Hw. split; [now apply legacy_boxLine_row_width|].
  pose proof (legacy_boxRaw_fits text width Hw).
  unfold Legacy.innerWidth in *. lia.
Qed.

Lemma legacy_boxLine_visible_width_witness :
  visibleLength (Legacy.boxLine (Some (color.dim (js "Ada Lovelace"))) 10)
  = 10%Z.
Proof.
  apply (legacy_boxLine_visible_width (Some (color.dim (js "Ada Lovelace"))) 10).
  lia.
Defined.

Lemma truthy_legacy_boxLine text width :
  truthy (Legacy.boxLine text width) = true.
Proof. reflexivity. Qed.

(** The array that the earlier [render] joins. *)
Lemma legacy_renderLines_shape (p : profile) (columns : option Z) :
  Forall (fun row => visibleLength row = boxWidth columns)
         (Legacy.renderLines p columns)
  /\ (headerOnly p ->
      Legacy.renderLines p columns
      = [ boxTop (js "Profile") (boxWidth columns);
          Legacy.boxLine (Some (color.cyan (header p))) (boxWidth columns);
          boxBottom (boxWidth columns) ]).
Proof.
  pose proof (boxWidth_range columns) as Hw.
  unfold Legacy.renderLines. generalize dependent (boxWidth columns).
  intros w Hw. split.
  - assert (forall t, visibleLength (Legacy.boxLine t w) = w) as Hline
      by (intros t; apply legacy_boxLine_row_width; lia).
    apply Forall_present. unfold Legacy.renderRows.
    apply Forall_app. split; [|apply Forall_app; split].
    + constructor.
      { rewrite boxTop_width_helper by (repeat constructor).
        change (truthy (js "Profile")) with true.
        change (Z.of_nat (length (js "Profile"))) with 7%Z.
        cbv iota. lia. }
      constructor; [apply Hline|].
      constructor; [destruct (truthyOpt _); [apply Hline|exact I]|].
      constructor; [destruct (truthy _); [apply Hline|exact I]|].
      constructor; [destruct (truthy _); [apply Hline|exact I]|].
      constructor; [|constructor].
      destruct (0 <? _)%nat; [|exact I].
      apply visibleLength_section_divider; [right; right; left; reflexivity|lia].
    + apply Forall_map, Forall_forall. intros l _. apply Hline.
    + constructor; [|constructor]. rewrite boxBottom_width_helper. lia.
  - intros (H1 & H2 & H3 & H4 & H5 & H6 & H7 & H8).
    assert (forall a b, truthyOpt a = false -> truthyOpt b = false ->
                        Legacy.joinPresent [a; b] = []) as Hj.
    { intros a b Ha Hb. unfold Legacy.joinPresent.
      destruct a as [[|x a]|], b as [[|y b]|]; try discriminate; reflexivity. }
    unfold Legacy.renderRows, Legacy.aboutLines, fullName.
    rewrite H1, H2, (clean_falsy _ _ H7 H8), (Hj _ _ H3 H4), (Hj _ _ H5 H6).
    cbn [orb truthyOpt truthy length Nat.ltb Nat.leb map app flat_map].
    rewrite truthy_boxTop, truthy_legacy_boxLine, truthy_boxBottom.
    reflexivity.
Qed.

(* ================================================================== *)
(** ** Further properties: cleaning the about text *)

Lemma matches_break_tail q u :
  match u with
  | d :: u' =>
      if N.eqb LF d
      then exists q' l,
             matches (Seq (lit LF) (star (Chr isSpace))) (q, u)
             = (q', skipn (spanLen isSpace u') u') :: l
      else matches (Seq (lit LF) (star (Chr isSpace))) (q, u) = []
  | [] => matches (Seq (lit LF) (star (Chr isSpace))) (q, u) = []
  end.
Proof.
  destruct u as [|d u']; [reflexivity|].
  rewrite matches_Seq. unfold lit. rewrite matches_Chr.
  destruct (N.eqb LF d); [|reflexivity].
  cbn [flat_map]. rewrite app_nil_r.
  destruct (firstly_star_Chr isSpace (Some d) u') as (q' & l & E).
  exists q', l. exact E.
Qed.

Lemma exec_reBreak p s :
  exec reBreak (p, s)
  = match s with
    | c :: t =>
        if (N.eqb CR c && match t with d :: _ => N.eqb LF d | [] => false end)%bool
        then Some (2 + spanLen isSpace (tl t))
        else if N.eqb LF c then Some (1 + spanLen isSpace t) else None
    | [] => None
    end.
Proof.
  unfold exec, reBreak. rewrite matches_Seq.
  change (opt (lit CR)) with (opt (Chr (N.eqb CR))).
  rewrite matches_opt_Chr. destruct s as [|c t].
  - cbn [flat_map]. pose proof (matches_break_tail p []) as E.
    cbv beta iota in E. now rewrite E.
  - destruct (N.eqb_spec CR c) as [<-|Hc].
    + cbn [flat_map andb].
      pose proof (matches_break_tail p (CR :: t)) as E2.
      cbv beta iota in E2. change (N.eqb LF CR) with false in E2.
      cbv iota in E2. rewrite E2, app_nil_r.
      pose proof (matches_break_tail (Some CR) t) as E1.
      destruct t as [|d t']; [now rewrite E1|].
      destruct (N.eqb LF d).
      * destruct E1 as (q' & l & ->). cbn [app rest snd tl length].
        rewrite length_skipn. pose proof (spanLen_le isSpace t'). f_equal. lia.
      * now rewrite E1.
    + cbn [flat_map andb]. rewrite app_nil_r.
      pose proof (matches_break_tail p (c :: t)) as E.
      cbv beta iota in E. destruct (N.eqb LF c).
      * destruct E as (q' & l & ->). cbn [rest snd length].
        rewrite length_skipn. pose proof (spanLen_le isSpace t). f_equal. lia.
      * now rewrite E.
Qed.

Lemma replace_reBreak_tight s :
  forall skip p,
  (skip = 0 ->
   lineFeedsTight (replaceFrom reBreak [LF] 0 p s) = true
   /\ match s with
      | c :: _ => isSpace c = false ->
                  exists o, replaceFrom reBreak [LF] 0 p s = c :: o
      | [] => True
      end)
  /\ (skip = spanLen isSpace s ->
      lineFeedsTight (replaceFrom reBreak [LF] skip p s) = true
      /\ match replaceFrom reBreak [LF] skip p s with
         | d :: _ => isSpace d = false
         | [] => True
         end).
Proof.
  induction s as [|c t IH]; intros skip p.
  - split; intros ->; cbn [replaceFrom spanLen]; rewrite exec_reBreak;
      cbn; auto.
  - assert (skip = 0 ->
            lineFeedsTight (replaceFrom reBreak [LF] 0 p (c :: t)) = true
            /\ (isSpace c = false ->
                exists o, replaceFrom reBreak [LF] 0 p (c :: t) = c :: o))
      as Part1.
    { intros _. cbn [replaceFrom]. rewrite exec_reBreak.
      destruct (N.eqb_spec CR c) as [<-|Hc]; cbn [andb].
      - destruct t as [|d t'].
        + cbn [replaceFrom app]. change (N.eqb LF CR) with false. cbv iota.
          cbn [replaceFrom]. rewrite exec_reBreak. split; [reflexivity|].
          intros _. eexists. reflexivity.
        + destruct (N.eqb_spec LF d) as [<-|Hd].
          * cbn [Nat.add tl app].
            destruct (proj2 (IH (S (spanLen isSpace t')) (Some CR)))
              as [Hw Hh]; [reflexivity|].
            split; [|discriminate].
            cbn [lineFeedsTight]. change (N.eqb LF LF) with true. cbv iota.
            rewrite Hw, andb_true_r.
            destruct (replaceFrom reBreak [LF] (S (spanLen isSpace t'))
                                  (Some CR) (LF :: t')); [reflexivity|].
            now rewrite Hh.
          * change (N.eqb LF CR) with false. cbv iota.
            destruct (proj1 (IH 0 (Some CR)) eq_refl) as [Hw _].
            split; [|intros _; eexists; reflexivity].
            cbn [lineFeedsTight]. change (N.eqb CR LF) with false.
            cbv iota. exact Hw.
      - destruct (N.eqb_spec LF c) as [<-|Hl].
        + cbn [Nat.add app].
          destruct (proj2 (IH (spanLen isSpace t) (Some LF)) eq_refl)
            as [Hw Hh].
          split; [|discriminate].
          cbn [lineFeedsTight]. change (N.eqb LF LF) with true. cbv iota.
          rewrite Hw, andb_true_r.
          destruct (replaceFrom reBreak [LF] (spanLen isSpace t) (Some LF) t);
            [reflexivity|]. now rewrite Hh.
        + destruct (proj1 (IH 0 (Some c)) eq_refl) as [Hw _].
          split; [|intros _; eexists; reflexivity].
          cbn [lineFeedsTight].
          replace (N.eqb c LF) with false
            by (symmetry; apply N.eqb_neq; congruence).
          exact Hw. }
    split; [exact Part1|].
    cbn [spanLen]. destruct (isSpace c) eqn:Ec; intros ->.
    + cbn [replaceFrom]. now apply (proj2 (IH (spanLen isSpace t) (Some c))).
    + destruct (Part1 eq_refl) as [Hw Ho]. split; [exact Hw|].
      destruct (Ho eq_refl) as [o ->]. exact Ec.
Qed.

Lemma lineFeedsTight_tail c t :
  lineFeedsTight (c :: t) = true -> lineFeedsTight t = true.
Proof. cbn [lineFeedsTight]. intros H. now apply andb_true_iff in H. Qed.

Lemma lineFeedsTight_dropWhile s :
  lineFeedsTight s = true -> lineFeedsTight (dropWhile isSpace s) = true.
Proof.
  induction s as [|c t IH]; [reflexivity|]. intros H.
  cbn [dropWhile]. destruct (isSpace c); [|exact H].
  apply IH. eapply lineFeedsTight_tail; eauto.
Qed.

Lemma noBlankAfterLF_prefix a sp :
  lineFeedsTight (a ++ sp) = true -> lastNonSpace a = true ->
  noBlankAfterLF a = true.
Proof.
  induction a as [|c a IH]; [reflexivity|]. intros Hw Hl.
  cbn [app lineFeedsTight] in Hw. apply andb_true_iff in Hw.
  destruct Hw as [Hc Hw]. cbn [noBlankAfterLF].
  destruct a as [|d a'].
  - cbn [lastNonSpace] in Hl. apply negb_true_iff in Hl.
    destruct (N.eqb_spec c LF) as [->|_]; [discriminate|reflexivity].
  - rewrite IH by (auto; exact Hl). rewrite andb_true_r.
    destruct (N.eqb c LF); [exact Hc|reflexivity].
Qed.

(** X20: the cleaned about text is empty or starts and ends with a code
    unit that is not whitespace, and in it a code unit that is not
    whitespace follows every line feed: after a line feed there is no empty
    line and no indentation.  An absent or empty text cleans to the empty
    string. *)
Theorem clean_shape (text : option jsstring) :
  (clean text = []
   \/ exists c u, clean text = c :: u /\ isSpace c = false
                  /\ lastNonSpace (c :: u) = true)
  /\ noBlankAfterLF (clean text) = true
  /\ clean None = [] /\ clean (Some []) = [].
Proof.
  split; [|split; [|split; reflexivity]].
  - destruct text as [[|c t]|]; [now left| |now left].
    cbn [clean]. apply trim_shape.
  - destruct text as [[|c t]|]; [reflexivity| |reflexivity].
    cbn [clean].
    set (x := replaceAll reQuote [] (replaceAll reBold [] (c :: t))).
    pose proof (proj1 (proj1 (replace_reBreak_tight x 0 None) eq_refl)) as Hw.
    change (replaceFrom reBreak [LF] 0 None x)
      with (replaceAll reBreak [LF] x) in Hw.
    set (y := replaceAll reBreak [LF] x) in *.
    apply lineFeedsTight_dropWhile in Hw.
    unfold trim, trimStart.
    destruct (trimEnd_split (dropWhile isSpace y)) as (sp & E & _).
    rewrite E in Hw.
    destruct (trimEnd (dropWhile isSpace y)) as [|d z] eqn:Et; [reflexivity|].
    apply (noBlankAfterLF_prefix _ sp Hw).
    rewrite <- Et. apply trimEnd_last. rewrite Et. discriminate.
Qed.

(* ================================================================== *)
(** ** Further properties: rows that fit, and wrapping again *)

(** X21: a text that fits is kept as it is, escape codes included, and
    padded with spaces up to the right margin; an absent text gives a row of
    spaces between the borders. *)
Theorem boxLine_fitting (text : option jsstring) (width : Z) :
  (visibleLength (match text with Some t => t | None => [] end)
   <= Z.max 0 (width - 6))%Z ->
  boxLine text width
  = [BOX_V; SP; SP]
      ++ match text with Some t => t | None => [] end
      ++ repeatStr [SP]
           (Z.to_nat
              (Z.max 0 (width - 6)
               - visibleLength (match text with Some t => t | None => [] end)))
      ++ [SP; SP; BOX_V].
Proof.
  intros Hfit. unfold boxLine, boxPadding, boxRaw.
  replace (innerWidth width) with (Z.max 0 (width - 6))%Z
    by (unfold innerWidth, CONTENT_MARGIN; lia).
  set (content := match text with Some t => t | None => [] end) in *.
  destruct (Z.gtb_spec (visibleLength content) (Z.max 0 (width - 6)));
    [lia|].
  change (repeatStr [SP] (Z.to_nat CONTENT_MARGIN)) with [SP].
  replace (Z.max 0 (Z.max 0 (width - 6) - visibleLength content))
    with (Z.max 0 (width - 6) - visibleLength content)%Z by lia.
  reflexivity.
Qed.

Lemma boxLine_fitting_witness :
  boxLine (Some (color.dim (js "Ada"))) 12
  = [BOX_V; SP; SP] ++ color.dim (js "Ada")
      ++ repeatStr [SP]
           (Z.to_nat (Z.max 0 (12 - 6) - visibleLength (color.dim (js "Ada"))))
      ++ [SP; SP; BOX_V].
Proof.
  apply (boxLine_fitting (Some (color.dim (js "Ada"))) 12).
  vm_compute. discriminate.
Defined.

Lemma paragraphs_join_LF ls :
  paragraphs (join [LF] ls) = flat_map paragraphs ls.
Proof.
  induction ls as [|x l IH]; [reflexivity|].
  destruct l as [|y l].
  - cbn [join flat_map]. now rewrite app_nil_r.
  - rewrite join_cons by discriminate.
    change (x ++ [LF] ++ join [LF] (y :: l))
      with (x ++ LF :: join [LF] (y :: l)).
    rewrite paragraphs_LF, IH. reflexivity.
Qed.

Lemma dropWhile_spaces n body :
  match body with c :: _ => isSpace c = false | [] => True end ->
  dropWhile isSpace (repeatStr [SP] n ++ body) = body.
Proof.
  intros H. induction n as [|n IH].
  - cbn [repeatStr app]. destruct body as [|c u]; [reflexivity|].
    cbn [dropWhile]. now rewrite H.
  - cbn [repeatStr app dropWhile]. change (isSpace SP) with true. exact IH.
Qed.

Lemma trimEnd_word_end s : lastNonSpace s = true -> trimEnd s = s.
Proof.
  intros H. destruct (trimEnd_split s) as (sp & E & Hsp).
  destruct sp as [|x sp]; [now rewrite app_nil_r in E|].
  exfalso. rewrite E in H.
  rewrite lastNonSpace_app in H by discriminate.
  clear E. revert x Hsp H. induction sp as [|y sp IH]; intros x Hsp H.
  - cbn in H. inversion Hsp as [|? ? Hx _]; subst. rewrite Hx in H.
    discriminate.
  - cbn [lastNonSpace] in H. apply (IH y); [now inversion Hsp|exact H].
Qed.

Lemma no_LF_in_words g :
  Forall isWord g -> ~ In LF (join [SP] g).
Proof.
  induction 1 as [|x l [_ Hx] _ IH]; [easy|].
  assert (~ In LF x) as Hnx.
  { intros Hin. rewrite Forall_forall in Hx. now specialize (Hx LF Hin). }
  destruct l as [|y l]; [exact Hnx|].
  rewrite join_cons by discriminate. rewrite !in_app_iff.
  intros [H|[[H|[]]|H]]; [now apply Hnx|discriminate|now apply IH].
Qed.

Lemma wrapGroups_fits width g :
  g <> [] -> fits width g -> wrapGroups width g = [g].
Proof.
  intros Hne [Hle|[x ->]]; [now apply wrapGroups_short|].
  unfold wrapGroups. cbn [fold_left groupStep app].
  destruct (_ >? _)%Z; reflexivity.
Qed.

(** A line of the wrapper wraps to itself. *)
Lemma wrapText_line_again width indent g :
  g <> [] -> Forall isWord g -> fits width g ->
  flat_map (wrapPara width (repeatStr [SP] indent))
           (paragraphs (repeatStr [SP] indent ++ join [SP] g))
  = [repeatStr [SP] indent ++ join [SP] g].
Proof.
  intros Hne Hw Hfit.
  destruct (join_words_shape g Hne Hw) as (_ & Hl & c & u & E & Hc).
  assert (trim (repeatStr [SP] indent ++ join [SP] g) = join [SP] g) as Et.
  { unfold trim, trimStart. rewrite dropWhile_spaces by (now rewrite E).
    now apply trimEnd_word_end. }
  rewrite paragraphs_single.
  - rewrite Et. cbn [flat_map]. rewrite app_nil_r.
    assert (split reSpaces (join [SP] g) = g) as Es.
    { rewrite E. rewrite split_reSpaces_words by (auto; now rewrite <- E).
      rewrite <- E. now apply wordsOf_join. }
    rewrite wrapPara_groups.
    + rewrite Es, wrapGroups_fits by assumption. reflexivity.
    + rewrite Es. eapply Forall_impl; [|exact Hw]. now intros a [Ha _].
  - rewrite in_app_iff. intros [H|H].
    + clear -H. induction indent as [|n IH]; [easy|].
      cbn [repeatStr app In] in H. destruct H as [H|H]; [discriminate|auto].
    + revert H. now apply no_LF_in_words.
  - rewrite Et, E. discriminate.
Qed.

(** X22: wrapping what was wrapped changes nothing: the lines of
    [wrapText], joined by line feeds and wrapped again at the same width
    and indent, are the same lines. *)
Theorem wrapText_idempotent (text : jsstring) (width : Z) (indent : nat) :
  wrapText (join [LF] (wrapText text width indent)) width indent
  = wrapText text width indent.
Proof.
  rewrite (wrapText_paragraphs (join [LF] _)), paragraphs_join_LF.
  rewrite wrapText_groups.
  pose proof (nonnil_textGroups text width) as Hne.
  pose proof (words_textGroups text width) as Hw.
  pose proof (fits_textGroups text width) as Hf.
  induction (textGroups text width) as [|g l IH]; [reflexivity|].
  inversion Hne; inversion Hw; inversion Hf; subst.
  cbn [map flat_map]. rewrite flat_map_app.
  rewrite wrapText_line_again by assumption.
  cbn [app]. f_equal. now apply IH.
Qed.

(* ================================================================== *)
(** ** Strings whose introducers all start a sequence *)

(** A match of the pattern of [stripAnsi] is never empty. *)
Lemma exec_reAnsi_positive p s n : exec reAnsi (p, s) = Some n -> 0 < n.
Proof.
  unfold exec, reAnsi. rewrite matches_Seq, matches_Chr. cbn [rest snd].
  destruct s as [|c t]; [discriminate|].
  destruct (isIntroducer c); [|discriminate].
  cbn [flat_map]. rewrite app_nil_r.
  match goal with |- context [matches ?r (Some c, t)] =>
    pose proof (matches_shrinking r (Some c, t)) as Hs;
    destruct (matches r (Some c, t)) as [|st' l]
  end; [discriminate|].
  specialize (Hs st' (or_introl eq_refl)). cbn [rest snd] in Hs.
  cbn [rest snd]. intros E.
  assert (length (c :: t) - length (rest st') = n) as <- by congruence.
  cbn [length]. lia.
Qed.

Lemma introducersStart_plain s :
  introducersStart s ->
  forall skip p, plain (replaceFrom reAnsi [] skip p s).
Proof.
  induction s as [|c t IH]; intros Hs skip p.
  - destruct skip; cbn [replaceFrom]; [|constructor].
    destruct (exec reAnsi (p, [])) as [[|n]|]; constructor.
  - destruct Hs as [Hc Ht]. destruct skip as [|k]; cbn [replaceFrom].
    + destruct (exec reAnsi (p, c :: t)) as [[|n]|] eqn:E; cbn [app].
      * apply exec_reAnsi_positive in E. lia.
      * now apply IH.
      * constructor; [|now apply IH].
        destruct (isIntroducer c) eqn:Ec; [|reflexivity].
        exfalso. apply (Hc eq_refl).
        rewrite <- E. apply exec_prev. reflexivity.
    + now apply IH.
Qed.

Lemma introducersStart_app u t :
  Forall (fun c => isIntroducer c = false) u ->
  introducersStart t -> introducersStart (u ++ t).
Proof.
  induction 1 as [|c u Hc _ IH]; intros Ht; [exact Ht|].
  cbn [app introducersStart]. split; [|now apply IH].
  intros E. rewrite Hc in E. discriminate.
Qed.

Lemma isDigit_not_introducer c : isDigit c = true -> isIntroducer c = false.
Proof.
  unfold isDigit, inRange. intros H. apply andb_true_iff in H.
  destruct H as [H1 H2]. apply N.leb_le in H1, H2.
  unfold isIntroducer, oneOf, ESC, CSI. cbn [existsb].
  repeat (apply orb_false_iff; split); try reflexivity;
    apply N.eqb_neq; lia.
Qed.

(** Text styled with SGR sequences only is such a string. *)
Lemma styledText_introducersStart s : styledText s -> introducersStart s.
Proof.
  induction 1 as [|c s Hc _ IH|ds s Hne Hlen Hds _ IH].
  - exact I.
  - split; [|exact IH]. intros E. rewrite Hc in E. discriminate.
  - split.
    + intros _. now rewrite exec_reAnsi_sgr.
    + change (cu "[" :: ds ++ cu "m" :: s)
        with (([cu "["] ++ ds) ++ cu "m" :: s).
      rewrite <- app_assoc.
      apply (introducersStart_app [cu "["]); [repeat constructor|].
      apply introducersStart_app.
      * eapply Forall_impl; [|exact Hds].
        intros; now apply isDigit_not_introducer.
      * split; [intros E; discriminate E|exact IH].
Qed.

(** C6 (amended): for every string in which each escape introducer
    (U+001B or U+009B) starts an escape sequence of the pattern of
    [stripAnsi], as in every text styled with SGR sequences
    ([styledText_introducersStart]), stripping leaves no introducer behind:
    stripping twice is stripping once, and
    [visibleLength (stripAnsi s) = visibleLength s]. *)
Theorem visibleLength_stripAnsi (s : jsstring) :
  introducersStart s ->
  plain (stripAnsi s)
  /\ stripAnsi (stripAnsi s) = stripAnsi s
  /\ visibleLength (stripAnsi s) = visibleLength s.
Proof.
  intros Hs.
  assert (plain (stripAnsi s)) as Hp by now apply introducersStart_plain.
  split; [exact Hp|]. unfold visibleLength.
  rewrite (stripAnsi_plain (stripAnsi s) Hp). split; reflexivity.
Qed.

Lemma visibleLength_stripAnsi_witness :
  introducersStart (color.yellow (js "Role:   ") ++ js " dev")
  /\ visibleLength (stripAnsi (color.yellow (js "Role:   ") ++ js " dev"))
     = visibleLength (color.yellow (js "Role:   ") ++ js " dev").
Proof.
  assert (introducersStart (color.yellow (js "Role:   ") ++ js " dev")) as H.
  { vm_compute. repeat split; intros; discriminate. }
  split; [exact H|].
  apply (visibleLength_stripAnsi
           (color.yellow (js "Role:   ") ++ js " dev") H).
Defined.

(* ================================================================== *)
(** ** The four steps of [clean] *)

Lemma replaceFrom_0_cons r by_ p c t :
  replaceFrom r by_ 0 p (c :: t)
  = match exec r (p, c :: t) with
    | Some (S n) => by_ ++ replaceFrom r by_ n (Some c) t
    | Some O => by_ ++ c :: replaceFrom r by_ 0 (Some c) t
    | None => c :: replaceFrom r by_ 0 (Some c) t
    end.
Proof. reflexivity. Qed.

Lemma replaceFrom_S_cons r by_ k p c t :
  replaceFrom r by_ (S k) p (c :: t) = replaceFrom r by_ k (Some c) t.
Proof. reflexivity. Qed.

Lemma replaceFrom_0_nil r by_ p :
  exec r (p, []) = None -> replaceFrom r by_ 0 p [] = [].
Proof. intros E. cbn [replaceFrom]. now rewrite E. Qed.

Lemma exec_Chr_Chr (a b : char -> bool) p s :
  exec (Seq (Chr a) (Chr b)) (p, s)
  = match s with
    | c :: d :: _ => if (a c && b d)%bool then Some 2 else None
    | _ => None
    end.
Proof.
  unfold exec. rewrite matches_Seq, matches_Chr.
  destruct s as [|c [|d t]]; [reflexivity| |].
  - destruct (a c); reflexivity.
  - destruct (a c); cbn [flat_map andb]; [|reflexivity].
    rewrite matches_Chr.
    destruct (b d); cbn [app rest snd length]; [f_equal; lia|reflexivity].
Qed.

Lemma exec_reBold p s :
  exec reBold (p, s)
  = match s with
    | c :: d :: _ =>
        if (N.eqb (cu "*") c && N.eqb (cu "*") d)%bool then Some 2 else None
    | _ => None
    end.
Proof. apply exec_Chr_Chr. Qed.

Lemma removeBold_cons2 a b t :
  removeBold (a :: b :: t)
  = if (N.eqb (cu "*") a && N.eqb (cu "*") b)%bool
    then removeBold t else a :: removeBold (b :: t).
Proof. reflexivity. Qed.

(** The first [replace] of [clean] removes the pairs of asterisks. *)
Lemma replace_reBold n :
  forall s p, length s <= n -> replaceFrom reBold [] 0 p s = removeBold s.
Proof.
  induction n as [|n IH]; intros s p Hn.
  - destruct s; [|cbn [length] in Hn; lia].
    apply replaceFrom_0_nil. now rewrite exec_reBold.
  - destruct s as [|a [|b t]].
    + apply replaceFrom_0_nil. now rewrite exec_reBold.
    + rewrite replaceFrom_0_cons, exec_reBold.
      rewrite replaceFrom_0_nil by now rewrite exec_reBold. reflexivity.
    + cbn [length] in Hn.
      rewrite replaceFrom_0_cons, exec_reBold, removeBold_cons2.
      destruct (N.eqb (cu "*") a && N.eqb (cu "*") b)%bool.
      * rewrite replaceFrom_S_cons. cbn [app]. apply IH. lia.
      * f_equal. apply IH. cbn [length]. lia.
Qed.

Lemma matches_Bol st : matches Bol st = if atLineStart st then [st] else [].
Proof. reflexivity. Qed.

Lemma exec_Bol_Chr_opt (a b : char -> bool) p s :
  exec (Seq Bol (Seq (Chr a) (opt (Chr b)))) (p, s)
  = if atLineStart (p, s) then
      match s with
      | c :: t =>
          if a c
          then match t with
               | d :: _ => if b d then Some 2 else Some 1
               | [] => Some 1
               end
          else None
      | [] => None
      end
    else None.
Proof.
  unfold exec. rewrite matches_Seq, matches_Bol.
  destruct (atLineStart (p, s)); [|reflexivity].
  cbn [flat_map]. rewrite app_nil_r, matches_Seq, matches_Chr.
  destruct s as [|c t]; [reflexivity|].
  destruct (a c); [|reflexivity].
  cbn [flat_map]. rewrite app_nil_r, matches_opt_Chr.
  destruct t as [|d t]; [cbn [rest snd length]; f_equal; lia|].
  destruct (b d); cbn [rest snd length]; f_equal; lia.
Qed.

Lemma exec_reQuote p s :
  exec reQuote (p, s)
  = if atLineStart (p, s) then
      match s with
      | c :: t =>
          if N.eqb (cu ">") c
          then match t with
               | d :: _ => if isSpace d then Some 2 else Some 1
               | [] => Some 1
               end
          else None
      | [] => None
      end
    else None.
Proof. apply exec_Bol_Chr_opt. Qed.

Lemma exec_reQuote_nil p : exec reQuote (p, []) = None.
Proof. rewrite exec_reQuote. now destruct (atLineStart (p, [])). Qed.

Lemma stripQuotes_cons lineStart c t :
  stripQuotes lineStart (c :: t)
  = if (lineStart && N.eqb (cu ">") c)%bool then
      match t with
      | d :: t' =>
          if isSpace d then stripQuotes (isLineTerminator d) t'
          else stripQuotes false t
      | [] => []
      end
    else c :: stripQuotes (isLineTerminator c) t.
Proof. reflexivity. Qed.

(** The second [replace] of [clean] strips the block-quote markers at the
    starts of the lines. *)
Lemma replace_reQuote n :
  forall s p, length s <= n ->
  replaceFrom reQuote [] 0 p s = stripQuotes (atLineStart (p, s)) s.
Proof.
  induction n as [|n IH]; intros s p Hn.
  - destruct s; [|cbn [length] in Hn; lia].
    apply replaceFrom_0_nil, exec_reQuote_nil.
  - destruct s as [|c t]; [apply replaceFrom_0_nil, exec_reQuote_nil|].
    cbn [length] in Hn.
    assert (forall q u, length u <= n ->
              replaceFrom reQuote [] 0 (Some q) u
              = stripQuotes (isLineTerminator q) u) as IH'
      by (intros q u Hu; now rewrite IH).
    rewrite replaceFrom_0_cons, exec_reQuote, stripQuotes_cons.
    change (atLineStart (p, c :: t)) with (atLineStart (p, @nil N)).
    destruct (atLineStart (p, [])); cbn [andb];
      [|f_equal; apply IH'; lia].
    destruct (N.eqb_spec (cu ">") c) as [<-|Hc]; [|f_equal; apply IH'; lia].
    destruct t as [|d t'].
    + cbn [app]. apply replaceFrom_0_nil, exec_reQuote_nil.
    + cbn [length] in Hn. destruct (isSpace d); cbn [app].
      * rewrite replaceFrom_S_cons. apply IH'. lia.
      * apply (IH' (cu ">") (d :: t')). cbn [length]. lia.
Qed.

Lemma collapseBreaks_cons skipping c t :
  collapseBreaks skipping (c :: t)
  = if (skipping && isSpace c)%bool then collapseBreaks true t
    else if ((N.eqb CR c
              && match t with d :: _ => N.eqb LF d | [] => false end)
             || N.eqb LF c)%bool
    then LF :: collapseBreaks true t
    else c :: collapseBreaks false t.
Proof. reflexivity. Qed.

(** The third [replace] of [clean] collapses each line break and the
    whitespace after it; while a match is passed, the code units still to
    pass are the whitespace ahead. *)
Lemma replace_reBreak s :
  forall p,
  replaceFrom reBreak [LF] 0 p s = collapseBreaks false s
  /\ replaceFrom reBreak [LF] (spanLen isSpace s) p s = collapseBreaks true s.
Proof.
  induction s as [|c t IH]; intros p.
  - cbn [spanLen]. split; apply replaceFrom_0_nil, exec_reBreak.
  - assert (replaceFrom reBreak [LF] 0 p (c :: t)
            = collapseBreaks false (c :: t)) as Part1.
    { rewrite replaceFrom_0_cons, exec_reBreak, collapseBreaks_cons.
      cbn [andb].
      destruct (N.eqb CR c
                && match t with d :: _ => N.eqb LF d | [] => false end)%bool
        eqn:E1.
      - cbn [orb Nat.add app]. f_equal.
        destruct t as [|d t']; [now rewrite andb_false_r in E1|].
        apply andb_true_iff in E1. destruct E1 as [_ Ed].
        apply N.eqb_eq in Ed. subst d. cbn [tl].
        apply (proj2 (IH (Some c))).
      - cbn [orb]. destruct (N.eqb LF c).
        + cbn [Nat.add app]. f_equal. apply (proj2 (IH (Some c))).
        + f_equal. apply (proj1 (IH (Some c))). }
    split; [exact Part1|].
    cbn [spanLen]. destruct (isSpace c) eqn:Ec.
    + rewrite replaceFrom_S_cons, collapseBreaks_cons, Ec. cbn [andb].
      apply (proj2 (IH (Some c))).
    + rewrite Part1, !collapseBreaks_cons, Ec. reflexivity.
Qed.

(** C7: the example of the claim, and the four steps for every text:
    [clean] removes every pair of asterisks, then strips, at the start of
    the text and after every line terminator, a [>] with the one whitespace
    code unit that may follow it, then replaces every line break (a line
    feed, or a carriage return and a line feed) and the whitespace after it
    by one line feed, then trims.  The second example shows all four steps
    at work: a marker that is not at a line start stays, a carriage return,
    line feed and indentation become one line feed, and the whitespace at
    both ends goes. *)
Theorem clean_four_steps :
  clean (Some (js "**Hello** world" ++ [LF] ++ js "> quoted line"))
  = js "Hello world" ++ [LF] ++ js "quoted line"
  /\ clean (Some (js "  > **a** > b *" ++ [CR; LF] ++ js "  " ++ [LF]
                    ++ js "   >c" ++ [LF] ++ js ">" ++ [LF] ++ js "d  "))
     = js "> a > b *" ++ [LF] ++ js ">c" ++ [LF] ++ js "d"
  /\ forall text,
       clean (Some text)
       = trim (collapseBreaks false (stripQuotes true (removeBold text))).
Proof.
  split; [vm_compute; reflexivity|]. split; [vm_compute; reflexivity|].
  intros text. destruct text as [|c t]; [reflexivity|].
  cbn [clean]. unfold replaceAll. f_equal.
  rewrite (replace_reBold (length (c :: t)) (c :: t) None (le_n _)).
  rewrite (replace_reQuote _ _ None (le_n _)).
  apply (proj1 (replace_reBreak _ None)).
Qed.

(* ================================================================== *)
(** ** Responses that are not 2xx *)

(** The colored tag and the message, code unit by code unit. *)
Lemma errorLine_bytes message :
  color.magenta (js "Error:") ++ [SP] ++ message
  = ESC :: js "[35mError:" ++ ESC :: js "[0m " ++ message.
Proof. reflexivity. Qed.

(** What is handed over for an answer that [fetch] does not follow. *)
Lemma delivered_answer redirectFailure hasFetch net url a :
  net url = Answer a ->
  hasFetch = false \/ isRedirectStatus (ansStatus a) = false
  \/ ansLocation a = None ->
  delivered redirectFailure hasFetch net url
  = Response (ansStatus a) (ansBody a).
Proof.
  intros Hnet H. unfold delivered, httpsGet. destruct hasFetch.
  - cbn [fetchFollow]. rewrite Hnet.
    destruct H as [H|[H|H]]; [discriminate|now rewrite H|].
    rewrite H. now destruct (isRedirectStatus (ansStatus a)).
  - now rewrite Hnet.
Qed.




(** A redirect that ends at a missing page: on the [fetch] path the status
    of the last answer is reported, on the [https.get] path the status of
    the redirect. *)
Example main_redirect_to_error :
  runAgainst (js "fetch failed") (parseOnly profileBody (Some emptyProfile))
             None true None
             (redirectTo {| ansStatus := 404; ansLocation := None;
                            ansBody := js "Not Found" |})
  = {| stdout := [];
       stderr := [ESC :: js "[35mError:" ++ ESC
                      :: js "[0m Request failed with status 404"];
       exitCode := Some 1%Z |}
  /\ runAgainst (js "fetch failed")
                (parseOnly profileBody (Some emptyProfile))
                None false None
                (redirectTo {| ansStatus := 404; ansLocation := None;
                               ansBody := js "Not Found" |})
     = {| stdout := [];
          stderr := [ESC :: js "[35mError:" ++ ESC
                         :: js "[0m Request failed with status 302"];
          exitCode := Some 1%Z |}.
Proof. split; vm_compute; reflexivity. Qed.

(* ================================================================== *)
(** ** The printed rows *)

Lemma rowsFrom_noLF x : noLF x -> forall cur, rowsFrom cur x = [cur ++ x].
Proof.
  induction 1 as [|c x Hc _ IH]; intros cur; cbn [rowsFrom].
  - now rewrite app_nil_r.
  - destruct (N.eqb_spec c LF); [contradiction|].
    rewrite IH, <- app_assoc. reflexivity.
Qed.

Lemma rowsFrom_break x t :
  noLF x -> forall cur, rowsFrom cur (x ++ LF :: t) = (cur ++ x) :: rowsFrom [] t.
Proof.
  induction 1 as [|c x Hc _ IH]; intros cur; cbn [app rowsFrom].
  - rewrite N.eqb_refl, app_nil_r. reflexivity.
  - destruct (N.eqb_spec c LF); [contradiction|].
    rewrite IH, <- app_assoc. reflexivity.
Qed.

(** Rows without line feed, joined by line feeds and printed, are the
    rows. *)
Lemma printedRows_join ls :
  ls <> [] -> Forall noLF ls -> printedRows (join [LF] ls) = ls.
Proof.
  induction ls as [|x ls IH]; [easy|]. intros _ H.
  inversion H as [|? ? Hx Hls]; subst. unfold printedRows in *.
  destruct ls as [|y ls'].
  - cbn [join]. now rewrite rowsFrom_noLF.
  - rewrite (join_cons [LF] x (y :: ls')) by discriminate.
    change (x ++ [LF] ++ join [LF] (y :: ls'))
      with (x ++ LF :: join [LF] (y :: ls')).
    rewrite rowsFrom_break by assumption. cbn [app]. f_equal.
    apply IH; [discriminate|assumption].
Qed.

Lemma noLF_app a b : noLF a -> noLF b -> noLF (a ++ b).
Proof. intros Ha Hb. apply Forall_app. now split. Qed.

Lemma noLF_replaceFrom r s :
  noLF s -> forall skip p, noLF (replaceFrom r [] skip p s).
Proof.
  induction 1 as [|c t Hc _ IH]; intros skip p.
  - destruct skip; cbn [replaceFrom]; [|constructor].
    destruct (exec r (p, [])) as [[|n]|]; constructor.
  - destruct skip as [|k]; cbn [replaceFrom]; [|apply IH].
    destruct (exec r (p, c :: t)) as [[|n]|]; cbn [app];
      try (constructor; [exact Hc|]); apply IH.
Qed.

Lemma noLF_stripAnsi s : noLF s -> noLF (stripAnsi s).
Proof. intros H. now apply noLF_replaceFrom. Qed.

Lemma noLF_dropWhile f s : noLF s -> noLF (dropWhile f s).
Proof.
  induction 1 as [|c t Hc Ht IH]; [constructor|].
  cbn [dropWhile]. destruct (f c); [exact IH|now constructor].
Qed.

Lemma noLF_trim s : noLF s -> noLF (trim s).
Proof.
  intros H. unfold trim, trimEnd, trimStart, noLF.
  apply Forall_rev. apply noLF_dropWhile. apply Forall_rev.
  now apply noLF_dropWhile.
Qed.

Lemma noLF_firstn n s : noLF s -> noLF (firstn n s).
Proof.
  revert s. induction n as [|n IH]; intros s H; [constructor|].
  destruct s as [|c t]; [constructor|]. inversion H; subst.
  cbn [firstn]. constructor; [assumption|apply IH; assumption].
Qed.

Lemma noLF_skipn n s : noLF s -> noLF (skipn n s).
Proof.
  revert s. induction n as [|n IH]; intros s H; [exact H|].
  destruct s as [|c t]; [constructor|]. inversion H; subst.
  cbn [skipn]. apply IH. assumption.
Qed.

Lemma noLF_slice s a b : noLF s -> noLF (slice s a b).
Proof. intros H. unfold slice. now apply noLF_firstn, noLF_skipn. Qed.

Lemma noLF_repeatStr s n : noLF s -> noLF (repeatStr s n).
Proof.
  intros H. induction n as [|n IH]; [constructor|].
  cbn [repeatStr]. now apply noLF_app.
Qed.

Lemma noLF_join sep g : noLF sep -> Forall noLF g -> noLF (join sep g).
Proof.
  intros Hs. induction 1 as [|x g Hx Hg IH]; [constructor|].
  destruct g as [|y g']; [exact Hx|].
  rewrite (join_cons sep x (y :: g')) by discriminate.
  apply noLF_app; [exact Hx|]. now apply noLF_app.
Qed.

Lemma noLF_sgr code str :
  In code ["36"; "35"; "33"; "1"; "2"]%string -> noLF str ->
  noLF (color.sgr code str).
Proof.
  intros Hcode Hs. unfold color.sgr.
  assert (noLF (js code)) as Hc.
  { cbn [In] in Hcode.
    repeat (destruct Hcode as [<-|Hcode];
            [repeat constructor; discriminate|]).
    destruct Hcode. }
  apply noLF_app; [repeat constructor; discriminate|].
  apply noLF_app; [repeat constructor; discriminate|].
  apply noLF_app; [exact Hc|].
  apply noLF_app; [repeat constructor; discriminate|].
  apply noLF_app; [exact Hs|].
  repeat constructor; discriminate.
Qed.

Lemma fieldNoLF_orElse a b : fieldNoLF a -> fieldNoLF b -> fieldNoLF (orElse a b).
Proof. intros Ha Hb. unfold orElse. now destruct (truthyOpt a). Qed.

Lemma noLF_orEmpty o : fieldNoLF o -> noLF (orEmpty o).
Proof.
  intros H. unfold orEmpty, orElse.
  destruct o as [s|]; cbn [truthyOpt]; [|constructor].
  destruct (truthy s); [exact H|constructor].
Qed.

Lemma noLF_content (text : option jsstring) :
  fieldNoLF text -> noLF (match text with Some t => t | None => [] end).
Proof. destruct text; [auto|constructor]. Qed.

Lemma noLF_boxLine text width : fieldNoLF text -> noLF (boxLine text width).
Proof.
  intros H. apply noLF_content in H. unfold boxLine, boxRaw.
  apply noLF_app; [repeat constructor; discriminate|].
  apply noLF_app; [apply noLF_repeatStr; repeat constructor; discriminate|].
  apply noLF_app.
  { destruct (_ >? _)%Z; [|exact H].
    apply noLF_app; [now apply noLF_slice, noLF_stripAnsi|].
    repeat constructor; discriminate. }
  apply noLF_app; [apply noLF_repeatStr; repeat constructor; discriminate|].
  apply noLF_app; [apply noLF_repeatStr; repeat constructor; discriminate|].
  repeat constructor; discriminate.
Qed.

Lemma noLF_legacy_boxLine text width :
  fieldNoLF text -> noLF (Legacy.boxLine text width).
Proof.
  intros H. apply noLF_content in H. unfold Legacy.boxLine, Legacy.boxRaw.
  apply noLF_app; [repeat constructor; discriminate|].
  apply noLF_app.
  { destruct (_ >? _)%Z; [|exact H].
    apply noLF_app; [now apply noLF_slice, noLF_stripAnsi|].
    repeat constructor; discriminate. }
  apply noLF_app; [apply noLF_repeatStr; repeat constructor; discriminate|].
  repeat constructor; discriminate.
Qed.

Lemma noLF_boxTop label width : noLF label -> noLF (boxTop label width).
Proof.
  intros H. unfold boxTop, divider.
  apply noLF_app; [repeat constructor; discriminate|].
  apply noLF_app.
  { destruct (truthy label); [|constructor].
    apply noLF_app; [repeat constructor; discriminate|].
    apply noLF_app; [exact H|repeat constructor; discriminate]. }
  apply noLF_app; [apply noLF_repeatStr|]; repeat constructor; discriminate.
Qed.

Lemma noLF_boxBottom width : noLF (boxBottom width).
Proof.
  unfold boxBottom, divider.
  apply noLF_app; [repeat constructor; discriminate|].
  apply noLF_app; [apply noLF_repeatStr|]; repeat constructor; discriminate.
Qed.

Lemma noLF_section_divider l w :
  In l [js "details"; js "contact"; js "about"] -> noLF (boxDivider l w).
Proof.
  intros Hl. unfold boxDivider, divider.
  apply noLF_app; [repeat constructor; discriminate|].
  apply noLF_app.
  { cbn [In] in Hl.
    repeat (destruct Hl as [<-|Hl]; [repeat constructor; discriminate|]).
    destruct Hl. }
  apply noLF_app; [apply noLF_repeatStr|]; repeat constructor; discriminate.
Qed.

Lemma noLF_header p :
  fieldNoLF (displayName p) -> fieldNoLF (username p) ->
  fieldNoLF (pronouns p) -> noLF (header p).
Proof.
  intros Hd Hu Hp. unfold header. apply noLF_trim.
  apply noLF_app.
  { apply (noLF_sgr "1"); [cbn; tauto|]. apply noLF_orEmpty.
    apply fieldNoLF_orElse; [now apply fieldNoLF_orElse|].
    repeat constructor; discriminate. }
  apply noLF_app; [repeat constructor; discriminate|].
  destruct (truthyOpt (pronouns p)); [|constructor].
  apply noLF_app; [repeat constructor; discriminate|].
  apply noLF_app; [now apply noLF_orEmpty|repeat constructor; discriminate].
Qed.

Lemma noLF_secondary p width :
  fieldNoLF (firstName p) -> fieldNoLF (lastName p) ->
  fieldNoLF
    (if truthyOpt (if truthyOpt (fullName p)
                   then Some (color.dim (orEmpty (fullName p))) else None)
     then Some (boxLine
                  (if truthyOpt (fullName p)
                   then Some (color.dim (orEmpty (fullName p))) else None)
                  width)
     else None).
Proof.
  intros Hf Hl.
  assert (fieldNoLF (fullName p)) as Hn.
  { unfold fullName. destruct (_ || _)%bool; [|exact I].
    apply noLF_trim, noLF_app; [now apply noLF_orEmpty|].
    apply noLF_app; [repeat constructor; discriminate|now apply noLF_orEmpty]. }
  destruct (truthyOpt (if truthyOpt (fullName p) then _ else _)); [|exact I].
  apply noLF_boxLine. destruct (truthyOpt (fullName p)); [|exact I].
  apply (noLF_sgr "2"); [cbn; tauto|]. now apply noLF_orEmpty.
Qed.

Lemma noLF_fieldLine label value width :
  noLF label -> fieldNoLF value -> fieldNoLF (fieldLine label value width).
Proof.
  intros Hl Hv. unfold fieldLine. destruct (truthyOpt value); [|exact I].
  apply noLF_boxLine. apply noLF_app.
  - apply (noLF_sgr "33"); [cbn; tauto|]. unfold padEnd.
    apply noLF_app; [apply noLF_app; [exact Hl|]|apply noLF_repeatStr];
      repeat constructor; discriminate.
  - apply noLF_app; [repeat constructor; discriminate|].
    now apply noLF_content.
Qed.

Lemma isSpace_LF_word u : isWord u -> noLF u.
Proof.
  intros [_ H]. eapply Forall_impl; [|exact H].
  intros c Hc ->. discriminate Hc.
Qed.

(** No line of [wrapText] has a line feed in it. *)
Lemma noLF_wrapText text width indent :
  Forall noLF (wrapText text width indent).
Proof.
  rewrite wrapText_groups, Forall_map.
  pose proof (words_textGroups text width) as H.
  eapply Forall_impl; [|exact H]. intros g Hg. cbv beta.
  apply noLF_app; [apply noLF_repeatStr; repeat constructor; discriminate|].
  apply noLF_join; [repeat constructor; discriminate|].
  eapply Forall_impl; [|exact Hg]. apply isSpace_LF_word.
Qed.

Lemma noLF_aboutRows (lines : list jsstring) (row : option jsstring -> jsstring) :
  Forall noLF lines -> (forall l, noLF l -> noLF (row (Some l))) ->
  Forall fieldNoLF (map (fun l => Some (row (Some l))) lines).
Proof.
  intros H Hrow. apply Forall_map. eapply Forall_impl; [|exact H].
  intros l Hl. now apply Hrow.
Qed.

(** No element of the array that [render] joins has a line feed in it,
    when the fields shown in single rows have none. *)
Lemma noLF_renderLines p columns :
  singleLineFields p -> Forall noLF (renderLines p columns).
Proof.
  intros H. unfold singleLineFields in H.
  repeat match type of H with
         | Forall _ (_ :: _) =>
             let Hx := fresh "Hf" in
             inversion H as [|? ? Hx H']; subst; clear H; rename H' into H
         end.
  unfold renderLines. generalize (boxWidth columns). intros w.
  apply Forall_present. change (fun o : option jsstring =>
     match o with Some x => noLF x | None => True end) with fieldNoLF.
  unfold renderRows. apply Forall_app. split; [|apply Forall_app; split].
  - constructor; [apply noLF_boxTop; repeat constructor; discriminate|].
    constructor.
    { apply noLF_boxLine. apply (noLF_sgr "36"); [cbn; tauto|].
      now apply noLF_header. }
    constructor; [now apply noLF_secondary|].
    constructor; [apply noLF_section_divider; cbn; tauto|].
    constructor;
      [apply noLF_fieldLine; [repeat constructor; discriminate|assumption]|].
    constructor;
      [apply noLF_fieldLine; [repeat constructor; discriminate|assumption]|].
    constructor; [apply noLF_section_divider; cbn; tauto|].
    constructor;
      [apply noLF_fieldLine; [repeat constructor; discriminate|assumption]|].
    constructor;
      [apply noLF_fieldLine; [repeat constructor; discriminate|assumption]|].
    constructor; [|constructor].
    destruct (0 <? _)%nat; [apply noLF_section_divider; cbn; tauto|exact I].
  - apply (noLF_aboutRows _ (fun t => boxLine t w)).
    + unfold aboutLines. destruct (truthy _); [apply noLF_wrapText|constructor].
    + intros l Hl. now apply noLF_boxLine.
  - constructor; [apply noLF_boxBottom|constructor].
Qed.

Lemma noLF_joinPresent a b :
  fieldNoLF a -> fieldNoLF b -> noLF (Legacy.joinPresent [a; b]).
Proof.
  intros Ha Hb. unfold Legacy.joinPresent.
  apply noLF_join; [repeat constructor; discriminate|].
  apply Forall_present. repeat constructor; assumption.
Qed.

Lemma noLF_legacy_renderLines p columns :
  singleLineFields p -> Forall noLF (Legacy.renderLines p columns).
Proof.
  intros H. unfold singleLineFields in H.
  repeat match type of H with
         | Forall _ (_ :: _) =>
             let Hx := fresh "Hf" in
             inversion H as [|? ? Hx H']; subst; clear H; rename H' into H
         end.
  unfold Legacy.renderLines. generalize (boxWidth columns). intros w.
  apply Forall_present. change (fun o : option jsstring =>
     match o with Some x => noLF x | None => True end) with fieldNoLF.
  unfold Legacy.renderRows. apply Forall_app. split; [|apply Forall_app; split].
  - constructor; [apply noLF_boxTop; repeat constructor; discriminate|].
    constructor.
    { apply noLF_legacy_boxLine. apply (noLF_sgr "36"); [cbn; tauto|].
      now apply noLF_header. }
    constructor.
    { assert (fieldNoLF (fullName p)) as Hn.
      { unfold fullName. destruct (_ || _)%bool; [|exact I].
        apply noLF_trim, noLF_app; [now apply noLF_orEmpty|].
        apply noLF_app; [repeat constructor; discriminate|].
        now apply noLF_orEmpty. }
      destruct (truthyOpt (if truthyOpt (fullName p) then _ else _));
        [|exact I].
      apply noLF_legacy_boxLine. destruct (truthyOpt (fullName p)); [|exact I].
      apply (noLF_sgr "2"); [cbn; tauto|]. now apply noLF_orEmpty. }
    constructor.
    { destruct (truthy _); [|exact I]. apply noLF_legacy_boxLine.
      now apply (noLF_joinPresent (jobTitle p) (timeZone p)). }
    constructor.
    { destruct (truthy _); [|exact I]. apply noLF_legacy_boxLine.
      now apply (noLF_joinPresent (email p) (website p)). }
    constructor; [|constructor].
    destruct (0 <? _)%nat; [apply noLF_section_divider; cbn; tauto|exact I].
  - apply (noLF_aboutRows _ (fun t => Legacy.boxLine t w)).
    + unfold Legacy.aboutLines.
      destruct (truthy _); [apply noLF_wrapText|constructor].
    + intros l Hl. now apply noLF_legacy_boxLine.
  - constructor; [apply noLF_boxBottom|constructor].
Qed.

(** What is printed for a profile whose single-row fields have no line
    feed: the rows are the elements of the array that [render] joins. *)
Lemma printedRows_render p columns :
  singleLineFields p -> printedRows (render p columns) = renderLines p columns.
Proof.
  intros H. unfold render. apply printedRows_join.
  - destruct (renderLines_shape p columns) as (_ & _ & middle & ->).
    discriminate.
  - now apply noLF_renderLines.
Qed.

Lemma legacy_renderLines_first p columns :
  exists rows,
    Legacy.renderLines p columns
    = boxTop (js "Profile") (boxWidth columns) :: rows.
Proof.
  unfold Legacy.renderLines, Legacy.renderRows.
  cbn [app flat_map]. rewrite truthy_boxTop. cbn [app].
  eexists. reflexivity.
Qed.

Lemma printedRows_legacy_render p columns :
  singleLineFields p ->
  printedRows (Legacy.render p columns) = Legacy.renderLines p columns.
Proof.
  intros H. unfold Legacy.render. apply printedRows_join.
  - destruct (legacy_renderLines_first p columns) as [rows ->]. discriminate.
  - now apply noLF_legacy_renderLines.
Qed.

(** X4: the printed box is a rectangle.  For every profile whose fields
    shown in single rows (display name, user name, pronouns, first and last
    name, role, time zone, email, website) have no line feed, and every
    reported terminal width, the box width is between 60 and 100, every row
    of the printed output (what the line feeds of [render]'s result
    separate) has exactly that visible length, the first row is the top
    border labelled Profile, the second is the header row, and the last is
    the bottom border. *)
Theorem render_box_shape (p : profile) (columns : option Z) :
  singleLineFields p ->
  (60 <= boxWidth columns <= 100)%Z
  /\ Forall (fun row => visibleLength row = boxWidth columns)
            (printedRows (render p columns))
  /\ exists middle,
       printedRows (render p columns)
       = boxTop (js "Profile") (boxWidth columns)
           :: boxLine (Some (color.cyan (header p))) (boxWidth columns)
           :: middle ++ [boxBottom (boxWidth columns)].
Proof.
  intros H. rewrite (printedRows_render p columns H).
  apply renderLines_shape.
Qed.

Lemma render_box_shape_witness :
  Forall (fun row => visibleLength row = boxWidth (Some 72%Z))
         (printedRows
            (render
               {| displayName := Some (js "Ada Lovelace"); username := None;
                  pronouns := Some (js "she/her"); firstName := None;
                  lastName := None; jobTitle := Some (js "Engineer");
                  timeZone := None; email := None; website := None;
                  about := Some (js "First line" ++ [LF] ++ js "second line");
                  bio := None |} (Some 72%Z))).
Proof.
  apply (render_box_shape
           {| displayName := Some (js "Ada Lovelace"); username := None;
              pronouns := Some (js "she/her"); firstName := None;
              lastName := None; jobTitle := Some (js "Engineer");
              timeZone := None; email := None; website := None;
              about := Some (js "First line" ++ [LF] ++ js "second line");
              bio := None |} (Some 72%Z)).
  vm_compute. repeat constructor; discriminate.
Defined.

(** X17: a profile with nothing below the header (name parts, role, time
    zone, email, website, about and bio absent or empty) and no line feed in
    its display name, user name and pronouns prints exactly five rows: the
    top border, the header row, the DETAILS divider, the CONTACT divider and
    the bottom border.  The two dividers are printed although their
    sections are empty. *)
Theorem render_header_only (p : profile) (columns : option Z) :
  headerOnly p -> singleLineFields p ->
  printedRows (render p columns)
  = [ boxTop (js "Profile") (boxWidth columns);
      boxLine (Some (color.cyan (header p))) (boxWidth columns);
      boxDivider (js "details") (boxWidth columns);
      boxDivider (js "contact") (boxWidth columns);
      boxBottom (boxWidth columns) ].
Proof.
  intros Hh Hs. rewrite (printedRows_render p columns Hs).
  now apply renderLines_header_only.
Qed.

Lemma render_header_only_witness :
  printedRows
    (render
       {| displayName := Some (js "Ada"); username := None;
          pronouns := Some (js "she/her"); firstName := None;
          lastName := Some []; jobTitle := None; timeZone := None;
          email := None; website := None; about := None; bio := Some [] |}
       None)
  = [ boxTop (js "Profile") 80;
      boxLine (Some (color.cyan (color.bold (js "Ada") ++ js " (she/her)")))
              80;
      boxDivider (js "details") 80;
      boxDivider (js "contact") 80;
      boxBottom 80 ].
Proof.
  apply (render_header_only
           {| displayName := Some (js "Ada"); username := None;
              pronouns := Some (js "she/her"); firstName := None;
              lastName := Some []; jobTitle := None; timeZone := None;
              email := None; website := None; about := None;
              bio := Some [] |} None).
  - vm_compute. repeat split; reflexivity.
  - vm_compute. repeat constructor; discriminate.
Defined.

(** X19: in the earlier renderer, for every profile whose fields shown in
    single rows have no line feed, every row of the printed output has the
    visible length of the box; and when the profile has nothing below the
    header, exactly three rows are printed, the top border, the header row
    and the bottom border: empty sections leave no row. *)
Theorem legacy_render_shape (p : profile) (columns : option Z) :
  singleLineFields p ->
  Forall (fun row => visibleLength row = boxWidth columns)
         (printedRows (Legacy.render p columns))
  /\ (headerOnly p ->
      printedRows (Legacy.render p columns)
      = [ boxTop (js "Profile") (boxWidth columns);
          Legacy.boxLine (Some (color.cyan (header p))) (boxWidth columns);
          boxBottom (boxWidth columns) ]).
Proof.
  intros H. rewrite (printedRows_legacy_render p columns H).
  apply legacy_renderLines_shape.
Qed.

Lemma legacy_render_shape_witness :
  Forall (fun row => visibleLength row = boxWidth None)
         (printedRows
            (Legacy.render
               {| displayName := None; username := Some (js "ada");
                  pronouns := None; firstName := Some (js "Ada");
                  lastName := Some (js "Lovelace");
                  jobTitle := Some (js "Engineer");
                  timeZone := Some (js "Europe/London"); email := None;
                  website := Some (js "https://example.org");
                  about := Some (js "First line" ++ [LF] ++ js "second line");
                  bio := None |} None)).
Proof.
  apply (legacy_render_shape
           {| displayName := None; username := Some (js "ada");
              pronouns := None; firstName := Some (js "Ada");
              lastName := Some (js "Lovelace");
              jobTitle := Some (js "Engineer");
              timeZone := Some (js "Europe/London"); email := None;
              website := Some (js "https://example.org");
              about := Some (js "First line" ++ [LF] ++ js "second line");
              bio := None |} None).
  vm_compute. repeat constructor; discriminate.
Defined.

(* ================================================================== *)
(** ** The two paths of [fetchProfile] *)

Lemma fetchProfile_paths (JSON_parse : jsstring -> parsed) (r : httpResult) :
  fetchProfile JSON_parse true r = fetchProfile JSON_parse false r.
Proof.
  unfold fetchProfile, ok. destruct r as [m|status body]; [reflexivity|].
  destruct (Z.leb_spec 200 status), (Z.leb_spec status 299),
           (Z.ltb_spec status 200), (Z.geb_spec status 300);
    cbn [andb negb orb]; try reflexivity; lia.
Qed.

Lemma delivered_not_followed redirectFailure net url :
  followed (net url) = false ->
  delivered redirectFailure true net url
  = delivered redirectFailure false net url.
Proof.
  unfold delivered, httpsGet, followed. cbn [fetchFollow].
  destruct (net url) as [m|a]; [reflexivity|].
  destruct (isRedirectStatus (ansStatus a)); [|reflexivity].
  destruct (ansLocation a); [discriminate|reflexivity].
Qed.


